(** * calc.py: lexer, LL(1) parser, code generation and evaluation

    A shallow embedding of [calc.py] (Python 2): the [Lexer], the [Expr]
    tree, the recursive-descent [Parser2], and [Code.gen] with [Code.run].

    - A Python 2 [str] is a sequence of 8-bit characters: [string].
    - A Python [int]/[long] is unbounded: [Z].  A Python [float] is an IEEE
      binary64: the kernel's primitive [float].
    - An environment (the dict handed to [run]) is a [gmap string value].
    - The parser object's mutable fields ([cur] and the token generator)
      are threaded as an explicit state.
    - Evaluation is a computation that returns a value, raises a Python
      exception, or asks the host's C math library for a result. *)

From Stdlib Require Import ZArith Ascii String Floats.
From stdpp Require Import base option list strings gmap.

Local Open Scope string_scope.
Local Open Scope Z_scope.

(** ** Characters: [str.isspace], [str.isalpha], [str.isdigit], [str.isalnum]
    of an 8-bit Python 2 string in the C locale. *)

Module Char.

Definition code (c : ascii) : nat := nat_of_ascii c.

Definition isspace (c : ascii) : bool :=
  let n := code c in ((9 <=? n) && (n <=? 13) || (n =? 32))%nat.

Definition isdigit (c : ascii) : bool :=
  let n := code c in ((48 <=? n) && (n <=? 57))%nat.

Definition isalpha (c : ascii) : bool :=
  let n := code c in
  ((65 <=? n) && (n <=? 90) || (97 <=? n) && (n <=? 122))%nat.

Definition isalnum (c : ascii) : bool := isalpha c || isdigit c.

End Char.

(** ** Lexemes and the lexer *)

(** [Lexeme(name, pos, data)].  [pos] is an integer because [Parser2.next]
    builds a lexeme at position [-1]; [data] is [None] for the end marker
    the lexer yields. *)
Record Lexeme := mkLexeme {
  lx_name : string;
  lx_pos : Z;
  lx_data : option string
}.

Module Lexer.

(** The number of leading characters of [s] that satisfy [p]: the
    [while j < len(data) and p(data[j]): j += 1] scans. *)
Fixpoint count_while (p : ascii -> bool) (s : string) : nat :=
  match s with
  | String c s' => if p c then S (count_while p s') else O
  | EmptyString => O
  end.

(** [data[i:]] *)
Fixpoint drop (i : nat) (s : string) : string :=
  match i, s with
  | O, _ => s
  | S i', String _ s' => drop i' s'
  | S _, EmptyString => EmptyString
  end.

(** [data[i:j]] for [i <= j]; like the Python slice it stops at the end
    of [data]. *)
Definition slice (data : string) (i j : nat) : string :=
  String.substring i (j - i) data.

(** [lexid]: [j] starts at [i + 1] and runs over alphanumerics. *)
Definition lexid (data : string) (i : nat) : Lexeme * nat :=
  let j := (i + 1 + count_while Char.isalnum (drop (i + 1) data))%nat in
  (mkLexeme "id" (Z.of_nat i) (Some (slice data i j)), j).

(** [num_re.match(data, i)]: the end of the match at [i], if there is
    one.  The pattern is a single zero or a run of digits that does not
    start with zero, then optionally a dot and one or more digits; the
    regex engine is greedy, so both runs are maximal, and the fraction
    is taken exactly when a digit follows the dot. *)
Definition num_match (data : string) (i : nat) : option nat :=
  match String.get i data with
  | Some c =>
      if Char.isdigit c then
        let j :=
          if Ascii.eqb c "0" then (i + 1)%nat
          else (i + 1 + count_while Char.isdigit (drop (i + 1) data))%nat in
        match String.get j data, String.get (j + 1) data with
        | Some dot, Some d =>
            if Ascii.eqb dot "." && Char.isdigit d
            then Some (j + 1 + count_while Char.isdigit (drop (j + 1) data))%nat
            else Some j
        | _, _ => Some j
        end
      else None
  | None => None
  end.

(** [lexnum]: [None] stands for the exception ["num error ..."]. *)
Definition lexnum (data : string) (i : nat) : option (Lexeme * nat) :=
  match num_match data i with
  | Some j => Some (mkLexeme "num" (Z.of_nat i) (Some (slice data i j)), j)
  | None => None
  end.

(** What the generator [lex] yields, as a list.  The outer [while] loop
    runs once per unit of [fuel]; every turn moves [i] forward, so
    [length data + 1] turns are enough ([lex_total] below).  [None] is the
    ["num error"] exception; it never occurs ([lex_total]), so taking the
    lexemes all at once is the same as pulling them one by one. *)
Fixpoint lex_from (fuel : nat) (data : string) (i : nat) : option (list Lexeme) :=
  match fuel with
  | O => Some []
  | S fuel' =>
      match String.get i data with
      | Some c =>
          if Char.isspace c then lex_from fuel' data (i + 1)
          else if Char.isalpha c then
            let '(lx, j) := lexid data i in
            cons lx <$> lex_from fuel' data j
          else if Char.isdigit c then
            match lexnum data i with
            | Some (lx, j) => cons lx <$> lex_from fuel' data j
            | None => None
            end
          else if String.eqb (slice data i (i + 2)) "//" then
            cons (mkLexeme "//" (Z.of_nat i) (Some "//")) <$> lex_from fuel' data (i + 2)
          else
            let s := String c EmptyString in
            cons (mkLexeme s (Z.of_nat i) (Some s)) <$> lex_from fuel' data (i + 1)
      | None => Some [mkLexeme "$" (Z.of_nat i) None]
      end
  end.

Definition lex (data : string) : option (list Lexeme) :=
  lex_from (String.length data + 1) data 0.

End Lexer.

(** ** The syntax tree

    [Expr(op, *args)].  The parser builds four shapes, kept apart here by
    what [args] holds: [Expr('num', text)], [Expr('id', name)],
    [Expr('apply', fn, *exprs)], and [Expr(op, *exprs)] for the operators
    (['-'] with one or two operands, ['!'], ['abs'] and the binary ones). *)
#[warnings="-register-all"]
Inductive Expr : Type :=
| ENum (text : string)
| EId (name : string)
| EApply (fn : string) (args : list Expr)
| EOp (op : string) (args : list Expr).

(** ** The parser *)

Module Parser2.

(** The parser object's state: the lookahead [self.cur] and what the
    generator [self.gen] has not yielded yet. *)
Record pstate := mkState {
  cur : Lexeme;
  rest : list Lexeme
}.

(** How a parsing method ends: it returns, or [self.error()] raises at the
    lookahead, or the method falls off its end and yields no expression
    (the last case of [parseE6]), or the model's recursion budget is
    spent. *)
Inductive presult (A : Type) : Type :=
| POk (a : A) (st : pstate)
| PError (tok : Lexeme)
| PNoValue
| PFuel.
Arguments POk {A} a st.
Arguments PError {A} tok.
Arguments PNoValue {A}.
Arguments PFuel {A}.

Definition parser (A : Type) : Type := pstate -> presult A.

Definition ret {A} (a : A) : parser A := fun st => POk a st.

Definition bind {A B} (m : parser A) (k : A -> parser B) : parser B :=
  fun st =>
    match m st with
    | POk a st' => k a st'
    | PError tok => PError tok
    | PNoValue => PNoValue
    | PFuel => PFuel
    end.

Declare Scope parser_scope.
Delimit Scope parser_scope with parser.
Notation "x ← y ; z" := (bind y (fun x => z))
  (at level 20, y at level 100, z at level 200, only parsing) : parser_scope.
Notation "x ;; z" := (bind x (fun _ => z))
  (at level 100, z at level 200, only parsing, right associativity) : parser_scope.
#[local] Open Scope parser_scope.

(** [self.error()] *)
Definition error {A} : parser A := fun st => PError (cur st).

Definition get_cur : parser Lexeme := fun st => POk (cur st) st.

(** [self.lxin]: is the name of the lookahead one of [names]? *)
Definition lxin (names : list string) : parser bool :=
  fun st => POk (existsb (String.eqb (lx_name (cur st))) names) st.

(** [self.next()]: an error at the end marker; otherwise the generator's
    next lexeme, or [Lexeme('$', -1, '$')] once it is exhausted. *)
Definition next : parser unit :=
  fun st =>
    if String.eqb (lx_name (cur st)) "$" then PError (cur st)
    else match rest st with
         | t :: r => POk tt (mkState t r)
         | [] => POk tt (mkState (mkLexeme "$" (-1) (Some "$")) [])
         end.

(** The text of a lexeme, as [Expr('num', c.data)] stores it. *)
Definition data_of (c : Lexeme) : string := default "" (lx_data c).

(** The two folds of [parseEx] over the list [f2] returned.  The Python
    list alternates operator names and operands, [op1, e1, op2, e2, ...];
    here it is the list of the pairs [(op_k, e_k)].  The left fold is the
    loop [expr = Expr(lst[i], expr, lst[i + 1])] for [i = 0, 2, ...]; the
    right fold is the loop over [[lhs] + lst] from its end,
    [expr = Expr(lst[i + 1], lst[i], expr)]. *)
Fixpoint fold_left_ops (expr : Expr) (lst : list (string * Expr)) : Expr :=
  match lst with
  | [] => expr
  | (op, e) :: lst' => fold_left_ops (EOp op [expr; e]) lst'
  end.

Fixpoint fold_right_ops (lhs : Expr) (lst : list (string * Expr)) : Expr :=
  match lst with
  | [] => lhs
  | (op, e) :: lst' => EOp op [lhs; fold_right_ops e lst']
  end.

Definition parseEx (names : list string) (f1 : parser Expr)
    (f2 : parser (list (string * Expr))) (right : bool) : parser Expr :=
  ok ← lxin names;
  if negb ok then error else
  lhs ← f1;
  lst ← f2;
  match lst with
  | [] => ret lhs
  | _ => if right then ret (fold_right_ops lhs lst)
         else ret (fold_left_ops lhs lst)
  end.

Fixpoint parseEx_ (fuel : nat) (names skips : list string) (f1 : parser Expr)
    : parser (list (string * Expr)) :=
  match fuel with
  | O => fun _ => PFuel
  | S fuel' =>
      ok ← lxin names;
      if ok then
        c ← get_cur;
        next;;
        lhs ← f1;
        lst ← parseEx_ fuel' names skips f1;
        ret ((lx_name c, lhs) :: lst)
      else
        skip ← lxin skips;
        if skip then ret [] else error
  end.

(** [parseE5_] returns ['!'] or [None]. *)
Fixpoint parseE5_ (fuel : nat) : parser (option string) :=
  match fuel with
  | O => fun _ => PFuel
  | S fuel' =>
      bang ← lxin ["!"];
      if bang then
        next;;
        r ← parseE5_ fuel';
        match r with
        | None => ret (Some "!")
        | Some _ => ret None
        end
      else
        skip ← lxin ["^"; "$"; "*"; "/"; "//"; "%"; "+"; "-"; ")"; "|"; ","];
        if skip then ret None else error
  end.

Definition first_E1 : list string := ["num"; "id"; "("; "|"; "-"].
Definition first_E4 : list string := ["num"; "id"; "("; "|"].

Fixpoint parseE1 (fuel : nat) : parser Expr :=
  match fuel with
  | O => fun _ => PFuel
  | S n => parseEx first_E1 (parseE2 n) (parseE1_ n) false
  end
with parseE2 (fuel : nat) : parser Expr :=
  match fuel with
  | O => fun _ => PFuel
  | S n => parseEx first_E1 (parseE3 n) (parseE2_ n) false
  end
with parseE3 (fuel : nat) : parser Expr :=
  match fuel with
  | O => fun _ => PFuel
  | S n =>
      minus ← lxin ["-"];
      if minus then
        next;;
        expr ← parseE3 n;
        ret (EOp "-" [expr])
      else
        atom ← lxin first_E4;
        if atom then parseE4 n else error
  end
with parseE4 (fuel : nat) : parser Expr :=
  match fuel with
  | O => fun _ => PFuel
  | S n => parseEx first_E4 (parseE5 n) (parseE4_ n) true
  end
with parseE5 (fuel : nat) : parser Expr :=
  match fuel with
  | O => fun _ => PFuel
  | S n =>
      atom ← lxin first_E4;
      if atom then
        expr ← parseE6 n;
        r ← parseE5_ n;
        match r with
        | None => ret expr
        | Some _ => ret (EOp "!" [expr])
        end
      else error
  end
with parseE6 (fuel : nat) : parser Expr :=
  match fuel with
  | O => fun _ => PFuel
  | S n =>
      c ← get_cur;
      if String.eqb (lx_name c) "num" then
        next;;
        ret (ENum (data_of c))
      else if String.eqb (lx_name c) "id" then
        next;;
        a ← parseA n;
        match a with
        | None => ret (EId (data_of c))
        | Some a => ret (EApply (data_of c) a)
        end
      else if String.eqb (lx_name c) "(" then
        next;;
        e1 ← parseE1 n;
        close ← lxin [")"];
        if close then next;; ret e1 else error
      else if String.eqb (lx_name c) "|" then
        next;;
        e1 ← parseE1 n;
        close ← lxin ["|"];
        if close then next;; ret (EOp "abs" [e1]) else error
      else fun _ => PNoValue
  end
with parseA (fuel : nat) : parser (option (list Expr)) :=
  match fuel with
  | O => fun _ => PFuel
  | S n =>
      open ← lxin ["("];
      if open then
        next;;
        ll ← parseL n;
        close ← lxin [")"];
        if close then next;; ret (Some ll) else error
      else
        skip ← lxin ["!"; "$"; "^"; "*"; "/"; "//"; "%"; "+"; "-"; ")"; "|"; ","];
        if skip then ret None else error
  end
with parseL (fuel : nat) : parser (list Expr) :=
  match fuel with
  | O => fun _ => PFuel
  | S n =>
      ok ← lxin first_E1;
      if ok then
        e1 ← parseE1 n;
        l_ ← parseL_ n;
        match l_ with
        | None => ret [e1]
        | Some l_ => ret ([e1] ++ l_)%list
        end
      else error
  end
with parseL_ (fuel : nat) : parser (option (list Expr)) :=
  match fuel with
  | O => fun _ => PFuel
  | S n =>
      comma ← lxin [","];
      if comma then
        next;;
        e1 ← parseE1 n;
        l_ ← parseL_ n;
        match l_ with
        | None => ret (Some [e1])
        | Some l_ => ret (Some ([e1] ++ l_)%list)
        end
      else
        close ← lxin [")"];
        if close then ret None else error
  end
with parseE1_ (fuel : nat) : parser (list (string * Expr)) :=
  match fuel with
  | O => fun _ => PFuel
  | S n => parseEx_ n ["+"; "-"] [")"; "|"; ","; "$"] (parseE2 n)
  end
with parseE2_ (fuel : nat) : parser (list (string * Expr)) :=
  match fuel with
  | O => fun _ => PFuel
  | S n =>
      parseEx_ n ["*"; "/"; "//"; "%"] ["+"; "-"; "$"; ")"; "|"; ","] (parseE3 n)
  end
with parseE4_ (fuel : nat) : parser (list (string * Expr)) :=
  match fuel with
  | O => fun _ => PFuel
  | S n =>
      parseEx_ n ["^"] ["*"; "/"; "//"; "%"; "$"; "+"; "-"; ")"; "|"; ","]
        (parseE5 n)
  end.

Definition parseP (fuel : nat) : parser Expr :=
  ok ← lxin first_E1;
  if negb ok then error else parseE1 fuel.

(** The recursion budget for a token list: every nested method call costs
    one unit, and the budget is never spent ([parse_total] below).  The
    interpreter's own recursion limit, which the methods reach on an
    input nested some hundred levels deep (a [RuntimeError], neither a
    tree nor a parse error), is not modelled: what is stated of the trees
    [parse] returns and of the errors it raises is stated of the runs
    that end below that limit. *)
Definition budget (toks : list Lexeme) : nat := 16 * length toks + 16.

(** How [Parser2(data).parse()] ends, with the state it leaves behind. *)
Inductive outcome : Type :=
| Parsed (e : Expr) (st : pstate)
| ParseError (tok : Lexeme)
| LexError
| NoValue
| OutOfFuel.

Definition parse_state (data : string) : outcome :=
  match Lexer.lex data with
  | Some (t :: r) =>
      match parseP (budget (t :: r)) (mkState t r) with
      | POk e st => Parsed e st
      | PError tok => ParseError tok
      | PNoValue => NoValue
      | PFuel => OutOfFuel
      end
  | Some [] => OutOfFuel
  | None => LexError
  end.

(** What [parse] returns: the expression, when there is one. *)
Definition parse (data : string) : option Expr :=
  match parse_state data with
  | Parsed e _ => Some e
  | _ => None
  end.

End Parser2.


(** ** Python 2 numbers and their operations *)

Module Py.

(** A number: [int]/[long], [float] or [complex]. *)
Inductive value : Type :=
| VInt (n : Z)
| VFloat (x : float)
| VComplex (re im : float).

(** The exceptions the numeric operations raise, and [KeyError] of the
    dictionary lookup. *)
Inductive num_error : Type :=
| ZeroDivisionError
| ValueError
| OverflowError
| TypeError.

Inductive exn : Type :=
| KeyError (key : string)
| NumError (e : num_error).

(** What the host answers when asked for an operation that this file does
    not compute (the C library's [pow], [fmod], [sin], ..., and complex
    arithmetic): a number, or one of the numeric exceptions. *)
Inductive answer : Type :=
| Returns (v : value)
| Throws (e : num_error).

(** A computation: it returns, raises, or asks the host for operation
    [name] on [args] and goes on with the answer. *)
Inductive comp (A : Type) : Type :=
| Ret (a : A)
| Raise (e : exn)
| Host (name : string) (args : list value) (k : answer -> comp A).
Arguments Ret {A} a.
Arguments Raise {A} e.
Arguments Host {A} name args k.

Fixpoint bind {A B} (m : comp A) (k : A -> comp B) : comp B :=
  match m with
  | Ret a => k a
  | Raise e => Raise e
  | Host name args h => Host name args (fun r => bind (h r) k)
  end.

Declare Scope comp_scope.
Delimit Scope comp_scope with comp.
Notation "x ← y ; z" := (bind y (fun x => z))
  (at level 20, y at level 100, z at level 200, only parsing) : comp_scope.
#[local] Open Scope comp_scope.

Definition raise {A} (e : num_error) : comp A := Raise (NumError e).

Definition host (name : string) (args : list value) : comp value :=
  Host name args (fun r =>
    match r with
    | Returns v => Ret v
    | Throws e => raise e
    end).

(** [returns m a]: for some answers of the host, [m] returns [a];
    [raises m e] likewise. *)
Inductive returns {A} : comp A -> A -> Prop :=
| returns_ret a : returns (Ret a) a
| returns_host name args k r a : returns (k r) a -> returns (Host name args k) a.

Inductive raises {A} : comp A -> exn -> Prop :=
| raises_raise e : raises (Raise e) e
| raises_host name args k r e : raises (k r) e -> raises (Host name args k) e.

(** *** Conversions *)

(** [int] to [float]: the nearest binary64, ties to even;
    [OverflowError] when that is not finite. *)
Definition float_of_Z (n : Z) : float :=
  SF2Prim (binary_normalize prec emax n 0 false).

Definition int_to_float (n : Z) : comp float :=
  let x := float_of_Z n in
  if PrimFloat.is_infinity x then raise OverflowError else Ret x.

(** The coercion of the operand of a float operation. *)
Definition as_float (v : value) : comp float :=
  match v with
  | VInt n => int_to_float n
  | VFloat x => Ret x
  | VComplex _ _ => raise TypeError
  end.

(** The integer a float is equal to, if it is one (finite and without a
    fractional part). *)
Definition float_integral (x : float) : option Z :=
  match Prim2SF x with
  | S754_zero _ => Some 0
  | S754_finite s m e =>
      let m := if s then Z.neg m else Z.pos m in
      if 0 <=? e then Some (m * 2 ^ e)
      else if m mod 2 ^ (- e) =? 0 then Some (m / 2 ^ (- e))
      else None
  | _ => None
  end.

(** The exact order between an [int] and a [float], as the comparison of
    mixed operands computes it; [None] when the float is a NaN. *)
Definition compare_Z_float (n : Z) (x : float) : option comparison :=
  match Prim2SF x with
  | S754_nan => None
  | S754_infinity s => Some (if s then Gt else Lt)
  | S754_zero _ => Some (n ?= 0)
  | S754_finite s m e =>
      let m := if s then Z.neg m else Z.pos m in
      if 0 <=? e then Some (n ?= m * 2 ^ e)
      else Some (n * 2 ^ (- e) ?= m)
  end.

(** *** Literals: [int(text)] and [float(text)]

    Both are modelled on the texts of the lexer's number token: decimal
    digits, and for [float] digits around one dot.  [None] is the
    [ValueError] of an invalid literal. *)
Definition digit_value (c : ascii) : Z := Z.of_nat (nat_of_ascii c) - 48.

Fixpoint digits_value (acc : Z) (s : string) : option Z :=
  match s with
  | EmptyString => Some acc
  | String c s' =>
      if Char.isdigit c then digits_value (10 * acc + digit_value c) s'
      else None
  end.

Definition py_int (text : string) : option Z :=
  match text with
  | EmptyString => None
  | _ => digits_value 0 text
  end.

Fixpoint contains (c : ascii) (s : string) : bool :=
  match s with
  | EmptyString => false
  | String d s' => Ascii.eqb c d || contains c s'
  end.

(** [float] of [ip.fp]: the decimal [ipfp / 10^len(fp)], correctly
    rounded by one division of the two integers. *)
Definition py_float (text : string) : option float :=
  let n := Lexer.count_while (fun c => negb (Ascii.eqb c ".")) text in
  let ip := Lexer.slice text 0 n in
  let fp := Lexer.drop (n + 1) text in
  if (String.length ip + String.length fp =? 0)%nat then None
  else
    match digits_value 0 (ip ++ fp) with
    | Some (Z.pos m) =>
        Some (SF2Prim (SFdiv prec emax (S754_finite false m 0)
                (S754_finite false (Z.to_pos (10 ^ Z.of_nat (String.length fp))) 0)))
    | Some _ => Some 0%float
    | None => None
    end.

(** *** Arithmetic

    Two [int]s are combined exactly.  If an operand is [complex] the
    operation is the host's.  Otherwise the operands are coerced to
    [float]. *)
Definition is_complex (v : value) : bool :=
  match v with VComplex _ _ => true | _ => false end.

Definition arith (name : string) (on_int : Z -> Z -> comp value)
    (on_float : float -> float -> comp value) (a b : value) : comp value :=
  match a, b with
  | VInt x, VInt y => on_int x y
  | _, _ =>
      if is_complex a || is_complex b then host ("complex." ++ name) [a; b]
      else x ← as_float a; y ← as_float b; on_float x y
  end.

(** [a + b], [a - b], [a * b] *)
Definition py_add : value -> value -> comp value :=
  arith "__add__" (fun x y => Ret (VInt (x + y)))
    (fun x y => Ret (VFloat (x + y))).

Definition py_sub : value -> value -> comp value :=
  arith "__sub__" (fun x y => Ret (VInt (x - y)))
    (fun x y => Ret (VFloat (x - y))).

Definition py_mul : value -> value -> comp value :=
  arith "__mul__" (fun x y => Ret (VInt (x * y)))
    (fun x y => Ret (VFloat (x * y))).

(** [a / b] without [from __future__ import division]: classic division,
    which floors on two [int]s and is IEEE division on [float]s. *)
Definition py_div : value -> value -> comp value :=
  arith "__div__"
    (fun x y => if y =? 0 then raise ZeroDivisionError else Ret (VInt (x / y)))
    (fun x y => if PrimFloat.is_zero y then raise ZeroDivisionError
                else Ret (VFloat (x / y))).

(** [a % b] *)
Definition py_mod : value -> value -> comp value :=
  arith "__mod__"
    (fun x y => if y =? 0 then raise ZeroDivisionError else Ret (VInt (x mod y)))
    (fun x y => if PrimFloat.is_zero y then raise ZeroDivisionError
                else host "float.__mod__" [VFloat x; VFloat y]).

(** [a // b] *)
Definition py_floordiv : value -> value -> comp value :=
  arith "__floordiv__"
    (fun x y => if y =? 0 then raise ZeroDivisionError else Ret (VInt (x / y)))
    (fun x y => if PrimFloat.is_zero y then raise ZeroDivisionError
                else host "float.__floordiv__" [VFloat x; VFloat y]).

(** [a ** b]: exact for an [int] to a non-negative [int] power; an [int]
    to a negative power is the float power of the coerced operands. *)
Definition float_pow (x y : float) : comp value :=
  host "float.__pow__" [VFloat x; VFloat y].

Definition py_pow : value -> value -> comp value :=
  arith "__pow__"
    (fun x y =>
       if 0 <=? y then Ret (VInt (x ^ y))
       else a ← int_to_float x; b ← int_to_float y; float_pow a b)
    float_pow.

(** [-a] *)
Definition py_neg (a : value) : comp value :=
  match a with
  | VInt n => Ret (VInt (- n))
  | VFloat x => Ret (VFloat (- x))
  | VComplex re im => Ret (VComplex (- re) (- im))
  end.

(** [abs(a)] *)
Definition py_abs (a : value) : comp value :=
  match a with
  | VInt n => Ret (VInt (Z.abs n))
  | VFloat x => Ret (VFloat (PrimFloat.abs x))
  | VComplex _ _ => host "complex.__abs__" [a]
  end.

(** [math.factorial(a)].  The argument is read as a C [long] (of 64 bits,
    as on an LP64 host), which overflows outside its range; a float must
    be equal to an integer. *)
Definition long_max : Z := 2 ^ 63 - 1.
Definition long_min : Z := - 2 ^ 63.

Fixpoint fact (n : nat) : Z :=
  match n with
  | O => 1
  | S k => Z.of_nat n * fact k
  end.

Definition factorial_of_int (n : Z) : comp value :=
  if (long_max <? n) || (n <? long_min) then raise OverflowError
  else if n <? 0 then raise ValueError
  else Ret (VInt (fact (Z.to_nat n))).

Definition math_factorial (a : value) : comp value :=
  match a with
  | VInt n => factorial_of_int n
  | VFloat x =>
      match float_integral x with
      | Some n => factorial_of_int n
      | None => raise ValueError
      end
  | VComplex _ _ => raise TypeError
  end.

(** The functions of the [math] module that go through the C library,
    and the builtin [round]: the host's. *)
Definition math_ceil (a : value) : comp value := host "math.ceil" [a].
Definition math_cos (a : value) : comp value := host "math.cos" [a].
Definition math_degrees (a : value) : comp value := host "math.degrees" [a].
Definition math_floor (a : value) : comp value := host "math.floor" [a].
Definition math_log (a : value) : comp value := host "math.log" [a].
Definition math_log_base (a b : value) : comp value := host "math.log" [a; b].
Definition math_log10 (a : value) : comp value := host "math.log10" [a].
Definition math_radians (a : value) : comp value := host "math.radians" [a].
Definition math_sin (a : value) : comp value := host "math.sin" [a].
Definition math_tan (a : value) : comp value := host "math.tan" [a].
Definition py_round (a : value) : comp value := host "round" [a].

(** The constants [math.e], [math.pi] and [1j]. *)
Definition math_e : value := VFloat 0x1.5bf0a8b145769p+1.
Definition math_pi : value := VFloat 0x1.921fb54442d18p+1.
Definition imaginary_unit : value := VComplex 0 1.

(** *** [min]

    [a < b]: exact on [int]s and between an [int] and a [float], IEEE on
    [float]s (false with a NaN); [complex] numbers have no order. *)
Definition is_lt (c : option comparison) : bool :=
  match c with Some Lt => true | _ => false end.

Definition is_gt (c : option comparison) : bool :=
  match c with Some Gt => true | _ => false end.

Definition py_lt (a b : value) : comp bool :=
  match a, b with
  | VInt x, VInt y => Ret (x <? y)
  | VFloat x, VFloat y => Ret (PrimFloat.ltb x y)
  | VInt x, VFloat y => Ret (is_lt (compare_Z_float x y))
  | VFloat x, VInt y => Ret (is_gt (compare_Z_float y x))
  | _, _ => raise TypeError
  end.

(** The scan of [min]: [best] is replaced by each later item that is
    less than it. *)
Fixpoint min_from (best : value) (items : list value) : comp value :=
  match items with
  | [] => Ret best
  | item :: items' =>
      less ← py_lt item best;
      min_from (if less then item else best) items'
  end.

(** [min(items)]: [ValueError] on an empty list. *)
Definition py_min (items : list value) : comp value :=
  match items with
  | [] => raise ValueError
  | item :: items' => min_from item items'
  end.

End Py.
Import Py.

(** ** Code generation and evaluation *)

(** The dictionary handed to [run]. *)
Definition env : Type := gmap string value.

(** [Code(f, names)] *)
Record Code := mkCode {
  f : env -> comp value;
  names : list string
}.

(** How [Code.gen] fails: the two exceptions it raises itself
    (["function %r is not defined"], ["can't handle %r"]), the [IndexError]
    of [e.args[k]] on a node with too few operands, and the [ValueError] of
    [int(text)] or [float(text)]. *)
Inductive gen_error : Type :=
| NotDefined (fn : string)
| CantHandle (e : Expr)
| IndexError
| InvalidLiteral (text : string).

Inductive result (A : Type) : Type :=
| Ok (a : A)
| Err (e : gen_error).
Arguments Ok {A} a.
Arguments Err {A} e.

Module Code.

(** [c.run(kw)] *)
Definition run (c : Code) (kw : env) : comp value := f c kw.

(** [kw[s]] *)
Definition getitem (kw : env) (s : string) : comp value :=
  match kw !! s with
  | Some v => Ret v
  | None => Raise (KeyError s)
  end.

(** [[a.run(kw) for a in args]] *)
Fixpoint run_all (args : list Code) (kw : env) : comp (list value) :=
  match args with
  | [] => Ret []
  | a :: args' =>
      (v ← run a kw; vs ← run_all args' kw; Ret (v :: vs))%comp
  end.

(** The shapes of the objects [gen] builds:
    [cls(lambda kw: v, [])], [cls(lambda kw: kw[s], [s])],
    [cls(lambda kw: op(lhs.run(kw)), lhs.names)],
    [cls(lambda kw: op(lhs.run(kw), rhs.run(kw)), lhs.names + rhs.names)]
    and [cls(lambda kw: op([a.run(kw) for a in args]), names)] with the
    [names] of the [args] appended in order. *)
Definition constant (v : value) : Code := mkCode (fun _ => Ret v) [].

Definition variable (s : string) : Code := mkCode (fun kw => getitem kw s) [s].

Definition unary (op : value -> comp value) (lhs : Code) : Code :=
  mkCode (fun kw => (a ← run lhs kw; op a)%comp) (names lhs).

Definition binary (op : value -> value -> comp value) (lhs rhs : Code) : Code :=
  mkCode (fun kw => (a ← run lhs kw; b ← run rhs kw; op a b)%comp)
    (names lhs ++ names rhs)%list.

Definition nary (op : list value -> comp value) (args : list Code) : Code :=
  mkCode (fun kw => (vs ← run_all args kw; op vs)%comp)
    (concat (names <$> args)).

Definition bind {A B} (m : result A) (k : A -> result B) : result B :=
  match m with
  | Ok a => k a
  | Err e => Err e
  end.

Declare Scope result_scope.
Delimit Scope result_scope with result.
Notation "x ← y ; z" := (bind y (fun x => z))
  (at level 20, y at level 100, z at level 200, only parsing) : result_scope.
#[local] Open Scope result_scope.

Definition of_option {A} (text : string) (o : option A) : result A :=
  match o with
  | Some a => Ok a
  | None => Err (InvalidLiteral text)
  end.

(** [Code.gen(e)].  [arg0] and [arg1] are [Code.gen(e.args[0])] and
    [Code.gen(e.args[1])] of an operator node; [first] is
    [Code.gen(e.args[1])] of an application, whose [e.args[0]] is the
    function name; [all] is [[Code.gen(arg) for arg in e.args[1:]]]. *)
Fixpoint gen (e : Expr) : result Code :=
  match e with
  | ENum text =>
      if contains "." text then
        n ← of_option text (py_float text); Ok (constant (VFloat n))
      else
        n ← of_option text (py_int text); Ok (constant (VInt n))
  | EId s =>
      if String.eqb s "e" then Ok (constant math_e)
      else if String.eqb s "pi" then Ok (constant math_pi)
      else if String.eqb s "i" then Ok (constant imaginary_unit)
      else Ok (variable s)
  | EOp op args =>
      let arg0 := match args with a :: _ => gen a | _ => Err IndexError end in
      let arg1 := match args with _ :: a :: _ => gen a | _ => Err IndexError end in
      if String.eqb op "+" then
        lhs ← arg0; rhs ← arg1; Ok (binary py_add lhs rhs)
      else if String.eqb op "-" then
        lhs ← arg0;
        if (length args =? 1)%nat then Ok (unary py_neg lhs)
        else rhs ← arg1; Ok (binary py_sub lhs rhs)
      else if String.eqb op "*" then
        lhs ← arg0; rhs ← arg1; Ok (binary py_mul lhs rhs)
      else if String.eqb op "/" then
        lhs ← arg0; rhs ← arg1; Ok (binary py_div lhs rhs)
      else if String.eqb op "%" then
        lhs ← arg0; rhs ← arg1; Ok (binary py_mod lhs rhs)
      else if String.eqb op "//" then
        lhs ← arg0; rhs ← arg1; Ok (binary py_floordiv lhs rhs)
      else if String.eqb op "^" then
        lhs ← arg0; rhs ← arg1; Ok (binary py_pow lhs rhs)
      else if String.eqb op "!" then
        lhs ← arg0; Ok (unary math_factorial lhs)
      else if String.eqb op "abs" then
        lhs ← arg0; Ok (unary py_abs lhs)
      else Err (CantHandle e)
  | EApply fn args =>
      let first := match args with a :: _ => gen a | _ => Err IndexError end in
      let all :=
        (fix gen_all (l : list Expr) : result (list Code) :=
           match l with
           | [] => Ok []
           | a :: l' => c ← gen a; cs ← gen_all l'; Ok (c :: cs)
           end) args in
      if String.eqb fn "abs" then
        lhs ← first; Ok (unary py_abs lhs)
      else if String.eqb fn "ceil" then
        lhs ← first; Ok (unary math_ceil lhs)
      else if String.eqb fn "cos" then
        lhs ← first; Ok (unary math_cos lhs)
      else if String.eqb fn "degrees" then
        lhs ← first; Ok (unary math_degrees lhs)
      else if String.eqb fn "floor" then
        lhs ← first; Ok (unary math_floor lhs)
      else if String.eqb fn "log" then
        lhs ← first; Ok (unary math_log lhs)
      else if String.eqb fn "log10" then
        lhs ← first; Ok (unary math_log10 lhs)
      else if String.eqb fn "log2" then
        lhs ← first; Ok (unary (fun a => math_log_base a (VInt 2)) lhs)
      else if String.eqb fn "max" then
        args ← all; Ok (nary py_min args)
      else if String.eqb fn "min" then
        args ← all; Ok (nary py_min args)
      else if String.eqb fn "radians" then
        lhs ← first; Ok (unary math_radians lhs)
      else if String.eqb fn "round" then
        lhs ← first; Ok (unary py_round lhs)
      else if String.eqb fn "sin" then
        lhs ← first; Ok (unary math_sin lhs)
      else if String.eqb fn "tan" then
        lhs ← first; Ok (unary math_tan lhs)
      else Err (NotDefined fn)
  end.

(** [[Code.gen(arg) for arg in l]] *)
Fixpoint gen_all (l : list Expr) : result (list Code) :=
  match l with
  | [] => Ok []
  | a :: l' => c ← gen a; cs ← gen_all l'; Ok (c :: cs)
  end.

End Code.

(** ** The program's main path: parse, generate, run *)

Inductive calc_outcome : Type :=
| NotParsed
| NotCompiled (e : gen_error)
| Ran (r : comp value).

Definition compile (data : string) : option (result Code) :=
  Code.gen <$> Parser2.parse data.

Definition calc (data : string) (kw : env) : calc_outcome :=
  match Parser2.parse data with
  | None => NotParsed
  | Some e =>
      match Code.gen e with
      | Err err => NotCompiled err
      | Ok c => Ran (Code.run c kw)
      end
  end.

Definition names_of (data : string) : option (list string) :=
  match compile data with
  | Some (Ok c) => Some (names c)
  | _ => None
  end.


(** * Vocabulary of the properties

    What the statements below are written with: the tables of operators
    and builtins, the objects [gen] builds, the operands it compiles, the
    trees of the grammar, and the measures of the parser's progress. *)

(** A computation is _numeric_ when the only exceptions it can raise are
    the numeric ones: it never raises a [KeyError]. *)
Definition numeric {A} (m : comp A) : Prop :=
  forall key, ~ raises m (KeyError key).

(** The names that [gen] compiles to a constant. *)
Definition is_constant (s : string) : bool :=
  String.eqb s "e" || String.eqb s "pi" || String.eqb s "i".

(** The fixed set of builtin functions, from the header of the file. *)
Definition builtins : list string :=
  ["abs"; "ceil"; "cos"; "degrees"; "floor"; "log"; "log10"; "log2";
   "max"; "min"; "radians"; "round"; "sin"; "tan"].

(** The function a builtin other than [max] and [min] stands for. *)
Definition function_of (fn : string) : option (value -> comp value) :=
  if String.eqb fn "abs" then Some py_abs
  else if String.eqb fn "ceil" then Some math_ceil
  else if String.eqb fn "cos" then Some math_cos
  else if String.eqb fn "degrees" then Some math_degrees
  else if String.eqb fn "floor" then Some math_floor
  else if String.eqb fn "log" then Some math_log
  else if String.eqb fn "log10" then Some math_log10
  else if String.eqb fn "log2" then Some (fun a => math_log_base a (VInt 2))
  else if String.eqb fn "radians" then Some math_radians
  else if String.eqb fn "round" then Some py_round
  else if String.eqb fn "sin" then Some math_sin
  else if String.eqb fn "tan" then Some math_tan
  else None.

(** [max] and [min], the builtins of any number of arguments. *)
Definition is_minmax (fn : string) : bool :=
  String.eqb fn "max" || String.eqb fn "min".

(** The objects [gen] builds: constants, lookups of names that are not
    constants, and numeric operations on such objects. *)
#[warnings="-register-all"]
Inductive generated : Code -> Prop :=
| g_constant v : generated (Code.constant v)
| g_variable s : is_constant s = false -> generated (Code.variable s)
| g_unary op lhs :
    (forall a, numeric (op a)) -> generated lhs -> generated (Code.unary op lhs)
| g_binary op lhs rhs :
    (forall a b, numeric (op a b)) -> generated lhs -> generated rhs ->
    generated (Code.binary op lhs rhs)
| g_nary op args :
    (forall vs, numeric (op vs)) -> Forall generated args ->
    generated (Code.nary op args).

(** The operators of two operands, apart from ['-'], which is unary or
    binary by the number of its operands. *)
Definition binary_of (op : string) : option (value -> value -> comp value) :=
  if String.eqb op "+" then Some py_add
  else if String.eqb op "*" then Some py_mul
  else if String.eqb op "/" then Some py_div
  else if String.eqb op "%" then Some py_mod
  else if String.eqb op "//" then Some py_floordiv
  else if String.eqb op "^" then Some py_pow
  else None.

(** The operators of one operand, apart from the unary ['-']. *)
Definition unary_of (op : string) : option (value -> comp value) :=
  if String.eqb op "!" then Some math_factorial
  else if String.eqb op "abs" then Some py_abs
  else None.

(** [Code.gen(e.args[0])] and [Code.gen(e.args[1])] of an operator node. *)
Definition arg0 (args : list Expr) : result Code :=
  match args with a :: _ => Code.gen a | [] => Err IndexError end.

Definition arg1 (args : list Expr) : result Code :=
  match args with _ :: a :: _ => Code.gen a | _ => Err IndexError end.

(** What a successful [gen] of a node was built from. *)
Inductive gen_shape (e : Expr) (c : Code) : Prop :=
| shape_constant v :
    (exists text, e = ENum text) \/ (exists s, e = EId s /\ is_constant s = true) ->
    c = Code.constant v -> gen_shape e c
| shape_variable s :
    e = EId s -> is_constant s = false -> c = Code.variable s -> gen_shape e c
| shape_unary prim a rest lhs :
    (exists op, e = EOp op (a :: rest) /\
       (unary_of op = Some prim \/ op = "-" /\ rest = [] /\ prim = py_neg)) \/
    (exists fn, e = EApply fn (a :: rest) /\ function_of fn = Some prim) ->
    (forall v, numeric (prim v)) ->
    Code.gen a = Ok lhs -> c = Code.unary prim lhs -> gen_shape e c
| shape_binary op prim a b rest lhs rhs :
    e = EOp op (a :: b :: rest) ->
    binary_of op = Some prim \/ op = "-" /\ prim = py_sub ->
    (forall v w, numeric (prim v w)) ->
    Code.gen a = Ok lhs -> Code.gen b = Ok rhs ->
    c = Code.binary prim lhs rhs -> gen_shape e c
| shape_minmax fn args cs :
    e = EApply fn args -> is_minmax fn = true ->
    Code.gen_all args = Ok cs -> c = Code.nary py_min cs -> gen_shape e c.

(** A lookup error of generated code names a free name that the
    environment lacks; and with such a name, no value is returned. *)
Definition lookup_sound (c : Code) : Prop :=
  forall kw : env,
    (forall key, raises (Code.run c kw) (KeyError key) ->
       In key (names c) /\ kw !! key = None) /\
    (forall s, In s (names c) -> kw !! s = None ->
       forall v, ~ returns (Code.run c kw) v).

(** [agree ns kw kw']: the two environments bind the names [ns] alike. *)
Definition agree (ns : list string) (kw kw' : env) : Prop :=
  forall s, In s ns -> kw' !! s = kw !! s.

(** [first_missing kw ns pre key]: in the list [ns], the name [key] is the
    first one that the environment lacks, and [pre] are the names before
    it. *)
Definition first_missing (kw : env) (ns pre : list string) (key : string) : Prop :=
  (exists post, ns = pre ++ key :: post)%list /\
  (forall s, In s pre -> is_Some (kw !! s)) /\
  kw !! key = None.

(** [reads ns m]: the computation [m] of an environment looks up the names
    [ns], in this order, and reads nothing else of the environment.  It
    depends on the bindings of [ns] only; a lookup error names one of
    [ns] that the environment lacks, and with such a name no value is
    returned; and when [key] is the first of [ns] that the environment
    lacks, what is raised is the lookup error of [key] or a numeric error
    that is raised whatever the bindings of [key] and of the names after
    it, and the lookup error of [key] is raised whenever binding these
    names makes [m] return. *)
Definition reads {A} (ns : list string) (m : env -> comp A) : Prop :=
  (forall kw kw', agree ns kw kw' -> m kw' = m kw) /\
  (forall kw key, raises (m kw) (KeyError key) -> In key ns /\ kw !! key = None) /\
  (forall kw s, In s ns -> kw !! s = None -> forall v, ~ returns (m kw) v) /\
  (forall kw kw' pre key,
     first_missing kw ns pre key -> agree pre kw kw' ->
     (forall x, raises (m kw) x ->
        x = KeyError key \/
        exists err, x = NumError err /\ raises (m kw') (NumError err)) /\
     (forall v, returns (m kw') v -> raises (m kw) (KeyError key))).

(** Is the number a [float]? *)
Definition is_float (v : value) : bool :=
  match v with VFloat _ => true | _ => false end.

(** The lexemes at which [parseE5_] returns without consuming: the follow
    set of [E5_] in the grammar. *)
Definition follow_E5 : list string :=
  ["^"; "$"; "*"; "/"; "//"; "%"; "+"; "-"; ")"; "|"; ","].

(** The function names applied anywhere in an expression. *)
Fixpoint applied (e : Expr) : list string :=
  match e with
  | ENum _ | EId _ => []
  | EApply fn args => fn :: flat_map applied args
  | EOp _ args => flat_map applied args
  end.

(** The operands of a node that [gen] compiles, in the order it compiles
    them: the operand of ['!'] and ['abs'], the one or two operands of the
    other operators, every argument of [max] and [min], and the first
    argument only of any other function. *)
Definition compiled_children (e : Expr) : list Expr :=
  match e with
  | ENum _ | EId _ => []
  | EOp op args =>
      match unary_of op with
      | Some _ => take 1 args
      | None => take 2 args
      end
  | EApply fn args => if is_minmax fn then args else take 1 args
  end.

(** The first application of a name that is not a builtin which [gen]
    meets on its way through the compiled operands. *)
Fixpoint first_undefined (e : Expr) : option string :=
  match e with
  | ENum _ | EId _ => None
  | EOp op args =>
      match args with
      | [] => None
      | a :: rest =>
          match unary_of op, first_undefined a, rest with
          | Some _, r, _ => r
          | None, Some fn, _ => Some fn
          | None, None, b :: _ => first_undefined b
          | None, None, [] => None
          end
      end
  | EApply fn args =>
      if is_minmax fn then
        (fix first (l : list Expr) : option string :=
           match l with
           | [] => None
           | a :: l' =>
               match first_undefined a with
               | Some fn => Some fn
               | None => first l'
               end
           end) args
      else
        match function_of fn, args with
        | Some _, a :: _ => first_undefined a
        | Some _, [] => None
        | None, _ => Some fn
        end
  end.

(** Is the text of a number one that [int] or [float] converts? *)
Definition literal_ok (text : string) : bool :=
  if contains "." text then bool_decide (is_Some (py_float text))
  else bool_decide (is_Some (py_int text)).

(** Has an operator node of [n] operands the operands of its operator? *)
Definition arity_ok (op : string) (n : nat) : bool :=
  match unary_of op, binary_of op with
  | Some _, _ => (n =? 1)%nat
  | None, Some _ => (n =? 2)%nat
  | None, None => String.eqb op "-" && ((n =? 1)%nat || (n =? 2)%nat)
  end.

(** The trees of the grammar: a number is a literal, an operator has its
    operands (one for ['!'], ['abs'] and the unary minus, two otherwise)
    and an application has at least one argument. *)
Fixpoint well_formed (e : Expr) : bool :=
  match e with
  | ENum text => literal_ok text
  | EId _ => true
  | EOp op args => arity_ok op (length args) && forallb well_formed args
  | EApply _ args => negb (length args =? 0)%nat && forallb well_formed args
  end.

(** [first_undefined] over the arguments of [max] and [min]. *)
Fixpoint first_undefined_all (l : list Expr) : option string :=
  match l with
  | [] => None
  | a :: l' =>
      match first_undefined a with
      | Some fn => Some fn
      | None => first_undefined_all l'
      end
  end.

(** What [gen] does on a tree of the grammar, by [first_undefined]. *)
Definition undefined_or_compiled (e : Expr) : Prop :=
  match first_undefined e with
  | Some fn => Code.gen e = Err (NotDefined fn)
  | None => exists c, Code.gen e = Ok c
  end.

(** The name a leaf contributes to the free names: its own, unless it is
    a number or a constant. *)
Definition own_names (e : Expr) : list string :=
  match e with
  | EId s => if is_constant s then [] else [s]
  | _ => []
  end.

(** The last lexeme is the end marker. *)
Definition ends_with_marker (toks : list Lexeme) : Prop :=
  exists front eof, toks = (front ++ [eof])%list /\ lx_name eof = "$" /\ lx_data eof = None.

(** The number of lexemes the parser can still consume. *)
Definition size (st : Parser2.pstate) : nat :=
  length (Parser2.rest st) +
  (if String.eqb (lx_name (Parser2.cur st)) "$" then 0 else 1).

(** [ends bound r]: the method ended by returning or by a parse error and,
    if it returned, left fewer than [bound] lexemes. *)
Definition ends {A} (bound : nat) (r : Parser2.presult A) : Prop :=
  match r with
  | Parser2.POk _ st' => (size st' < bound)%nat
  | Parser2.PError _ => True
  | Parser2.PNoValue => False
  | Parser2.PFuel => False
  end.

(** With [16 * size st + rank] units of budget, a method ends: an
    expression method having consumed a lexeme, a tail method maybe none.
    [parseE6] is called at the start of an atom only. *)
Definition safe {A} (bound : nat -> nat) (rank : nat) (p : nat -> Parser2.parser A)
    (n : nat) : Prop :=
  forall st, (16 * size st + rank <= n)%nat -> ends (bound (size st)) (p n st).

(** The lookahead starts an atom. *)
Definition at_atom (st : Parser2.pstate) : Prop :=
  existsb (String.eqb (lx_name (Parser2.cur st))) Parser2.first_E4 = true.

(** The methods of the parser, each with its rank. *)
Record all_safe (n : nat) : Prop := {
  safe_E1 : safe id 6 Parser2.parseE1 n;
  safe_E2 : safe id 5 Parser2.parseE2 n;
  safe_E3 : safe id 4 Parser2.parseE3 n;
  safe_E4 : safe id 3 Parser2.parseE4 n;
  safe_E5 : safe id 2 Parser2.parseE5 n;
  safe_E6 : forall st, (16 * size st + 1 <= n)%nat -> at_atom st ->
            ends (size st) (Parser2.parseE6 n st);
  safe_A : safe S 1 Parser2.parseA n;
  safe_L : safe id 7 Parser2.parseL n;
  safe_L_ : safe S 1 Parser2.parseL_ n;
  safe_E1_ : safe S 2 Parser2.parseE1_ n;
  safe_E2_ : safe S 2 Parser2.parseE2_ n;
  safe_E4_ : safe S 2 Parser2.parseE4_ n
}.

(** A string of decimal digits. *)
Fixpoint all_digits (s : string) : bool :=
  match s with
  | EmptyString => true
  | String c s' => Char.isdigit c && all_digits s'
  end.

(** What the lexer guarantees of a lexeme, and of the state of a parser fed
    by the lexer: the text of a number is a literal. *)
Definition token_ok (t : Lexeme) : Prop :=
  lx_name t = "num" -> literal_ok (Parser2.data_of t) = true.

Definition state_ok (st : Parser2.pstate) : Prop :=
  token_ok (Parser2.cur st) /\ Forall token_ok (Parser2.rest st).

(** [yields P r]: if the method returned, what it returned satisfies [P],
    and the state it left is one of the lexer's. *)
Definition yields {A} (P : A -> Prop) (r : Parser2.presult A) : Prop :=
  match r with
  | Parser2.POk a st' => state_ok st' /\ P a
  | _ => True
  end.

(** What the methods return: a tree; a list of trees that is not empty
    (the arguments of an application), or none; the operators and operands
    of a tail. *)
Definition tree (e : Expr) : Prop := well_formed e = true.

Definition trees (l : list Expr) : Prop := l <> [] /\ Forall tree l.

Definition some_trees (o : option (list Expr)) : Prop :=
  forall l, o = Some l -> trees l.

Definition operands (lst : list (string * Expr)) : Prop :=
  Forall (fun p => arity_ok (fst p) 2 = true /\ tree (snd p)) lst.

(** From a state of the lexer, the method yields [P]. *)
Definition produces {A} (P : A -> Prop) (p : Parser2.parser A) : Prop :=
  forall st, state_ok st -> yields P (p st).

(** The methods of the parser, each with what it returns. *)
Record all_trees (n : nat) : Prop := {
  trees_E1 : produces tree (Parser2.parseE1 n);
  trees_E2 : produces tree (Parser2.parseE2 n);
  trees_E3 : produces tree (Parser2.parseE3 n);
  trees_E4 : produces tree (Parser2.parseE4 n);
  trees_E5 : produces tree (Parser2.parseE5 n);
  trees_E6 : produces tree (Parser2.parseE6 n);
  trees_A : produces some_trees (Parser2.parseA n);
  trees_L : produces trees (Parser2.parseL n);
  trees_L_ : produces some_trees (Parser2.parseL_ n);
  trees_E1_ : produces operands (Parser2.parseE1_ n);
  trees_E2_ : produces operands (Parser2.parseE2_ n);
  trees_E4_ : produces operands (Parser2.parseE4_ n)
}.

(** The input without its whitespace, and the texts of a list of lexemes,
    one after the other. *)
Fixpoint remove_spaces (s : string) : string :=
  match s with
  | EmptyString => EmptyString
  | String c s' => if Char.isspace c then remove_spaces s' else String c (remove_spaces s')
  end.

Fixpoint texts (toks : list Lexeme) : string :=
  match toks with
  | [] => EmptyString
  | t :: toks' => Parser2.data_of t ++ texts toks'
  end.

(** Do all the characters of a string satisfy [p]? *)
Fixpoint all_chars (p : ascii -> bool) (s : string) : bool :=
  match s with
  | EmptyString => true
  | String c s' => p c && all_chars p s'
  end.

Definition nospace (c : ascii) : bool := negb (Char.isspace c).

(** The kinds of lexemes: an identifier (a letter, then letters and
    digits), a number (a literal), the floor division sign, a single
    character that is neither a blank, a letter nor a digit and is its own
    name, and the end marker, which alone has no text. *)
Definition lexeme_shape (t : Lexeme) : Prop :=
  match lx_data t with
  | None => lx_name t = "$"
  | Some text =>
      (lx_name t = "id" /\ all_chars Char.isalnum text = true /\
       exists c rest, text = String c rest /\ Char.isalpha c = true) \/
      (lx_name t = "num" /\ literal_ok text = true) \/
      (lx_name t = "//" /\ text = "//") \/
      (exists c, text = String c EmptyString /\ lx_name t = text /\
         Char.isspace c = false /\ Char.isalpha c = false /\ Char.isdigit c = false)
  end.

(** [lexes data i toks]: [toks] are lexemes of [data] from position [i]
    on: blanks are skipped, each lexeme has its position and its text is
    the slice of the input there, without blanks, and the end marker is at
    the end of the input. *)
Inductive lexes (data : string) : nat -> list Lexeme -> Prop :=
| lexes_end :
    lexes data (String.length data) [mkLexeme "$" (Z.of_nat (String.length data)) None]
| lexes_space i c toks :
    String.get i data = Some c -> Char.isspace c = true ->
    lexes data (i + 1) toks -> lexes data i toks
| lexes_token i j name text toks :
    (i < j <= String.length data)%nat ->
    Lexer.slice data i j = text ->
    all_chars nospace text = true ->
    lexeme_shape (mkLexeme name (Z.of_nat i) (Some text)) ->
    lexes data j toks ->
    lexes data i (mkLexeme name (Z.of_nat i) (Some text) :: toks).

(** [located data from toks]: from position [from] on, each lexeme is at
    the position it records, its text is the slice of the input there,
    the next lexeme starts after it, and the end marker, the last lexeme,
    is at the end of the input. *)
Fixpoint located (data : string) (from : nat) (toks : list Lexeme) : Prop :=
  match toks with
  | [] => True
  | t :: toks' =>
      exists i, lx_pos t = Z.of_nat i /\ (from <= i)%nat /\
        match lx_data t with
        | Some text =>
            text <> EmptyString /\
            Lexer.slice data i (i + String.length text) = text /\
            located data (i + String.length text) toks'
        | None => i = String.length data /\ toks' = []
        end
  end.

(** [inside toks st]: the lookahead and the lexemes not yet read are the
    end of [toks], the lexemes of the input. *)
Definition inside (toks : list Lexeme) (st : Parser2.pstate) : Prop :=
  exists pre, toks = (pre ++ Parser2.cur st :: Parser2.rest st)%list.

(** [reports toks r]: if the method returned, the state it left is inside
    [toks]; if it raised a parse error, the error is at a lexeme of
    [toks]. *)
Definition reports {A} (toks : list Lexeme) (r : Parser2.presult A) : Prop :=
  match r with
  | Parser2.POk _ st' => inside toks st'
  | Parser2.PError tok => In tok toks
  | _ => True
  end.

(** From a state inside [toks], the method reports inside [toks]. *)
Definition stays_inside {A} (toks : list Lexeme) (p : Parser2.parser A) : Prop :=
  forall st, inside toks st -> reports toks (p st).

(** The methods of the parser, as they stay inside the lexemes. *)
Record all_inside (toks : list Lexeme) (n : nat) : Prop := {
  inside_E1 : stays_inside toks (Parser2.parseE1 n);
  inside_E2 : stays_inside toks (Parser2.parseE2 n);
  inside_E3 : stays_inside toks (Parser2.parseE3 n);
  inside_E4 : stays_inside toks (Parser2.parseE4 n);
  inside_E5 : stays_inside toks (Parser2.parseE5 n);
  inside_E6 : stays_inside toks (Parser2.parseE6 n);
  inside_A : stays_inside toks (Parser2.parseA n);
  inside_L : stays_inside toks (Parser2.parseL n);
  inside_L_ : stays_inside toks (Parser2.parseL_ n);
  inside_E1_ : stays_inside toks (Parser2.parseE1_ n);
  inside_E2_ : stays_inside toks (Parser2.parseE2_ n);
  inside_E4_ : stays_inside toks (Parser2.parseE4_ n)
}.

(** The lexemes at which the tails of [E1] and of [E4] return without
    consuming: the follow sets of [E1_] and [E4_]. *)
Definition follow_E1 : list string := [")"; "|"; ","; "$"].
Definition follow_E4 : list string :=
  ["*"; "/"; "//"; "%"; "$"; "+"; "-"; ")"; "|"; ","].

(** [derives p st a st']: from the state [st] the parsing method [p]
    returns [a] and leaves the state [st'], within some budget (and then
    within every larger one, see below). *)
Definition derives {A} (p : nat -> Parser2.parser A)
    (st : Parser2.pstate) (a : A) (st' : Parser2.pstate) : Prop :=
  exists n, p n st = Parser2.POk a st'.

(** [extends p q]: where [p] ends within its budget, [q] ends in the same
    way. *)
Definition extends {A} (p q : Parser2.parser A) : Prop :=
  forall st, p st <> Parser2.PFuel -> q st = p st.

Record all_extend (n : nat) : Prop := {
  extend_E1 : extends (Parser2.parseE1 n) (Parser2.parseE1 (S n));
  extend_E2 : extends (Parser2.parseE2 n) (Parser2.parseE2 (S n));
  extend_E3 : extends (Parser2.parseE3 n) (Parser2.parseE3 (S n));
  extend_E4 : extends (Parser2.parseE4 n) (Parser2.parseE4 (S n));
  extend_E5 : extends (Parser2.parseE5 n) (Parser2.parseE5 (S n));
  extend_E6 : extends (Parser2.parseE6 n) (Parser2.parseE6 (S n));
  extend_A : extends (Parser2.parseA n) (Parser2.parseA (S n));
  extend_L : extends (Parser2.parseL n) (Parser2.parseL (S n));
  extend_L_ : extends (Parser2.parseL_ n) (Parser2.parseL_ (S n));
  extend_E1_ : extends (Parser2.parseE1_ n) (Parser2.parseE1_ (S n));
  extend_E2_ : extends (Parser2.parseE2_ n) (Parser2.parseE2_ (S n));
  extend_E4_ : extends (Parser2.parseE4_ n) (Parser2.parseE4_ (S n))
}.

(** * Properties *)

(** ** Computations *)

Section Computations.

Context {A B : Type}.
Implicit Types (m : comp A) (k : A -> comp B).

Lemma returns_bind m k b :
  returns (Py.bind m k) b <-> exists a, returns m a /\ returns (k a) b.
Proof.
  split.
  - induction m as [a|e|name args h IH]; simpl; intros Hr.
    + exists a. split; [constructor | exact Hr].
    + inversion Hr.
    + inversion Hr as [|? ? ? r ? Hk]; subst.
      destruct (IH r Hk) as (a & Ha & Hb).
      exists a. split; [econstructor; exact Ha | exact Hb].
  - intros (a & Ha & Hb).
    induction Ha as [a|name args h r a _ IH]; simpl.
    + exact Hb.
    + econstructor. apply IH, Hb.
Qed.

Lemma raises_bind m k e :
  raises (Py.bind m k) e <->
  raises m e \/ exists a, returns m a /\ raises (k a) e.
Proof.
  split.
  - induction m as [a|e'|name args h IH]; simpl; intros Hr.
    + right. exists a. split; [constructor | exact Hr].
    + left. inversion Hr; subst. constructor.
    + inversion Hr as [|? ? ? r ? Hk]; subst.
      destruct (IH r Hk) as [Hm | (a & Ha & Hb)].
      * left. econstructor. exact Hm.
      * right. exists a. split; [econstructor; exact Ha | exact Hb].
  - intros [Hm | (a & Ha & Hb)].
    + induction Hm as [e|name args h r e _ IH]; simpl.
      * constructor.
      * econstructor. exact IH.
    + induction Ha as [a|name args h r a _ IH]; simpl.
      * exact Hb.
      * econstructor. apply IH, Hb.
Qed.

(** A computation ends: for some answers of the host it returns or it
    raises. *)
Lemma returns_or_raises m : (exists a, returns m a) \/ (exists e, raises m e).
Proof.
  induction m as [a|e|name args h IH].
  - left. exists a. constructor.
  - right. exists e. constructor.
  - destruct (IH (Returns (VInt 0))) as [(a & Ha)|(e & He)].
    + left. exists a. econstructor. exact Ha.
    + right. exists e. econstructor. exact He.
Qed.

End Computations.

Lemma numeric_ret {A} (a : A) : numeric (Ret a).
Proof. intros key H. inversion H. Qed.

Lemma numeric_raise {A} (e : num_error) : numeric (@raise A e).
Proof. intros key H. inversion H. Qed.

Lemma numeric_host name args : numeric (host name args).
Proof.
  intros key H. inversion H as [|? ? ? r ? Hk]; subst.
  destruct r; inversion Hk.
Qed.

Lemma numeric_bind {A B} (m : comp A) (k : A -> comp B) :
  numeric m -> (forall a, numeric (k a)) -> numeric (Py.bind m k).
Proof.
  intros Hm Hk key H. apply raises_bind in H as [H | (a & _ & H)].
  - exact (Hm key H).
  - exact (Hk a key H).
Qed.

Create HintDb numeric.
#[local] Hint Resolve numeric_ret numeric_raise numeric_host : numeric.

Ltac numeric_cases :=
  repeat first
    [ progress auto with numeric
    | apply numeric_bind; [| intros ?]
    | match goal with
      | |- numeric (match ?x with _ => _ end) => destruct x
      | |- numeric (if ?b then _ else _) => destruct b
      end ].

Lemma numeric_int_to_float n : numeric (int_to_float n).
Proof. unfold int_to_float. numeric_cases. Qed.
#[local] Hint Resolve numeric_int_to_float : numeric.

Lemma numeric_as_float v : numeric (as_float v).
Proof. unfold as_float. numeric_cases. Qed.
#[local] Hint Resolve numeric_as_float : numeric.

Lemma numeric_arith name on_int on_float a b :
  (forall x y, numeric (on_int x y)) ->
  (forall x y, numeric (on_float x y)) ->
  numeric (arith name on_int on_float a b).
Proof. intros Hi Hf. unfold arith. numeric_cases. Qed.

Ltac numeric_arith :=
  intros; apply numeric_arith; intros; unfold float_pow; numeric_cases.

Lemma numeric_add a b : numeric (py_add a b).
Proof. numeric_arith. Qed.
Lemma numeric_sub a b : numeric (py_sub a b).
Proof. numeric_arith. Qed.
Lemma numeric_mul a b : numeric (py_mul a b).
Proof. numeric_arith. Qed.
Lemma numeric_div a b : numeric (py_div a b).
Proof. numeric_arith. Qed.
Lemma numeric_mod a b : numeric (py_mod a b).
Proof. numeric_arith. Qed.
Lemma numeric_floordiv a b : numeric (py_floordiv a b).
Proof. numeric_arith. Qed.
Lemma numeric_pow a b : numeric (py_pow a b).
Proof. numeric_arith. Qed.

Lemma numeric_neg a : numeric (py_neg a).
Proof. unfold py_neg. numeric_cases. Qed.
Lemma numeric_abs a : numeric (py_abs a).
Proof. unfold py_abs. numeric_cases. Qed.

Lemma numeric_factorial a : numeric (math_factorial a).
Proof. unfold math_factorial, factorial_of_int. numeric_cases. Qed.

Lemma numeric_lt a b : numeric (py_lt a b).
Proof. unfold py_lt. numeric_cases. Qed.

Lemma numeric_min_from items : forall best, numeric (min_from best items).
Proof.
  induction items as [|item items IH]; intros best; simpl.
  - auto with numeric.
  - apply numeric_bind; [apply numeric_lt | intros less; apply IH].
Qed.

Lemma numeric_min items : numeric (py_min items).
Proof.
  destruct items; simpl; [auto with numeric | apply numeric_min_from].
Qed.

#[local] Hint Resolve numeric_add numeric_sub numeric_mul numeric_div
  numeric_mod numeric_floordiv numeric_pow numeric_neg numeric_abs
  numeric_factorial numeric_min : numeric.

(** ** The syntax tree and the objects [gen] builds *)

(** Induction on an expression, with the hypothesis on every operand. *)
Lemma Expr_ind' (P : Expr -> Prop) :
  (forall text, P (ENum text)) ->
  (forall name, P (EId name)) ->
  (forall fn args, Forall P args -> P (EApply fn args)) ->
  (forall op args, Forall P args -> P (EOp op args)) ->
  forall e, P e.
Proof.
  intros Hnum Hid Happ Hop.
  fix IH 1. intros [text|name|fn args|op args].
  - apply Hnum.
  - apply Hid.
  - apply Happ. induction args as [|a args IHargs]; constructor; [apply IH | exact IHargs].
  - apply Hop. induction args as [|a args IHargs]; constructor; [apply IH | exact IHargs].
Qed.

(** Case analysis on the tests [s == '...'] of a goal. *)
Ltac string_cases :=
  repeat match goal with
    | |- context [String.eqb ?s ?t] =>
        lazymatch s with
        | String _ _ => fail
        | EmptyString => fail
        | _ => destruct (String.eqb_spec s t); [subst s |]
        end
    end.

Lemma generated_ind' (P : Code -> Prop) :
  (forall v, P (Code.constant v)) ->
  (forall s, is_constant s = false -> P (Code.variable s)) ->
  (forall op lhs, (forall a, numeric (op a)) -> P lhs -> P (Code.unary op lhs)) ->
  (forall op lhs rhs, (forall a b, numeric (op a b)) -> P lhs -> P rhs ->
     P (Code.binary op lhs rhs)) ->
  (forall op args, (forall vs, numeric (op vs)) -> Forall P args ->
     P (Code.nary op args)) ->
  forall c, generated c -> P c.
Proof.
  intros Hc Hv Hu Hb Hn.
  fix IH 2. intros c [v|s Hs|op lhs Hop Hl|op lhs rhs Hop Hl Hr|op args Hop Hargs].
  - apply Hc.
  - apply Hv, Hs.
  - apply Hu; [exact Hop | apply IH, Hl].
  - apply Hb; [exact Hop | apply IH, Hl | apply IH, Hr].
  - apply Hn; [exact Hop |].
    induction Hargs as [|a args Ha _ IHargs]; constructor; [apply IH, Ha | exact IHargs].
Qed.

Lemma gen_all_Forall2 (P : Expr -> Code -> Prop) args :
  Forall (fun a => forall c, Code.gen a = Ok c -> P a c) args ->
  forall cs, Code.gen_all args = Ok cs -> Forall2 P args cs.
Proof.
  induction 1 as [|a args Ha _ IH]; simpl; intros cs Hcs.
  - injection Hcs as <-. constructor.
  - destruct (Code.gen a) as [c|] eqn:Hc; [|discriminate]. simpl in Hcs.
    destruct (Code.gen_all args) as [cs'|] eqn:Hcs'; [|discriminate]. simpl in Hcs.
    injection Hcs as <-. constructor; [apply Ha; reflexivity | apply IH; reflexivity].
Qed.

(** [gen] of an application, by the kind of its function name. *)
Lemma gen_function fn op args :
  function_of fn = Some op ->
  Code.gen (EApply fn args) =
  Code.bind (match args with a :: _ => Code.gen a | [] => Err IndexError end)
    (fun lhs => Ok (Code.unary op lhs)).
Proof.
  unfold function_of. string_cases; intros H; try discriminate;
    injection H as <-; reflexivity.
Qed.

Lemma gen_minmax fn args :
  is_minmax fn = true ->
  Code.gen (EApply fn args) =
  Code.bind (Code.gen_all args) (fun cs => Ok (Code.nary py_min cs)).
Proof.
  unfold is_minmax. string_cases; intros H; try discriminate; reflexivity.
Qed.

Lemma gen_undefined fn args :
  function_of fn = None -> is_minmax fn = false ->
  Code.gen (EApply fn args) = Err (NotDefined fn).
Proof.
  unfold function_of, is_minmax. string_cases; intros H1 H2; try discriminate.
  simpl. repeat (rewrite (proj2 (String.eqb_neq _ _)); [|assumption]). reflexivity.
Qed.

Lemma builtins_spec fn :
  In fn builtins <-> function_of fn <> None \/ is_minmax fn = true.
Proof.
  unfold function_of, is_minmax, builtins. split.
  - simpl. intros H. repeat (destruct H as [<-|H]; [vm_compute; auto; left; discriminate |]).
    destruct H.
  - string_cases; simpl; intros [H|H]; try congruence; tauto.
Qed.

Lemma gen_binary op prim args :
  binary_of op = Some prim ->
  Code.gen (EOp op args) =
  Code.bind (arg0 args) (fun lhs =>
    Code.bind (arg1 args) (fun rhs => Ok (Code.binary prim lhs rhs))).
Proof.
  unfold binary_of. string_cases; intros H; try discriminate;
    injection H as <-; reflexivity.
Qed.

Lemma gen_minus args :
  Code.gen (EOp "-" args) =
  Code.bind (arg0 args) (fun lhs =>
    if (length args =? 1)%nat then Ok (Code.unary py_neg lhs)
    else Code.bind (arg1 args) (fun rhs => Ok (Code.binary py_sub lhs rhs))).
Proof. reflexivity. Qed.

Lemma gen_unary op prim args :
  unary_of op = Some prim ->
  Code.gen (EOp op args) =
  Code.bind (arg0 args) (fun lhs => Ok (Code.unary prim lhs)).
Proof.
  unfold unary_of. string_cases; intros H; try discriminate;
    injection H as <-; reflexivity.
Qed.

Lemma gen_cant_handle op args :
  binary_of op = None -> unary_of op = None -> op <> "-" ->
  Code.gen (EOp op args) = Err (CantHandle (EOp op args)).
Proof.
  unfold binary_of, unary_of. string_cases; intros H1 H2 H3; try discriminate.
  simpl. repeat (rewrite (proj2 (String.eqb_neq _ _)); [|assumption]). reflexivity.
Qed.

Lemma numeric_binary_of op prim :
  binary_of op = Some prim -> forall a b, numeric (prim a b).
Proof.
  unfold binary_of. string_cases; intros H; try discriminate;
    injection H as <-; auto with numeric.
Qed.

Lemma numeric_unary_of op prim :
  unary_of op = Some prim -> forall a, numeric (prim a).
Proof.
  unfold unary_of. string_cases; intros H; try discriminate;
    injection H as <-; auto with numeric.
Qed.

Lemma numeric_function_of fn prim :
  function_of fn = Some prim -> forall a, numeric (prim a).
Proof.
  unfold function_of. string_cases; intros H; try discriminate;
    injection H as <-; intros a; first [apply numeric_abs | apply numeric_host].
Qed.

Ltac result_cases H :=
  repeat match type of H with
    | Code.bind ?m _ = Ok _ =>
        let E := fresh "E" in
        destruct m eqn:E; simpl in H; [|discriminate H]
    end.

Lemma gen_shape_of e c : Code.gen e = Ok c -> gen_shape e c.
Proof.
  destruct e as [text|s|fn args|op args]; intros H.
  - simpl in H. destruct (contains "." text).
    + result_cases H. injection H as <-. eapply shape_constant; eauto.
    + result_cases H. injection H as <-. eapply shape_constant; eauto.
  - destruct (is_constant s) eqn:Hs.
    + pose proof Hs as Hs'. unfold is_constant in Hs'. simpl in H.
      destruct (String.eqb s "e"); [injection H as <-; eapply shape_constant; eauto |].
      destruct (String.eqb s "pi"); [injection H as <-; eapply shape_constant; eauto |].
      destruct (String.eqb s "i"); [injection H as <-; eapply shape_constant; eauto |].
      discriminate Hs'.
    + pose proof Hs as Hs'. unfold is_constant in Hs'. simpl in H.
      destruct (String.eqb s "e"); [discriminate Hs' |].
      destruct (String.eqb s "pi"); [discriminate Hs' |].
      destruct (String.eqb s "i"); [discriminate Hs' |].
      injection H as <-. eapply shape_variable; eauto.
  - destruct (function_of fn) as [prim|] eqn:Hfn.
    + rewrite (gen_function _ _ _ Hfn) in H.
      destruct args as [|a rest]; [discriminate H |].
      result_cases H. injection H as <-.
      eapply shape_unary; eauto using numeric_function_of.
    + destruct (is_minmax fn) eqn:Hmm.
      * rewrite (gen_minmax _ _ Hmm) in H. result_cases H. injection H as <-.
        eapply shape_minmax; eauto.
      * rewrite (gen_undefined _ _ Hfn Hmm) in H. discriminate H.
  - destruct (binary_of op) as [prim|] eqn:Hb.
    + rewrite (gen_binary _ _ _ Hb) in H.
      destruct args as [|a [|b rest]]; simpl in H; try discriminate H.
      * destruct (Code.gen a); discriminate H.
      * result_cases H. injection H as <-.
        eapply shape_binary; eauto using numeric_binary_of.
    + destruct (unary_of op) as [prim|] eqn:Hu.
      * rewrite (gen_unary _ _ _ Hu) in H.
        destruct args as [|a rest]; [discriminate H |]. simpl in H.
        result_cases H. injection H as <-.
        eapply shape_unary; eauto using numeric_unary_of.
      * destruct (String.eqb_spec op "-") as [->|Hm].
        -- rewrite gen_minus in H.
           destruct args as [|a [|b rest]]; simpl in H; try discriminate H.
           ++ result_cases H. injection H as <-.
              eapply shape_unary; eauto 10 using numeric_neg.
           ++ result_cases H. injection H as <-.
              eapply shape_binary; eauto using numeric_sub.
        -- rewrite (gen_cant_handle _ _ Hb Hu Hm) in H. discriminate H.
Qed.

Lemma gen_generated e : forall c, Code.gen e = Ok c -> generated c.
Proof.
  induction e as [text|s|fn args IH|op args IH] using Expr_ind'; intros c H;
    destruct (gen_shape_of _ _ H)
      as [v _ ->
         |s' _ Hs ->
         |prim a rest lhs Hshape Hprim Ha ->
         |op' prim a b rest lhs rhs He _ Hprim Ha Hb ->
         |fn' args' cs He _ Hcs ->];
    try (constructor; assumption);
    try discriminate He;
    try (destruct Hshape as [(? & He & _)|(? & He & _)]; discriminate He).
  - destruct Hshape as [(? & He & _)|(? & He & _)]; [discriminate He|].
    injection He as <- ->. apply Forall_cons in IH as [IHa _].
    constructor; [exact Hprim | apply IHa, Ha].
  - injection He as <- <-. constructor; [apply numeric_min |].
    pose proof (gen_all_Forall2 (fun _ c => generated c) args IH cs Hcs) as HF.
    clear -HF. induction HF; constructor; assumption.
  - destruct Hshape as [(? & He & _)|(? & He & _)]; [|discriminate He].
    injection He as <- ->. apply Forall_cons in IH as [IHa _].
    constructor; [exact Hprim | apply IHa, Ha].
  - injection He as <- ->. apply Forall_cons in IH as [IHa IH].
    apply Forall_cons in IH as [IHb _].
    constructor; [exact Hprim | apply IHa, Ha | apply IHb, Hb].
Qed.

(** ** Evaluation of generated code *)

Lemma run_all_returns args kw vs :
  returns (Code.run_all args kw) vs ->
  Forall2 (fun c v => returns (Code.run c kw) v) args vs.
Proof.
  revert vs. induction args as [|c args IH]; simpl; intros vs H.
  - inversion H; subst. constructor.
  - apply returns_bind in H as (v & Hv & H).
    apply returns_bind in H as (vs' & Hvs & H).
    inversion H; subst. constructor; [exact Hv | apply IH, Hvs].
Qed.

Lemma run_all_raises args kw e :
  raises (Code.run_all args kw) e -> Exists (fun c => raises (Code.run c kw) e) args.
Proof.
  induction args as [|c args IH]; simpl; intros H.
  - inversion H.
  - apply raises_bind in H as [H | (v & _ & H)].
    + left. exact H.
    + apply raises_bind in H as [H | (vs & _ & H)].
      * right. apply IH, H.
      * inversion H.
Qed.

Lemma generated_lookup_sound c : generated c -> lookup_sound c.
Proof.
  induction 1 as [v|s Hs|op lhs Hop IH|op lhs rhs Hop IHl IHr|op args Hop IH]
    using generated_ind'; intros kw; unfold Code.run; simpl.
  - split.
    + intros key H. inversion H.
    + intros s [].
  - unfold Code.getitem. destruct (kw !! s) as [v|] eqn:Hkw; split.
    + intros key H. inversion H.
    + intros s' [<-|[]] Hnone. congruence.
    + intros key H. inversion H; subst. split; [left; reflexivity | exact Hkw].
    + intros s' _ _ v H. inversion H.
  - destruct (IH kw) as [IHe IHr]. split.
    + intros key H. apply raises_bind in H as [H | (a & _ & H)].
      * apply IHe, H.
      * destruct (Hop a key H).
    + intros s Hin Hnone v H. apply returns_bind in H as (a & Ha & _).
      exact (IHr s Hin Hnone a Ha).
  - destruct (IHl kw) as [IHle IHlr]. destruct (IHr kw) as [IHre IHrr]. split.
    + intros key H. rewrite in_app_iff.
      apply raises_bind in H as [H | (a & _ & H)].
      * destruct (IHle key H). tauto.
      * apply raises_bind in H as [H | (b & _ & H)].
        -- destruct (IHre key H). tauto.
        -- destruct (Hop a b key H).
    + intros s Hin Hnone v H. apply in_app_iff in Hin.
      apply returns_bind in H as (a & Ha & H).
      apply returns_bind in H as (b & Hb & _).
      destruct Hin as [Hin|Hin].
      * exact (IHlr s Hin Hnone a Ha).
      * exact (IHrr s Hin Hnone b Hb).
  - split.
    + intros key H. apply raises_bind in H as [H | (vs & _ & H)].
      * apply run_all_raises in H. clear Hop.
        induction IH as [|c args Hc _ IHargs]; [inversion H|]. simpl.
        rewrite in_app_iff. apply Exists_cons in H as [H|H].
        -- destruct (Hc kw) as [Hce _]. destruct (Hce key H). tauto.
        -- destruct (IHargs H). tauto.
      * destruct (Hop vs key H).
    + intros s Hin Hnone v H. apply returns_bind in H as (vs & Hvs & _).
      apply run_all_returns in Hvs. clear Hop. revert vs Hvs.
      induction IH as [|c args Hc _ IHargs]; intros vs Hvs; [destruct Hin|].
      simpl in Hin. apply in_app_iff in Hin.
      inversion Hvs as [|? w ? ws Hw Hws]; subst.
      destruct Hin as [Hin|Hin].
      * destruct (Hc kw) as [_ Hcr]. exact (Hcr s Hin Hnone w Hw).
      * exact (IHargs Hin ws Hws).
Qed.

(** Generated code reads the environment at its free names only. *)
Lemma generated_run_agree c :
  generated c ->
  forall kw1 kw2 : env,
    (forall s, In s (names c) -> kw1 !! s = kw2 !! s) ->
    Code.run c kw1 = Code.run c kw2.
Proof.
  induction 1 as [v|s Hs|op lhs Hop IH|op lhs rhs Hop IHl IHr|op args Hop IH]
    using generated_ind'; intros kw1 kw2 Hagree; unfold Code.run; simpl.
  - reflexivity.
  - unfold Code.getitem. rewrite (Hagree s); [reflexivity | left; reflexivity].
  - rewrite (IH kw1 kw2 Hagree). reflexivity.
  - simpl in Hagree.
    rewrite (IHl kw1 kw2), (IHr kw1 kw2); [reflexivity | |];
      intros s Hs; apply Hagree, in_app_iff; tauto.
  - simpl in Hagree. f_equal. clear Hop.
    induction IH as [|c args Hc _ IHargs]; [reflexivity|]. simpl in *.
    rewrite (Hc kw1 kw2), IHargs; [reflexivity | |];
      intros s Hs; apply Hagree, in_app_iff; tauto.
Qed.

Lemma generated_names c :
  generated c -> forall s, In s (names c) -> is_constant s = false.
Proof.
  induction 1 as [v|s Hs|op lhs Hop IH|op lhs rhs Hop IHl IHr|op args Hop IH]
    using generated_ind'; simpl; intros s' Hin.
  - destruct Hin.
  - destruct Hin as [<-|[]]. exact Hs.
  - apply IH, Hin.
  - apply in_app_iff in Hin as [Hin|Hin]; [apply IHl | apply IHr]; exact Hin.
  - clear Hop. induction IH as [|c args Hc _ IHargs]; [destruct Hin|].
    simpl in Hin. apply in_app_iff in Hin as [Hin|Hin]; [apply Hc | apply IHargs]; exact Hin.
Qed.

(** ** [max] and [min] *)

(** On integers, the scan of [min] does compute the minimum. *)
Lemma min_from_ints ns : forall b,
  min_from (VInt b) (VInt <$> ns) = Ret (VInt (fold_left Z.min ns b)).
Proof.
  induction ns as [|n ns IH]; intros b; simpl; [reflexivity|].
  replace (if n <? b then VInt n else VInt b) with (VInt (Z.min b n)).
  - apply IH.
  - destruct (Z.ltb_spec n b); f_equal; lia.
Qed.

Lemma py_min_ints n ns :
  py_min (VInt <$> n :: ns) = Ret (VInt (fold_left Z.min ns n)).
Proof. apply min_from_ints. Qed.

(** C1, for [max]: the code does not do what the claim says.  The branch
    of [gen] for [max] builds the same object as the branch for [min]: a
    call of [max] evaluates to the minimum of its arguments.  [max(1,2)]
    evaluates to 1, as [min(1,2)] does, where the claim says 2. *)
Theorem max_computes_min :
  (forall args, Code.gen (EApply "max" args) = Code.gen (EApply "min" args)) /\
  calc "max(1,2)" ∅ = Ran (Ret (VInt 1)) /\
  calc "min(1,2)" ∅ = Ran (Ret (VInt 1)).
Proof.
  split; [intros args; reflexivity | split; vm_compute; reflexivity].
Qed.

(** ** Division *)

(** C2, as stated, fails: [3/2] evaluates to the integer 1. *)
Lemma three_halves_is_one :
  calc "3/2" ∅ = Ran (Ret (VInt 1)) /\
  calc "3/2" ∅ <> Ran (Ret (VFloat 1.5)).
Proof. split; [vm_compute; reflexivity | vm_compute; discriminate]. Qed.

(** C2, amended: [/] is the classic division of Python 2.  The code for
    [l / r] evaluates [l], then [r], whatever computes them (the host
    included), and divides the two values; the code for [l // r] does the
    same with the floor division.  On two integers the division is floor
    division, with the same result as [//] ([3/2] is 1); it is true
    division only when an operand is a float (and none is complex): then
    the operands are coerced to floats and divided ([3.0/2] is 1.5).  A
    zero divisor raises [ZeroDivisionError].  With a complex operand the
    division is the host's complex division. *)
Theorem slash_is_classic_division l r cl cr :
  Code.gen l = Ok cl -> Code.gen r = Ok cr ->
  exists c c' (div floordiv : value -> value -> comp value),
    Code.gen (EOp "/" [l; r]) = Ok c /\
    Code.gen (EOp "//" [l; r]) = Ok c' /\
    (forall kw,
       Code.run c kw = (va ← Code.run cl kw; vb ← Code.run cr kw; div va vb)%comp /\
       Code.run c' kw =
         (va ← Code.run cl kw; vb ← Code.run cr kw; floordiv va vb)%comp) /\
    (forall a b,
       div (VInt a) (VInt b) =
         (if b =? 0 then raise ZeroDivisionError else Ret (VInt (a / b))) /\
       floordiv (VInt a) (VInt b) = div (VInt a) (VInt b)) /\
    (forall va vb,
       is_float va || is_float vb = true ->
       is_complex va || is_complex vb = false ->
       div va vb =
         (x ← as_float va; y ← as_float vb;
          if PrimFloat.is_zero y then raise ZeroDivisionError
          else Ret (VFloat (x / y)))%comp) /\
    (forall va vb,
       is_complex va || is_complex vb = true ->
       div va vb = host "complex.__div__" [va; vb]).
Proof.
  intros Hl Hr.
  exists (Code.binary py_div cl cr), (Code.binary py_floordiv cl cr), py_div, py_floordiv.
  split; [|split; [|split; [|split; [|split]]]].
  - simpl. rewrite Hl, Hr. reflexivity.
  - simpl. rewrite Hl, Hr. reflexivity.
  - intros kw. split; reflexivity.
  - intros a b. split; reflexivity.
  - intros va vb Hf Hc.
    destruct va, vb; try discriminate Hf; try discriminate Hc; reflexivity.
  - intros va vb Hc. destruct va, vb; try discriminate Hc; reflexivity.
Qed.

Lemma slash_is_classic_division_witness :
  exists c c' (div floordiv : value -> value -> comp value),
    Code.gen (EOp "/" [EApply "sin" [EId "x"]; ENum "2"]) = Ok c /\
    Code.gen (EOp "//" [EApply "sin" [EId "x"]; ENum "2"]) = Ok c' /\
    (forall kw,
       Code.run c kw =
         (va ← Code.run (Code.unary math_sin (Code.variable "x")) kw;
          vb ← Code.run (Code.constant (VInt 2)) kw; div va vb)%comp /\
       Code.run c' kw =
         (va ← Code.run (Code.unary math_sin (Code.variable "x")) kw;
          vb ← Code.run (Code.constant (VInt 2)) kw; floordiv va vb)%comp) /\
    (forall a b,
       div (VInt a) (VInt b) =
         (if b =? 0 then raise ZeroDivisionError else Ret (VInt (a / b))) /\
       floordiv (VInt a) (VInt b) = div (VInt a) (VInt b)) /\
    (forall va vb,
       is_float va || is_float vb = true ->
       is_complex va || is_complex vb = false ->
       div va vb =
         (x ← as_float va; y ← as_float vb;
          if PrimFloat.is_zero y then raise ZeroDivisionError
          else Ret (VFloat (x / y)))%comp) /\
    (forall va vb,
       is_complex va || is_complex vb = true ->
       div va vb = host "complex.__div__" [va; vb]).
Proof.
  exact (slash_is_classic_division (EApply "sin" [EId "x"]) (ENum "2")
           (Code.unary math_sin (Code.variable "x")) (Code.constant (VInt 2))
           eq_refl eq_refl).
Defined.

Example three_point_zero_halves : calc "3.0/2" ∅ = Ran (Ret (VFloat 1.5)).
Proof. vm_compute. reflexivity. Qed.

(** ** One step of each parsing method *)

Lemma parseE5__eq fuel st :
  Parser2.parseE5_ (S fuel) st =
  Parser2.bind (Parser2.lxin ["!"]) (fun bang =>
    if bang then
      Parser2.bind Parser2.next (fun _ =>
        Parser2.bind (Parser2.parseE5_ fuel) (fun r =>
          match r with
          | None => Parser2.ret (Some "!")
          | Some _ => Parser2.ret None
          end))
    else
      Parser2.bind (Parser2.lxin follow_E5) (fun skip =>
        if skip then Parser2.ret None else Parser2.error)) st.
Proof. reflexivity. Qed.

Lemma parseEx__eq k names skips (f1 : Parser2.parser Expr) st :
  Parser2.parseEx_ (S k) names skips f1 st =
  Parser2.bind (Parser2.lxin names) (fun ok =>
    if ok then
      Parser2.bind Parser2.get_cur (fun c =>
        Parser2.bind Parser2.next (fun _ =>
          Parser2.bind f1 (fun lhs =>
            Parser2.bind (Parser2.parseEx_ k names skips f1) (fun lst =>
              Parser2.ret ((lx_name c, lhs) :: lst)))))
    else
      Parser2.bind (Parser2.lxin skips) (fun skip =>
        if skip then Parser2.ret [] else Parser2.error)) st.
Proof. reflexivity. Qed.

Lemma parseE3_eq n st :
  Parser2.parseE3 (S n) st =
  Parser2.bind (Parser2.lxin ["-"]) (fun minus =>
    if minus then
      Parser2.bind Parser2.next (fun _ =>
        Parser2.bind (Parser2.parseE3 n) (fun expr =>
          Parser2.ret (EOp "-" [expr])))
    else
      Parser2.bind (Parser2.lxin Parser2.first_E4) (fun atom =>
        if atom then Parser2.parseE4 n else Parser2.error)) st.
Proof. reflexivity. Qed.

Lemma parseE5_eq n st :
  Parser2.parseE5 (S n) st =
  Parser2.bind (Parser2.lxin Parser2.first_E4) (fun atom =>
    if atom then
      Parser2.bind (Parser2.parseE6 n) (fun expr =>
        Parser2.bind (Parser2.parseE5_ n) (fun r =>
          match r with
          | None => Parser2.ret expr
          | Some _ => Parser2.ret (EOp "!" [expr])
          end))
    else Parser2.error) st.
Proof. reflexivity. Qed.

Lemma parseE6_eq n st :
  Parser2.parseE6 (S n) st =
  Parser2.bind Parser2.get_cur (fun c =>
    if String.eqb (lx_name c) "num" then
      Parser2.bind Parser2.next (fun _ => Parser2.ret (ENum (Parser2.data_of c)))
    else if String.eqb (lx_name c) "id" then
      Parser2.bind Parser2.next (fun _ =>
        Parser2.bind (Parser2.parseA n) (fun a =>
          match a with
          | None => Parser2.ret (EId (Parser2.data_of c))
          | Some a => Parser2.ret (EApply (Parser2.data_of c) a)
          end))
    else if String.eqb (lx_name c) "(" then
      Parser2.bind Parser2.next (fun _ =>
        Parser2.bind (Parser2.parseE1 n) (fun e1 =>
          Parser2.bind (Parser2.lxin [")"]) (fun close =>
            if close then Parser2.bind Parser2.next (fun _ => Parser2.ret e1)
            else Parser2.error)))
    else if String.eqb (lx_name c) "|" then
      Parser2.bind Parser2.next (fun _ =>
        Parser2.bind (Parser2.parseE1 n) (fun e1 =>
          Parser2.bind (Parser2.lxin ["|"]) (fun close =>
            if close then
              Parser2.bind Parser2.next (fun _ => Parser2.ret (EOp "abs" [e1]))
            else Parser2.error)))
    else fun _ => Parser2.PNoValue) st.
Proof. reflexivity. Qed.

Lemma parseA_eq n st :
  Parser2.parseA (S n) st =
  Parser2.bind (Parser2.lxin ["("]) (fun open =>
    if open then
      Parser2.bind Parser2.next (fun _ =>
        Parser2.bind (Parser2.parseL n) (fun ll =>
          Parser2.bind (Parser2.lxin [")"]) (fun close =>
            if close then Parser2.bind Parser2.next (fun _ => Parser2.ret (Some ll))
            else Parser2.error)))
    else
      Parser2.bind
        (Parser2.lxin ["!"; "$"; "^"; "*"; "/"; "//"; "%"; "+"; "-"; ")"; "|"; ","])
        (fun skip => if skip then Parser2.ret None else Parser2.error)) st.
Proof. reflexivity. Qed.

Lemma parseL_eq n st :
  Parser2.parseL (S n) st =
  Parser2.bind (Parser2.lxin Parser2.first_E1) (fun ok =>
    if ok then
      Parser2.bind (Parser2.parseE1 n) (fun e1 =>
        Parser2.bind (Parser2.parseL_ n) (fun l_ =>
          match l_ with
          | None => Parser2.ret [e1]
          | Some l_ => Parser2.ret ([e1] ++ l_)%list
          end))
    else Parser2.error) st.
Proof. reflexivity. Qed.

Lemma parseL__eq n st :
  Parser2.parseL_ (S n) st =
  Parser2.bind (Parser2.lxin [","]) (fun comma =>
    if comma then
      Parser2.bind Parser2.next (fun _ =>
        Parser2.bind (Parser2.parseE1 n) (fun e1 =>
          Parser2.bind (Parser2.parseL_ n) (fun l_ =>
            match l_ with
            | None => Parser2.ret (Some [e1])
            | Some l_ => Parser2.ret (Some ([e1] ++ l_)%list)
            end)))
    else
      Parser2.bind (Parser2.lxin [")"]) (fun close =>
        if close then Parser2.ret None else Parser2.error)) st.
Proof. reflexivity. Qed.

(** ** The parser on the inputs of the claims *)

(** [parseE5_] on a run of exclamation marks followed by a lexeme of its
    follow set: all the marks are consumed, and the result is ['!'] when
    their number is odd and [None] when it is even. *)
Lemma parseE5__stop fuel t r :
  In (lx_name t) follow_E5 ->
  Parser2.parseE5_ (S fuel) (Parser2.mkState t r) =
  Parser2.POk None (Parser2.mkState t r).
Proof.
  destruct t as [name pos data]. unfold follow_E5. simpl. intros Ht.
  repeat (destruct Ht as [<-|Ht]; [reflexivity|]). destruct Ht.
Qed.

Lemma parseE5__step fuel b t r :
  lx_name b = "!" ->
  Parser2.parseE5_ (S fuel) (Parser2.mkState b (t :: r)) =
  match Parser2.parseE5_ fuel (Parser2.mkState t r) with
  | Parser2.POk (Some _) st => Parser2.POk None st
  | Parser2.POk None st => Parser2.POk (Some "!") st
  | Parser2.PError tok => Parser2.PError tok
  | Parser2.PNoValue => Parser2.PNoValue
  | Parser2.PFuel => Parser2.PFuel
  end.
Proof.
  destruct b as [name pos data]. cbn [lx_name]. intros ->.
  rewrite parseE5__eq.
  unfold Parser2.bind at 1. unfold Parser2.lxin at 1.
  cbn [Parser2.cur lx_name existsb String.eqb Ascii.eqb Bool.eqb orb].
  unfold Parser2.bind at 1. unfold Parser2.next.
  cbn [Parser2.cur Parser2.rest lx_name String.eqb Ascii.eqb Bool.eqb].
  unfold Parser2.bind.
  destruct (Parser2.parseE5_ fuel (Parser2.mkState t r)) as [[?|] ?| | |]; reflexivity.
Qed.

Lemma parseE5__parity bangs : forall fuel b t r,
  Forall (fun x => lx_name x = "!") (b :: bangs) ->
  In (lx_name t) follow_E5 ->
  (length (b :: bangs) < fuel)%nat ->
  Parser2.parseE5_ fuel (Parser2.mkState b (bangs ++ t :: r)) =
  Parser2.POk (if Nat.odd (length (b :: bangs)) then Some "!" else None)
    (Parser2.mkState t r).
Proof.
  induction bangs as [|b' bangs IH]; intros fuel b t r Hb Ht Hfuel;
    apply Forall_cons in Hb as [Hb Hbs];
    (destruct fuel as [|fuel]; [simpl in Hfuel; lia|]).
  - destruct fuel as [|fuel]; [simpl in Hfuel; lia|].
    change ([] ++ t :: r)%list with (t :: r).
    rewrite (parseE5__step _ _ _ _ Hb), (parseE5__stop _ _ _ Ht). reflexivity.
  - change ((b' :: bangs) ++ t :: r)%list with (b' :: (bangs ++ t :: r))%list.
    rewrite (parseE5__step _ _ _ _ Hb), (IH fuel b' t r Hbs Ht); [|simpl in *; lia].
    change (length (b :: b' :: bangs)) with (S (length (b' :: bangs))).
    rewrite Nat.odd_succ, <- Nat.negb_odd.
    destruct (Nat.odd (length (b' :: bangs))); reflexivity.
Qed.

(** C3: the code does not do what the claim says.  [parseE5] wraps the
    atom in at most one factorial: a run of marks of even length adds
    none, and one of odd length adds one.  [3!!] parses as [3] and
    evaluates to 3, where the claim says [(3!)!] and 720; [3!!!] parses as
    [3!]. *)
Theorem factorial_does_not_stack :
  Parser2.parse "3!!" = Some (ENum "3") /\
  calc "3!!" ∅ = Ran (Ret (VInt 3)) /\
  Parser2.parse "3!" = Some (EOp "!" [ENum "3"]) /\
  Parser2.parse "3!!!" = Some (EOp "!" [ENum "3"]) /\
  calc "(3!)!" ∅ = Ran (Ret (VInt 720)).
Proof. repeat split; vm_compute; reflexivity. Qed.

(** C4: the code does not do what the claim says.  [parse] returns what
    [parseP] returns and never looks at the lookahead afterwards: on [2)]
    it returns the tree of [2], with the closing parenthesis and the end
    marker not consumed. *)
Theorem trailing_tokens_accepted :
  Parser2.parse_state "2)" =
    Parser2.Parsed (ENum "2")
      (Parser2.mkState (mkLexeme ")" 1 (Some ")")) [mkLexeme "$" 2 None]) /\
  Parser2.parse "2)" = Some (ENum "2") /\
  Parser2.parse "2,3" = Some (ENum "2") /\
  Parser2.parse "2|" = Some (ENum "2").
Proof. repeat split; vm_compute; reflexivity. Qed.

(** Unary minus: [parseE3] at a minus sign wraps what [parseE3] returns for
    the rest, and that is a whole power expression. *)
Lemma parseE3_minus fuel st st1 e st' :
  lx_name (Parser2.cur st) = "-" ->
  Parser2.next st = Parser2.POk tt st1 ->
  Parser2.parseE3 fuel st1 = Parser2.POk e st' ->
  Parser2.parseE3 (S fuel) st = Parser2.POk (EOp "-" [e]) st'.
Proof.
  intros Hminus Hnext He. simpl.
  unfold Parser2.bind at 1. unfold Parser2.lxin at 1. simpl. rewrite Hminus. simpl.
  unfold Parser2.bind. rewrite Hnext, He. reflexivity.
Qed.

(** ** Unknown functions *)

Lemma gen_all_error args err :
  Code.gen_all args = Err err -> Exists (fun a => Code.gen a = Err err) args.
Proof.
  induction args as [|a args IH]; simpl; [discriminate|].
  destruct (Code.gen a) as [c|err'] eqn:Ha; simpl.
  - destruct (Code.gen_all args) as [cs|err'']; simpl; [discriminate|].
    intros [= ->]. right. apply IH. reflexivity.
  - intros [= ->]. left. exact Ha.
Qed.

Lemma not_defined_sound e : forall fn,
  Code.gen e = Err (NotDefined fn) -> ~ In fn builtins /\ In fn (applied e).
Proof.
  induction e as [text|s|fn' args IH|op args IH] using Expr_ind'; intros fn H.
  - simpl in H. destruct (contains "." text);
      [destruct (py_float text) | destruct (py_int text)]; discriminate H.
  - simpl in H. repeat (destruct (String.eqb s _); [discriminate H|]). discriminate H.
  - destruct (function_of fn') as [prim|] eqn:Hfn.
    + rewrite (gen_function _ _ _ Hfn) in H.
      destruct args as [|a rest]; [discriminate H|].
      apply Forall_cons in IH as [IHa _]. simpl in H.
      destruct (Code.gen a) eqn:Ha; [discriminate H|]. injection H as ->.
      destruct (IHa fn eq_refl) as [Hb Hin]. split; [exact Hb|].
      simpl. right. apply in_app_iff. left. exact Hin.
    + destruct (is_minmax fn') eqn:Hmm.
      * rewrite (gen_minmax _ _ Hmm) in H.
        destruct (Code.gen_all args) eqn:Hall; [discriminate H|]. injection H as ->.
        apply gen_all_error in Hall. simpl.
        induction Hall as [a args Ha|a args _ IHargs];
          apply Forall_cons in IH as [IHa IHrest].
        -- destruct (IHa fn Ha) as [Hb Hin]. split; [exact Hb|].
           right. simpl. apply in_app_iff. left. exact Hin.
        -- destruct (IHargs IHrest) as [Hb [Hin|Hin]]; (split; [exact Hb|]).
           ++ left. exact Hin.
           ++ right. simpl. apply in_app_iff. right. exact Hin.
      * rewrite (gen_undefined _ _ Hfn Hmm) in H. injection H as <-. split.
        -- rewrite builtins_spec. rewrite Hfn, Hmm. intros [?|?]; congruence.
        -- left. reflexivity.
  - assert (Harg0 : arg0 args = Err (NotDefined fn) -> ~ In fn builtins /\ In fn (applied (EOp op args))).
    { destruct args as [|a rest]; [discriminate|]. simpl. intros Ha.
      apply Forall_cons in IH as [IHa _]. destruct (IHa fn Ha) as [Hb Hin].
      split; [exact Hb | apply in_app_iff; left; exact Hin]. }
    assert (Harg1 : arg1 args = Err (NotDefined fn) -> ~ In fn builtins /\ In fn (applied (EOp op args))).
    { destruct args as [|a [|b rest]]; try discriminate. simpl. intros Ha.
      apply Forall_cons in IH as [_ IH]. apply Forall_cons in IH as [IHb _].
      destruct (IHb fn Ha) as [Hb Hin].
      split; [exact Hb | apply in_app_iff; right; apply in_app_iff; left; exact Hin]. }
    destruct (binary_of op) as [prim|] eqn:Hb.
    + rewrite (gen_binary _ _ _ Hb) in H.
      destruct (arg0 args) eqn:H0; simpl in H; [|injection H as ->; auto].
      destruct (arg1 args) eqn:H1; simpl in H; [discriminate H|injection H as ->; auto].
    + destruct (unary_of op) as [prim|] eqn:Hu.
      * rewrite (gen_unary _ _ _ Hu) in H.
        destruct (arg0 args) eqn:H0; simpl in H; [discriminate H|injection H as ->; auto].
      * destruct (String.eqb_spec op "-") as [->|Hm].
        -- rewrite gen_minus in H.
           destruct (arg0 args) eqn:H0; simpl in H; [|injection H as ->; auto].
           destruct (length args =? 1)%nat; [discriminate H|].
           destruct (arg1 args) eqn:H1; simpl in H; [discriminate H|injection H as ->; auto].
        -- rewrite (gen_cant_handle _ _ Hb Hu Hm) in H. discriminate H.
Qed.

Lemma gen_all_complete args :
  Forall undefined_or_compiled args ->
  match first_undefined_all args with
  | Some fn => Code.gen_all args = Err (NotDefined fn)
  | None => exists cs, Code.gen_all args = Ok cs
  end.
Proof.
  induction 1 as [|a args Ha _ IH]; simpl.
  - eexists. reflexivity.
  - unfold undefined_or_compiled in Ha. destruct (first_undefined a) as [fn|].
    + rewrite Ha. reflexivity.
    + destruct Ha as [c ->]. simpl.
      destruct (first_undefined_all args) as [fn|].
      * rewrite IH. reflexivity.
      * destruct IH as [cs ->]. simpl. eexists. reflexivity.
Qed.

Lemma undefined_complete e : well_formed e = true -> undefined_or_compiled e.
Proof.
  induction e as [text|s|fn args IH|op args IH] using Expr_ind'; intros Hwf.
  - unfold undefined_or_compiled. simpl in *. unfold literal_ok in Hwf.
    destruct (contains "." text); apply bool_decide_eq_true in Hwf as [n ->];
      simpl; eexists; reflexivity.
  - unfold undefined_or_compiled. simpl.
    repeat (destruct (String.eqb s _); [eexists; reflexivity|]). eexists; reflexivity.
  - simpl in Hwf. apply andb_true_iff in Hwf as [Hlen Hargs].
    assert (IH' : Forall undefined_or_compiled args).
    { rewrite forallb_forall in Hargs. rewrite Forall_forall in IH |- *.
      intros a Ha. apply IH; [exact Ha | apply Hargs, list_elem_of_In, Ha]. }
    unfold undefined_or_compiled.
    change (first_undefined (EApply fn args)) with
      (if is_minmax fn then first_undefined_all args
       else match function_of fn, args with
            | Some _, a :: _ => first_undefined a
            | Some _, [] => None
            | None, _ => Some fn
            end).
    destruct (is_minmax fn) eqn:Hmm.
    + rewrite (gen_minmax _ _ Hmm).
      pose proof (gen_all_complete args IH') as Hall.
      destruct (first_undefined_all args) as [fn'|].
      * rewrite Hall. reflexivity.
      * destruct Hall as [cs ->]. eexists. reflexivity.
    + destruct (function_of fn) as [prim|] eqn:Hfn.
      * rewrite (gen_function _ _ _ Hfn).
        destruct args as [|a rest]; [discriminate Hlen|].
        apply Forall_cons in IH' as [Ha _]. unfold undefined_or_compiled in Ha.
        destruct (first_undefined a) as [fn'|].
        -- rewrite Ha. reflexivity.
        -- destruct Ha as [c ->]. eexists. reflexivity.
      * apply gen_undefined; assumption.
  - simpl in Hwf. apply andb_true_iff in Hwf as [Harity Hargs].
    assert (IH' : Forall undefined_or_compiled args).
    { rewrite forallb_forall in Hargs. rewrite Forall_forall in IH |- *.
      intros a Ha. apply IH; [exact Ha | apply Hargs, list_elem_of_In, Ha]. }
    clear IH Hargs. unfold undefined_or_compiled, arity_ok in *.
    cbn [first_undefined].
    destruct (unary_of op) as [prim|] eqn:Hu.
    + rewrite (gen_unary _ _ _ Hu).
      destruct args as [|a [|? ?]]; try discriminate Harity.
      apply Forall_cons in IH' as [Ha _]. simpl.
      destruct (first_undefined a) as [fn'|].
      * rewrite Ha. reflexivity.
      * destruct Ha as [c ->]. eexists. reflexivity.
    + destruct (binary_of op) as [prim|] eqn:Hb.
      * rewrite (gen_binary _ _ _ Hb).
        destruct args as [|a [|b [|? ?]]]; try discriminate Harity.
        apply Forall_cons in IH' as [Ha IH']. apply Forall_cons in IH' as [Hb' _].
        simpl. destruct (first_undefined a) as [fn'|].
        -- rewrite Ha. reflexivity.
        -- destruct Ha as [ca ->]. simpl. destruct (first_undefined b) as [fn'|].
           ++ rewrite Hb'. reflexivity.
           ++ destruct Hb' as [cb ->]. eexists. reflexivity.
      * apply andb_true_iff in Harity as [Hop Harity].
        apply String.eqb_eq in Hop as ->. rewrite gen_minus.
        destruct args as [|a [|b [|? ?]]]; try discriminate Harity.
        -- apply Forall_cons in IH' as [Ha _]. simpl.
           destruct (first_undefined a) as [fn'|].
           ++ rewrite Ha. reflexivity.
           ++ destruct Ha as [ca ->]. eexists. reflexivity.
        -- apply Forall_cons in IH' as [Ha IH']. apply Forall_cons in IH' as [Hb' _].
           simpl. destruct (first_undefined a) as [fn'|].
           ++ rewrite Ha. reflexivity.
           ++ destruct Ha as [ca ->]. simpl. destruct (first_undefined b) as [fn'|].
              ** rewrite Hb'. reflexivity.
              ** destruct Hb' as [cb ->]. eexists. reflexivity.
Qed.

(** C5, as stated, fails: the second argument of [sin] is never compiled,
    so the unknown function in it goes unnoticed. *)
Lemma unknown_function_not_reached :
  In "bogus" (applied (EApply "sin" [ENum "1"; EApply "bogus" [ENum "2"]])) /\
  Parser2.parse "sin(1,bogus(2))" =
    Some (EApply "sin" [ENum "1"; EApply "bogus" [ENum "2"]]) /\
  exists c, compile "sin(1,bogus(2))" = Some (Ok c).
Proof.
  split; [simpl; tauto | split; [vm_compute; reflexivity|]].
  eexists. vm_compute. reflexivity.
Qed.

(** C5, amended: [gen] fails with the error that names a function exactly
    when its walk through the operands it compiles (both operands of an
    operator, every argument of [max] and [min], the first argument only
    of another builtin) meets an application of a name outside the builtin
    set, and the error names the first one met; applications in the
    arguments it skips are not checked.  The error is raised by [gen],
    which takes no environment: [bogus(1)] fails to compile.  A tree whose
    applications are all of builtins never raises this error. *)
Theorem undefined_function_error :
  (forall e fn, Code.gen e = Err (NotDefined fn) ->
     ~ In fn builtins /\ In fn (applied e)) /\
  (forall e, Forall (fun fn => In fn builtins) (applied e) ->
     forall fn, Code.gen e <> Err (NotDefined fn)) /\
  (forall e, well_formed e = true ->
     match first_undefined e with
     | Some fn => Code.gen e = Err (NotDefined fn)
     | None => exists c, Code.gen e = Ok c
     end) /\
  compile "bogus(1)" = Some (Err (NotDefined "bogus")).
Proof.
  split; [|split; [|split]].
  - intros e fn. apply not_defined_sound.
  - intros e Hall fn H. apply not_defined_sound in H as [Hb Hin].
    rewrite Forall_forall in Hall. apply Hb, Hall, list_elem_of_In, Hin.
  - intros e. apply undefined_complete.
  - vm_compute. reflexivity.
Qed.

Lemma undefined_function_error_witness :
  Code.gen (EOp "+" [EApply "sin" [EId "x"]; EApply "bogus" [ENum "1"]]) =
    Err (NotDefined "bogus") /\
  (exists c, Code.gen (EApply "max" [ENum "1"; EApply "sin" [ENum "2"]]) = Ok c) /\
  (~ In "bogus" builtins /\ In "bogus" (applied (EApply "bogus" [ENum "1"]))).
Proof.
  pose proof undefined_function_error as (Hsound & _ & Hcomplete & _).
  split; [|split].
  - exact (Hcomplete (EOp "+" [EApply "sin" [EId "x"]; EApply "bogus" [ENum "1"]]) eq_refl).
  - exact (Hcomplete (EApply "max" [ENum "1"; EApply "sin" [ENum "2"]]) eq_refl).
  - exact (Hsound (EApply "bogus" [ENum "1"]) "bogus" eq_refl).
Defined.

(** ** Builtins of one argument *)

(** C6, as stated, fails: [sin] applied to two arguments compiles, to the
    same object as [sin] of the first argument. *)
Lemma sin_of_two_arguments_compiles :
  Parser2.parse "sin(1,2)" = Some (EApply "sin" [ENum "1"; ENum "2"]) /\
  (exists c, compile "sin(1,2)" = Some (Ok c)) /\
  Code.gen (EApply "sin" [ENum "1"; ENum "2"]) = Code.gen (EApply "sin" [ENum "1"]).
Proof.
  split; [vm_compute; reflexivity | split; [|reflexivity]].
  eexists. vm_compute. reflexivity.
Qed.

(** C6, amended: a builtin other than [max] and [min] uses its first
    argument and ignores any further ones: applied to two or more
    arguments it is not rejected but compiles exactly as it does applied
    to the first alone (the others are not compiled); applied to one
    argument it computes that function of the evaluated argument, and has
    the free names of the argument. *)
Theorem builtin_uses_first_argument fn prim :
  function_of fn = Some prim ->
  forall a rest,
    Code.gen (EApply fn (a :: rest)) = Code.gen (EApply fn [a]) /\
    forall lhs, Code.gen a = Ok lhs ->
      exists c, Code.gen (EApply fn [a]) = Ok c /\
        names c = names lhs /\
        forall kw, Code.run c kw = Py.bind (Code.run lhs kw) prim.
Proof.
  intros Hfn a rest. rewrite !(gen_function _ _ _ Hfn). split; [reflexivity|].
  intros lhs ->. eexists. split; [reflexivity|]. split; reflexivity.
Qed.

Lemma builtin_uses_first_argument_witness :
  Code.gen (EApply "sin" [EId "x"; EId "y"]) = Code.gen (EApply "sin" [EId "x"]) /\
  forall lhs, Code.gen (EId "x") = Ok lhs ->
    exists c, Code.gen (EApply "sin" [EId "x"]) = Ok c /\
      names c = names lhs /\
      forall kw, Code.run c kw = Py.bind (Code.run lhs kw) math_sin.
Proof.
  exact (builtin_uses_first_argument "sin" math_sin eq_refl (EId "x") [EId "y"]).
Defined.

(** ** Missing variables *)

(** C7, as stated, fails: in [1/0+x] the division is evaluated before [x]
    is looked up, and its error is the one raised. *)
Lemma division_error_before_lookup :
  names_of "1/0+x" = Some ["x"] /\
  calc "1/0+x" ∅ = Ran (Raise (NumError ZeroDivisionError)) /\
  calc "1/0+x" ∅ <> Ran (Raise (KeyError "x")).
Proof.
  split; [vm_compute; reflexivity | split; [vm_compute; reflexivity|]].
  vm_compute. discriminate.
Qed.

(** The lookups of generated code are made in the order of its list of
    names. *)
Lemma app_eq_split {A} (l1 l2 pre : list A) key post :
  (l1 ++ l2 = pre ++ key :: post)%list ->
  (exists post1, l1 = pre ++ key :: post1 /\ post = post1 ++ l2)%list \/
  (exists pre2, pre = l1 ++ pre2 /\ l2 = pre2 ++ key :: post)%list.
Proof.
  revert pre. induction l1 as [|x l1 IH]; intros pre H; simpl in H.
  - right. exists pre. split; [reflexivity | exact H].
  - destruct pre as [|p pre]; simpl in H; injection H as -> H.
    + left. exists l1. split; [reflexivity | symmetry; exact H].
    + destruct (IH pre H) as [(post1 & -> & ->) | (pre2 & -> & ->)];
        [left; exists post1 | right; exists pre2]; split; reflexivity.
Qed.

Lemma reads_numeric {A} (m : comp A) : numeric m -> reads [] (fun _ => m).
Proof.
  intros Hm. split; [|split; [|split]].
  - reflexivity.
  - intros kw key H. destruct (Hm key H).
  - intros kw s [].
  - intros kw kw' pre key [[post Hns] _] _. destruct pre; discriminate Hns.
Qed.

Lemma reads_getitem s : reads [s] (fun kw => Code.getitem kw s).
Proof.
  unfold Code.getitem. split; [|split; [|split]].
  - intros kw kw' Hag. rewrite (Hag s); [reflexivity | left; reflexivity].
  - intros kw key H. destruct (kw !! s) eqn:Hkw; inversion H; subst.
    split; [left; reflexivity | exact Hkw].
  - intros kw s' [<-|[]] Hnone v H. rewrite Hnone in H. inversion H.
  - intros kw kw' pre key [[post Hns] [_ Hnone]] _.
    assert (key = s) as ->.
    { destruct pre as [|p pre]; [injection Hns as ->; reflexivity|].
      destruct pre; discriminate Hns. }
    rewrite Hnone. split.
    + intros x H. inversion H; subst. left. reflexivity.
    + intros v _. constructor.
Qed.

Lemma reads_unary {A B} ns (m : env -> comp A) (op : A -> comp B) :
  reads ns m -> (forall a, numeric (op a)) ->
  reads ns (fun kw => Py.bind (m kw) op).
Proof.
  intros (Hag & Hkey & Hret & Hord) Hop. split; [|split; [|split]].
  - intros kw kw' H. rewrite (Hag kw kw' H). reflexivity.
  - intros kw key H. apply raises_bind in H as [H | (a & _ & H)].
    + apply Hkey, H.
    + destruct (Hop a key H).
  - intros kw s Hin Hnone v H. apply returns_bind in H as (a & Ha & _).
    exact (Hret kw s Hin Hnone a Ha).
  - intros kw kw' pre key Hfirst Hpre.
    destruct (Hord kw kw' pre key Hfirst Hpre) as [Hraise Hreturn].
    destruct Hfirst as [[post Hns] [_ Hnone]].
    assert (Hin : In key ns) by (rewrite Hns; apply in_elt).
    split.
    + intros x H. apply raises_bind in H as [H | (a & Ha & _)].
      * destruct (Hraise x H) as [->|(err & -> & Herr)]; [left; reflexivity|].
        right. exists err. split; [reflexivity|]. apply raises_bind. left. exact Herr.
      * destruct (Hret kw key Hin Hnone a Ha).
    + intros v H. apply returns_bind in H as (a & Ha & _).
      apply raises_bind. left. exact (Hreturn a Ha).
Qed.

Lemma reads_binary {A B C} ns1 ns2 (m1 : env -> comp A) (m2 : env -> comp B)
    (op : A -> B -> comp C) :
  reads ns1 m1 -> reads ns2 m2 -> (forall a b, numeric (op a b)) ->
  reads (ns1 ++ ns2) (fun kw => Py.bind (m1 kw) (fun a => Py.bind (m2 kw) (fun b => op a b))).
Proof.
  intros (Hag1 & Hkey1 & Hret1 & Hord1) (Hag2 & Hkey2 & Hret2 & Hord2) Hop.
  split; [|split; [|split]].
  - intros kw kw' H.
    rewrite (Hag1 kw kw'), (Hag2 kw kw'); [reflexivity | |];
      intros s Hs; apply H, in_app_iff; tauto.
  - intros kw key H. rewrite in_app_iff.
    apply raises_bind in H as [H | (a & _ & H)].
    + destruct (Hkey1 kw key H). tauto.
    + apply raises_bind in H as [H | (b & _ & H)].
      * destruct (Hkey2 kw key H). tauto.
      * destruct (Hop a b key H).
  - intros kw s Hin Hnone v H. apply in_app_iff in Hin.
    apply returns_bind in H as (a & Ha & H).
    apply returns_bind in H as (b & Hb & _).
    destruct Hin as [Hin|Hin].
    + exact (Hret1 kw s Hin Hnone a Ha).
    + exact (Hret2 kw s Hin Hnone b Hb).
  - intros kw kw' pre key [[post Hns] [Hbound Hnone]] Hpre.
    destruct (app_eq_split _ _ _ _ _ Hns) as [(post1 & Hns1 & _) | (pre2 & -> & Hns2)].
    + (* the missing name is looked up by [m1] *)
      assert (Hfirst : first_missing kw ns1 pre key)
        by (split; [exists post1; exact Hns1 | split; assumption]).
      destruct (Hord1 kw kw' pre key Hfirst Hpre) as [Hraise Hreturn].
      assert (Hin : In key ns1) by (rewrite Hns1; apply in_elt).
      split.
      * intros x H. apply raises_bind in H as [H | (a & Ha & _)].
        -- destruct (Hraise x H) as [->|(err & -> & Herr)]; [left; reflexivity|].
           right. exists err. split; [reflexivity|]. apply raises_bind. left. exact Herr.
        -- destruct (Hret1 kw key Hin Hnone a Ha).
      * intros v H. apply returns_bind in H as (a & Ha & _).
        apply raises_bind. left. exact (Hreturn a Ha).
    + (* [m1] finds its names, the missing one is looked up by [m2] *)
      assert (Heq : m1 kw' = m1 kw).
      { apply Hag1. intros s Hs. apply Hpre, in_app_iff. left. exact Hs. }
      assert (Hfirst : first_missing kw ns2 pre2 key).
      { split; [exists post; exact Hns2 | split; [|exact Hnone]].
        intros s Hs. apply Hbound, in_app_iff. right. exact Hs. }
      assert (Hpre2 : agree pre2 kw kw').
      { intros s Hs. apply Hpre, in_app_iff. right. exact Hs. }
      destruct (Hord2 kw kw' pre2 key Hfirst Hpre2) as [Hraise Hreturn].
      assert (Hin : In key ns2) by (rewrite Hns2; apply in_elt).
      split.
      * intros x H. apply raises_bind in H as [H | (a & Ha & H)].
        -- destruct x as [k|err].
           ++ destruct (Hkey1 kw k H) as [Hk Hknone].
              destruct (Hbound k) as [v Hv]; [apply in_app_iff; left; exact Hk|].
              congruence.
           ++ right. exists err. split; [reflexivity|].
              apply raises_bind. left. rewrite Heq. exact H.
        -- apply raises_bind in H as [H | (b & Hb & _)].
           ++ destruct (Hraise x H) as [->|(err & -> & Herr)]; [left; reflexivity|].
              right. exists err. split; [reflexivity|].
              apply raises_bind. right. exists a. split; [rewrite Heq; exact Ha|].
              apply raises_bind. left. exact Herr.
           ++ destruct (Hret2 kw key Hin Hnone b Hb).
      * intros v H. apply returns_bind in H as (a & Ha & H).
        apply returns_bind in H as (b & Hb & _). rewrite Heq in Ha.
        apply raises_bind. right. exists a. split; [exact Ha|].
        apply raises_bind. left. exact (Hreturn b Hb).
Qed.

Lemma reads_run_all args :
  Forall (fun c => reads (names c) (Code.run c)) args ->
  reads (concat (names <$> args)) (Code.run_all args).
Proof.
  induction 1 as [|c args Hc _ IH]; simpl.
  - apply (reads_numeric (Ret [])), numeric_ret.
  - apply (reads_binary _ _ (Code.run c) (Code.run_all args)
             (fun v vs => Ret (v :: vs)) Hc IH).
    intros v vs. apply numeric_ret.
Qed.

Lemma generated_reads c : generated c -> reads (names c) (Code.run c).
Proof.
  induction 1 as [v|s Hs|op lhs Hop IH|op lhs rhs Hop IHl IHr|op args Hop IH]
    using generated_ind'.
  - apply (reads_numeric (Ret v)), numeric_ret.
  - apply reads_getitem.
  - apply (reads_unary _ (Code.run lhs) op IH Hop).
  - apply (reads_binary _ _ (Code.run lhs) (Code.run rhs) op IHl IHr Hop).
  - apply (reads_unary _ (Code.run_all args) op (reads_run_all args IH) Hop).
Qed.

(** C7, amended: if a free name of the compiled expression is absent from
    the environment, evaluation fails: it returns no value, whatever the
    host answers, and raises an exception; and a lookup error that
    evaluation raises names a free name that is absent from the
    environment.  More precisely, the names are looked up in the order of
    the list of free names: when [key] is the first free name that the
    environment lacks, the only lookup error that can be raised names
    [key]; a numeric error that is raised instead comes from what is
    evaluated before the lookup of [key], it is raised as well in every
    environment that binds the names before [key] alike, whatever it
    binds from [key] on; and the lookup error of [key] is raised whenever
    the expression has a value in such an environment.  A variable alone
    with no binding raises its lookup error, and [x+1] with no binding of
    [x] raises the lookup error naming [x]. *)
Theorem missing_variable_fails e c (kw : env) :
  Code.gen e = Ok c ->
  (forall s, In s (names c) -> kw !! s = None ->
     (forall v, ~ returns (Code.run c kw) v) /\
     exists x, raises (Code.run c kw) x) /\
  (forall key, raises (Code.run c kw) (KeyError key) ->
     In key (names c) /\ kw !! key = None) /\
  (forall pre key, first_missing kw (names c) pre key ->
     (forall key', raises (Code.run c kw) (KeyError key') -> key' = key) /\
     (forall err, raises (Code.run c kw) (NumError err) ->
        forall kw', agree pre kw kw' -> raises (Code.run c kw') (NumError err)) /\
     (forall kw' v, agree pre kw kw' -> returns (Code.run c kw') v ->
        raises (Code.run c kw) (KeyError key))) /\
  (forall s, is_constant s = false -> kw !! s = None ->
     exists cs, Code.gen (EId s) = Ok cs /\ Code.run cs kw = Raise (KeyError s)) /\
  calc "x+1" ∅ = Ran (Raise (KeyError "x")).
Proof.
  intros Hgen. pose proof (gen_generated _ _ Hgen) as H.
  pose proof (generated_reads c H) as (_ & _ & _ & Hord).
  apply generated_lookup_sound in H.
  destruct (H kw) as [Hraise Hreturn].
  split; [|split; [exact Hraise | split; [|split; [|vm_compute; reflexivity]]]].
  - intros s Hin Hnone. split; [exact (Hreturn s Hin Hnone)|].
    destruct (returns_or_raises (Code.run c kw)) as [(v & Hv)|Hx]; [|exact Hx].
    destruct (Hreturn s Hin Hnone v Hv).
  - intros pre key Hfirst. split; [|split].
    + intros key' Hkey'.
      destruct (Hord kw kw pre key Hfirst (fun s _ => eq_refl)) as [Hx _].
      destruct (Hx _ Hkey') as [[= ->]|(err & [=] & _)]. reflexivity.
    + intros err Herr kw' Hpre.
      destruct (Hord kw kw' pre key Hfirst Hpre) as [Hx _].
      destruct (Hx _ Herr) as [[=]|(err' & [= <-] & Herr')]. exact Herr'.
    + intros kw' v Hpre Hv.
      destruct (Hord kw kw' pre key Hfirst Hpre) as [_ Hv']. exact (Hv' v Hv).
  - intros s Hs Hnone. exists (Code.variable s). split.
    + unfold is_constant in Hs. simpl.
      destruct (String.eqb s "e"); [discriminate Hs|].
      destruct (String.eqb s "pi"); [discriminate Hs|].
      destruct (String.eqb s "i"); [discriminate Hs|]. reflexivity.
    + unfold Code.run; simpl. unfold Code.getitem. rewrite Hnone. reflexivity.
Qed.

Lemma missing_variable_fails_witness :
  (forall s, In s ["y"; "x"] -> ({[ "y" := VInt 2 ]} : env) !! s = None ->
     (forall v, ~ returns
        (Code.run
           (Code.binary py_add
              (Code.binary py_div (Code.constant (VInt 1)) (Code.variable "y"))
              (Code.variable "x"))
           {[ "y" := VInt 2 ]}) v) /\
     exists x, raises
       (Code.run
          (Code.binary py_add
             (Code.binary py_div (Code.constant (VInt 1)) (Code.variable "y"))
             (Code.variable "x"))
          {[ "y" := VInt 2 ]}) x) /\
  (forall key,
     raises
       (Code.run
          (Code.binary py_add
             (Code.binary py_div (Code.constant (VInt 1)) (Code.variable "y"))
             (Code.variable "x"))
          {[ "y" := VInt 2 ]}) (KeyError key) ->
     In key ["y"; "x"] /\ ({[ "y" := VInt 2 ]} : env) !! key = None) /\
  (forall pre key, first_missing {[ "y" := VInt 2 ]} ["y"; "x"] pre key ->
     (forall key',
        raises
          (Code.run
             (Code.binary py_add
                (Code.binary py_div (Code.constant (VInt 1)) (Code.variable "y"))
                (Code.variable "x"))
             {[ "y" := VInt 2 ]}) (KeyError key') -> key' = key) /\
     (forall err,
        raises
          (Code.run
             (Code.binary py_add
                (Code.binary py_div (Code.constant (VInt 1)) (Code.variable "y"))
                (Code.variable "x"))
             {[ "y" := VInt 2 ]}) (NumError err) ->
        forall kw', agree pre {[ "y" := VInt 2 ]} kw' ->
          raises
            (Code.run
               (Code.binary py_add
                  (Code.binary py_div (Code.constant (VInt 1)) (Code.variable "y"))
                  (Code.variable "x"))
               kw') (NumError err)) /\
     (forall kw' v, agree pre {[ "y" := VInt 2 ]} kw' ->
        returns
          (Code.run
             (Code.binary py_add
                (Code.binary py_div (Code.constant (VInt 1)) (Code.variable "y"))
                (Code.variable "x"))
             kw') v ->
        raises
          (Code.run
             (Code.binary py_add
                (Code.binary py_div (Code.constant (VInt 1)) (Code.variable "y"))
                (Code.variable "x"))
             {[ "y" := VInt 2 ]}) (KeyError key))) /\
  (forall s, is_constant s = false -> ({[ "y" := VInt 2 ]} : env) !! s = None ->
     exists cs, Code.gen (EId s) = Ok cs /\
       Code.run cs {[ "y" := VInt 2 ]} = Raise (KeyError s)) /\
  calc "x+1" ∅ = Ran (Raise (KeyError "x")).
Proof.
  exact (missing_variable_fails (EOp "+" [EOp "/" [ENum "1"; EId "y"]; EId "x"])
           (Code.binary py_add
              (Code.binary py_div (Code.constant (VInt 1)) (Code.variable "y"))
              (Code.variable "x"))
           {[ "y" := VInt 2 ]} eq_refl).
Defined.

(** ** Free names *)

(** C9, as stated, fails: the second argument of [sin] is an operand of
    the tree whose name is not in the list. *)
Lemma names_skip_ignored_arguments :
  Parser2.parse "sin(x,y)" = Some (EApply "sin" [EId "x"; EId "y"]) /\
  names_of "sin(x,y)" = Some ["x"] /\
  names_of "x" = Some ["x"] /\
  names_of "y" = Some ["y"].
Proof. repeat split; vm_compute; reflexivity. Qed.

(** C9, amended: the list of free names of a compiled expression is the
    concatenation, in order and with duplicates kept, of the lists of the
    operands that [gen] compiles: both operands of a binary operator (the
    left one's names first), the operand of a unary one, every argument of
    [max] and [min], and the first argument only of any other builtin,
    whose further arguments contribute nothing.  A number and a constant
    contribute no name; another identifier contributes itself. *)
Theorem names_are_concatenated e c :
  Code.gen e = Ok c ->
  exists cs,
    Code.gen_all (compiled_children e) = Ok cs /\
    names c = (own_names e ++ concat (names <$> cs))%list.
Proof.
  intros H.
  destruct (gen_shape_of _ _ H)
    as [v Hshape ->
       |s' -> Hs ->
       |prim a rest lhs Hshape _ Ha ->
       |op' prim a b rest lhs rhs -> Hop _ Ha Hb ->
       |fn' args' cs -> Hmm Hcs ->].
  - exists []. destruct Hshape as [(text & ->)|(s & -> & Hs)]; simpl;
      [|rewrite Hs]; split; reflexivity.
  - exists []. simpl. rewrite Hs. split; reflexivity.
  - exists [lhs].
    destruct Hshape as [(op & -> & [Hu|(-> & -> & _)])|(fn & -> & Hfn)]; simpl.
    + rewrite Hu. simpl. rewrite Ha. simpl. rewrite app_nil_r. split; reflexivity.
    + rewrite Ha. simpl. rewrite app_nil_r. split; reflexivity.
    + assert (Hmm : is_minmax fn = false).
      { revert Hfn. unfold function_of, is_minmax. string_cases; try discriminate; reflexivity. }
      rewrite Hmm. simpl. rewrite Ha. simpl. rewrite app_nil_r. split; reflexivity.
  - exists [lhs; rhs]. simpl.
    assert (Hu : unary_of op' = None).
    { destruct Hop as [Hop|[-> _]]; [|reflexivity].
      revert Hop. unfold binary_of, unary_of. string_cases; try discriminate; reflexivity. }
    rewrite Hu. simpl. rewrite Ha, Hb. simpl. rewrite app_nil_r. split; reflexivity.
  - exists cs. simpl. rewrite Hmm. split; [exact Hcs | reflexivity].
Qed.

Lemma names_are_concatenated_witness :
  exists cs,
    Code.gen_all [EId "x"; EOp "+" [EId "y"; EId "x"]; ENum "1"; EId "pi"] = Ok cs /\
    ["x"; "y"; "x"] = concat (names <$> cs).
Proof.
  exact (names_are_concatenated
           (EApply "max" [EId "x"; EOp "+" [EId "y"; EId "x"]; ENum "1"; EId "pi"])
           (Code.nary py_min
              [Code.variable "x";
               Code.binary py_add (Code.variable "y") (Code.variable "x");
               Code.constant (VInt 1); Code.constant math_pi])
           eq_refl).
Defined.

(** ** The constants *)

(** C10: [e], [pi] and [i] compile to the constants; they are never among
    the free names of a compiled expression, and binding one of them in
    the environment does not change the evaluation. *)
Theorem constants_are_not_looked_up :
  Code.gen (EId "e") = Ok (Code.constant math_e) /\
  Code.gen (EId "pi") = Ok (Code.constant math_pi) /\
  Code.gen (EId "i") = Ok (Code.constant imaginary_unit) /\
  forall e c, Code.gen e = Ok c ->
    forall s, s = "e" \/ s = "pi" \/ s = "i" ->
      ~ In s (names c) /\
      forall (kw : env) v, Code.run c (<[s := v]> kw) = Code.run c kw.
Proof.
  split; [reflexivity | split; [reflexivity | split; [reflexivity|]]].
  intros e c H s Hs. apply gen_generated in H.
  assert (Hconst : is_constant s = true) by (destruct Hs as [->|[->| ->]]; reflexivity).
  assert (Hnot : ~ In s (names c)).
  { intros Hin. rewrite (generated_names c H s Hin) in Hconst. discriminate. }
  split; [exact Hnot|].
  intros kw v. apply generated_run_agree; [exact H|].
  intros s' Hin. apply lookup_insert_ne. intros ->. exact (Hnot Hin).
Qed.

Lemma constants_are_not_looked_up_witness :
  ~ In "e" ["x"] /\
  forall (kw : env) v,
    Code.run (Code.binary py_mul (Code.constant math_e) (Code.variable "x"))
      (<["e" := v]> kw) =
    Code.run (Code.binary py_mul (Code.constant math_e) (Code.variable "x")) kw.
Proof.
  exact (proj2 (proj2 (proj2 constants_are_not_looked_up))
           (EOp "*" [EId "e"; EId "x"])
           (Code.binary py_mul (Code.constant math_e) (Code.variable "x"))
           eq_refl "e" (or_introl eq_refl)).
Defined.

(** ** The lexer and the parser end

    The lexer's loop always reaches the end of the input and yields the
    end marker last; the parser stays within its recursion budget and
    never falls off the end of [parseE6]. *)

Lemma get_Some_lt s : forall i c, String.get i s = Some c -> (i < String.length s)%nat.
Proof.
  induction s as [|d s IH]; intros [|i] c H; simpl in *; try discriminate; try lia.
  apply IH in H. lia.
Qed.

Lemma num_match_digit data i c :
  String.get i data = Some c -> Char.isdigit c = true ->
  exists j, Lexer.num_match data i = Some j /\ (i < j)%nat.
Proof.
  intros Hget Hdigit. unfold Lexer.num_match. rewrite Hget, Hdigit.
  set (j := if Ascii.eqb c "0" then _ else _).
  assert (Hj : (i < j)%nat) by (subst j; destruct (Ascii.eqb c "0"); lia).
  destruct (String.get j data) as [dot|]; [|eauto].
  destruct (String.get (j + 1) data) as [d|]; [|eauto].
  destruct (Ascii.eqb dot "." && Char.isdigit d); eexists; (split; [reflexivity | lia]).
Qed.

Lemma ends_with_marker_cons lx toks :
  ends_with_marker toks -> ends_with_marker (lx :: toks).
Proof.
  intros (front & eof & -> & H). exists (lx :: front), eof. split; [reflexivity | exact H].
Qed.

Lemma lex_from_ends data : forall fuel i,
  (String.length data - i < fuel)%nat ->
  exists toks, Lexer.lex_from fuel data i = Some toks /\ ends_with_marker toks.
Proof.
  induction fuel as [|fuel IH]; intros i Hfuel; [lia|]. simpl.
  destruct (String.get i data) as [c|] eqn:Hget.
  - apply get_Some_lt in Hget as Hlt.
    assert (Hnext : forall j lx, (i < j)%nat ->
              exists toks, cons lx <$> Lexer.lex_from fuel data j = Some toks /\
                           ends_with_marker toks).
    { intros j lx Hj. destruct (IH j) as (toks & -> & Htoks); [lia|].
      exists (lx :: toks). split; [reflexivity | apply ends_with_marker_cons, Htoks]. }
    destruct (Char.isspace c); [apply IH; lia|].
    destruct (Char.isalpha c); [apply Hnext; lia|].
    destruct (Char.isdigit c) eqn:Hdigit.
    + unfold Lexer.lexnum.
      destruct (num_match_digit _ _ _ Hget Hdigit) as (j & -> & Hj). apply Hnext, Hj.
    + destruct (String.eqb _ "//"); apply Hnext; lia.
  - eexists. split; [reflexivity|]. exists [], (mkLexeme "$" (Z.of_nat i) None).
    split; [reflexivity | split; reflexivity].
Qed.

(** The lexer never raises, and the end marker is the last lexeme. *)
Lemma lex_total data :
  exists toks, Lexer.lex data = Some toks /\ ends_with_marker toks.
Proof. apply lex_from_ends. lia. Qed.

Lemma ends_mono {A} bound bound' (r : Parser2.presult A) :
  (bound <= bound')%nat -> ends bound r -> ends bound' r.
Proof. destruct r; simpl; lia. Qed.

Lemma ends_bind {A B} b1 b (m : Parser2.parser A) (k : A -> Parser2.parser B) st :
  ends b1 (m st) ->
  (forall a st', (size st' < b1)%nat -> ends b (k a st')) ->
  ends b (Parser2.bind m k st).
Proof.
  unfold Parser2.bind. destruct (m st) as [a st'| | |]; simpl; try tauto.
  intros H1 H2. apply H2, H1.
Qed.

Lemma bind_lxin {B} names (k : bool -> Parser2.parser B) st :
  Parser2.bind (Parser2.lxin names) k st =
  k (existsb (String.eqb (lx_name (Parser2.cur st))) names) st.
Proof. reflexivity. Qed.

Lemma bind_get_cur {B} (k : Lexeme -> Parser2.parser B) st :
  Parser2.bind Parser2.get_cur k st = k (Parser2.cur st) st.
Proof. reflexivity. Qed.

Lemma ends_next st : ends (size st) (Parser2.next st).
Proof.
  unfold Parser2.next, size.
  destruct (String.eqb (lx_name (Parser2.cur st)) "$"); simpl; [exact I|].
  destruct (Parser2.rest st) as [|t r]; simpl; unfold size; simpl; [lia|].
  destruct (String.eqb (lx_name t) "$"); lia.
Qed.

(** A method that consumes the lookahead and goes on. *)
Lemma ends_after_next {B} b (k : unit -> Parser2.parser B) st :
  (forall st', (size st' < size st)%nat -> ends b (k tt st')) ->
  ends b (Parser2.bind Parser2.next k st).
Proof.
  intros H. eapply ends_bind; [apply ends_next|]. intros [] st'. apply H.
Qed.

Lemma ends_ret {A} b (a : A) st : (size st < b)%nat -> ends b (Parser2.ret a st).
Proof. intros H. exact H. Qed.

Lemma ends_error {A} b st : ends b (@Parser2.error A st).
Proof. exact I. Qed.

Lemma parseE5__ends : forall k st,
  (size st < k)%nat -> ends (S (size st)) (Parser2.parseE5_ k st).
Proof.
  induction k as [|k IH]; intros st Hk; [lia|].
  rewrite parseE5__eq.
  rewrite bind_lxin. destruct (existsb _ ["!"]).
  - apply ends_after_next. intros st1 H1.
    eapply ends_bind; [apply IH; lia|]. intros r st2 H2.
    destruct r; apply ends_ret; lia.
  - rewrite bind_lxin. destruct (existsb _ follow_E5); [apply ends_ret; lia | apply ends_error].
Qed.

Lemma parseEx__ends names skips (f1 : Parser2.parser Expr) s :
  (forall st, (size st < s)%nat -> ends (size st) (f1 st)) ->
  forall k st, (size st <= s)%nat -> (size st < k)%nat ->
    ends (S (size st)) (Parser2.parseEx_ k names skips f1 st).
Proof.
  intros Hf1. induction k as [|k IH]; intros st Hs Hk; [lia|].
  rewrite parseEx__eq.
  rewrite bind_lxin. destruct (existsb _ names).
  - rewrite bind_get_cur. apply ends_after_next. intros st1 H1.
    eapply ends_bind; [apply Hf1; lia|]. intros lhs st2 H2.
    eapply ends_bind; [apply IH; lia|]. intros lst st3 H3.
    apply ends_ret. lia.
  - rewrite bind_lxin. destruct (existsb _ skips); [apply ends_ret; lia | apply ends_error].
Qed.

Lemma parseEx_ends names (f1 : Parser2.parser Expr) f2 right st :
  ends (size st) (f1 st) ->
  (forall st', (size st' < size st)%nat -> ends (S (size st')) (f2 st')) ->
  ends (size st) (Parser2.parseEx names f1 f2 right st).
Proof.
  intros H1 H2. unfold Parser2.parseEx. rewrite bind_lxin.
  destruct (negb _); [apply ends_error|].
  eapply ends_bind; [exact H1|]. intros lhs st1 Hst1.
  eapply ends_bind; [apply H2, Hst1|]. intros lst st2 Hst2.
  destruct lst; [|destruct right]; apply ends_ret; lia.
Qed.

Lemma all_safe_step n : all_safe n -> all_safe (S n).
Proof.
  intros [HE1 HE2 HE3 HE4 HE5 HE6 HA HL HL_ HE1_ HE2_ HE4_].
  unfold safe, id in *. split; unfold safe, id; intros st Hn.
  - apply parseEx_ends; [apply HE2; lia | intros st' Hst'; apply HE1_; lia].
  - apply parseEx_ends; [apply HE3; lia | intros st' Hst'; apply HE2_; lia].
  - rewrite parseE3_eq.
    rewrite bind_lxin. destruct (existsb _ ["-"]).
    + apply ends_after_next. intros st1 H1.
      eapply ends_bind; [apply HE3; lia|]. intros e st2 H2. apply ends_ret. lia.
    + rewrite bind_lxin. destruct (existsb _ Parser2.first_E4);
        [apply HE4; lia | apply ends_error].
  - apply parseEx_ends; [apply HE5; lia | intros st' Hst'; apply HE4_; lia].
  - rewrite parseE5_eq.
    rewrite bind_lxin.
    destruct (existsb _ Parser2.first_E4) eqn:Hatom; [|apply ends_error].
    eapply ends_bind; [apply HE6; [lia | exact Hatom]|]. intros e st1 H1.
    eapply ends_bind; [apply parseE5__ends; lia|]. intros r st2 H2.
    destruct r; apply ends_ret; lia.
  - intros Hatom.
    rewrite parseE6_eq.
    rewrite bind_get_cur. unfold at_atom, Parser2.first_E4 in Hatom. simpl in Hatom.
    destruct (String.eqb (lx_name (Parser2.cur st)) "num").
    { apply ends_after_next. intros st1 H1. apply ends_ret. lia. }
    destruct (String.eqb (lx_name (Parser2.cur st)) "id").
    { apply ends_after_next. intros st1 H1.
      eapply ends_bind; [apply HA; lia|]. intros a st2 H2.
      destruct a; apply ends_ret; lia. }
    destruct (String.eqb (lx_name (Parser2.cur st)) "(").
    { apply ends_after_next. intros st1 H1.
      eapply ends_bind; [apply HE1; lia|]. intros e1 st2 H2.
      rewrite bind_lxin. destruct (existsb _ [")"]); [|apply ends_error].
      apply ends_after_next. intros st3 H3. apply ends_ret. lia. }
    destruct (String.eqb (lx_name (Parser2.cur st)) "|"); [|discriminate Hatom].
    apply ends_after_next. intros st1 H1.
    eapply ends_bind; [apply HE1; lia|]. intros e1 st2 H2.
    rewrite bind_lxin. destruct (existsb _ ["|"]); [|apply ends_error].
    apply ends_after_next. intros st3 H3. apply ends_ret. lia.
  - rewrite parseA_eq.
    rewrite bind_lxin. destruct (existsb _ ["("]).
    + apply ends_after_next. intros st1 H1.
      eapply ends_bind; [apply HL; lia|]. intros ll st2 H2.
      rewrite bind_lxin. destruct (existsb _ [")"]); [|apply ends_error].
      apply ends_after_next. intros st3 H3. apply ends_ret. lia.
    + rewrite bind_lxin. destruct (existsb _ _); [apply ends_ret; lia | apply ends_error].
  - rewrite parseL_eq.
    rewrite bind_lxin. destruct (existsb _ Parser2.first_E1); [|apply ends_error].
    eapply ends_bind; [apply HE1; lia|]. intros e1 st1 H1.
    eapply ends_bind; [apply HL_; lia|]. intros l_ st2 H2.
    destruct l_; apply ends_ret; lia.
  - rewrite parseL__eq.
    rewrite bind_lxin. destruct (existsb _ [","]).
    + apply ends_after_next. intros st1 H1.
      eapply ends_bind; [apply HE1; lia|]. intros e1 st2 H2.
      eapply ends_bind; [apply HL_; lia|]. intros l_ st3 H3.
      destruct l_; apply ends_ret; lia.
    + rewrite bind_lxin. destruct (existsb _ [")"]); [apply ends_ret; lia | apply ends_error].
  - destruct n as [|n]; [lia|].
    apply (parseEx__ends _ _ _ (size st)); [|lia|lia].
    intros st' Hst'. apply HE2. lia.
  - destruct n as [|n]; [lia|].
    apply (parseEx__ends _ _ _ (size st)); [|lia|lia].
    intros st' Hst'. apply HE3. lia.
  - destruct n as [|n]; [lia|].
    apply (parseEx__ends _ _ _ (size st)); [|lia|lia].
    intros st' Hst'. apply HE5. lia.
Qed.

Lemma all_safe_always n : all_safe n.
Proof.
  induction n as [|n IH]; [|apply all_safe_step, IH].
  split; unfold safe; intros st Hn; lia.
Qed.

Lemma size_le st : (size st <= S (length (Parser2.rest st)))%nat.
Proof. unfold size. destruct (String.eqb _ "$"); lia. Qed.

(** Whatever the input, the model of [parse] returns a tree or raises a
    parse error: the lexer does not fail, the budget of the model is
    never spent, and [parseE6] is never left without a value.  (In the
    program a deeply nested input can also end at the interpreter's
    recursion limit, which the model leaves out.) *)
Lemma parse_total data :
  match Parser2.parse_state data with
  | Parser2.Parsed _ _ | Parser2.ParseError _ => True
  | _ => False
  end.
Proof.
  unfold Parser2.parse_state.
  destruct (lex_total data) as (toks & -> & front & eof & -> & _).
  assert (Hne : exists t r, (front ++ [eof])%list = t :: r)
    by (destruct front; simpl; eauto).
  destruct Hne as (t & r & ->).
  assert (H : ends (size (Parser2.mkState t r))
                (Parser2.parseP (Parser2.budget (t :: r)) (Parser2.mkState t r))).
  { unfold Parser2.parseP. rewrite bind_lxin. destruct (negb _); [apply ends_error|].
    apply (safe_E1 _ (all_safe_always _)).
    pose proof (size_le (Parser2.mkState t r)) as Hle.
    unfold Parser2.budget. simpl in *. lia. }
  destruct (Parser2.parseP _ _); simpl in H; tauto.
Qed.

(** ** The parser returns trees of the grammar *)

#[local] Arguments Ascii.eqb : simpl never.

Lemma digits_value_some s : forall acc,
  all_digits s = true -> is_Some (digits_value acc s).
Proof.
  induction s as [|c s IH]; simpl; intros acc H; [eexists; reflexivity|].
  apply andb_true_iff in H as [-> H]. apply IH, H.
Qed.

Lemma all_digits_app s t :
  all_digits s = true -> all_digits t = true -> all_digits (s ++ t) = true.
Proof.
  intros Hs Ht. induction s as [|c s IH]; simpl in *; [exact Ht|].
  apply andb_true_iff in Hs as [-> Hs]. apply IH, Hs.
Qed.

Lemma all_digits_no_dot s : all_digits s = true -> contains "." s = false.
Proof.
  induction s as [|c s IH]; simpl; [reflexivity|]. intros H.
  apply andb_true_iff in H as [Hc H]. rewrite (IH H), orb_false_r.
  destruct (Ascii.eqb_spec "."%char c) as [<-|]; [discriminate Hc | reflexivity].
Qed.

(** A literal without a fraction: one digit or more. *)
Lemma literal_ok_digits c s :
  all_digits (String c s) = true -> literal_ok (String c s) = true.
Proof.
  intros H. unfold literal_ok. rewrite (all_digits_no_dot _ H).
  apply bool_decide_eq_true. unfold py_int. apply digits_value_some, H.
Qed.

(** A literal with a fraction: digits, a dot, digits. *)
Lemma literal_ok_fraction c ip fp :
  all_digits (String c ip) = true -> all_digits fp = true ->
  literal_ok (String c ip ++ String "." fp) = true.
Proof.
  set (whole := String c ip). intros Hip Hfp. unfold literal_ok.
  assert (Hdot : contains "." (whole ++ String "." fp) = true).
  { clear. induction whole as [|d w IH]; simpl; [reflexivity|].
    rewrite IH. apply orb_true_r. }
  rewrite Hdot. apply bool_decide_eq_true. unfold py_float.
  assert (Hn : Lexer.count_while (fun c => negb (Ascii.eqb c ".")) (whole ++ String "." fp)
               = String.length whole).
  { clear - Hip. induction whole as [|d w IH]; simpl; [reflexivity|]. simpl in Hip.
    apply andb_true_iff in Hip as [Hd Hip]. rewrite (IH Hip).
    destruct (Ascii.eqb_spec d "."%char) as [->|]; [discriminate Hd | reflexivity]. }
  rewrite Hn.
  assert (Hslice : Lexer.slice (whole ++ String "." fp) 0 (String.length whole) = whole).
  { unfold Lexer.slice. rewrite Nat.sub_0_r. clear.
    induction whole as [|d w IH]; simpl; [reflexivity | rewrite IH; reflexivity]. }
  assert (Hdrop : Lexer.drop (String.length whole + 1) (whole ++ String "." fp) = fp).
  { clear. induction whole as [|d w IH]; simpl; [reflexivity | exact IH]. }
  rewrite Hslice, Hdrop. subst whole. simpl String.length. simpl Nat.eqb.
  destruct (digits_value_some (String c ip ++ fp) 0 (all_digits_app _ _ Hip Hfp)) as [z ->].
  destruct z; eexists; reflexivity.
Qed.

Lemma get_drop s : forall i, String.get i s = String.get 0 (Lexer.drop i s).
Proof.
  induction s as [|c s IH]; intros [|i]; simpl; try reflexivity. apply IH.
Qed.

Lemma substring_drop s : forall i n,
  String.substring i n s = String.substring 0 n (Lexer.drop i s).
Proof.
  induction s as [|c s IH]; intros [|i] n; simpl; try reflexivity.
  - destruct n; reflexivity.
  - apply IH.
Qed.

Lemma drop_add s : forall a b, Lexer.drop (a + b) s = Lexer.drop b (Lexer.drop a s).
Proof.
  induction s as [|c s IH]; intros [|a] b; simpl; try reflexivity.
  - destruct b; reflexivity.
  - apply IH.
Qed.

Lemma all_digits_prefix s : forall k,
  (k <= Lexer.count_while Char.isdigit s)%nat ->
  all_digits (String.substring 0 k s) = true.
Proof.
  induction s as [|c s IH]; intros [|k] H; simpl in *; try reflexivity; try lia.
  destruct (Char.isdigit c); simpl in *; [apply IH; lia | lia].
Qed.

Lemma substring_split s : forall k m,
  (k <= String.length s)%nat ->
  String.substring 0 (k + m) s =
  String.substring 0 k s ++ String.substring 0 m (Lexer.drop k s).
Proof.
  induction s as [|c s IH]; intros [|k] m Hk; simpl in *; try reflexivity; try lia.
  rewrite IH; [reflexivity | lia].
Qed.

Lemma count_while_le p s : (Lexer.count_while p s <= String.length s)%nat.
Proof. induction s as [|c s IH]; simpl; [lia | destruct (p c); lia]. Qed.

Lemma literal_of_digits c s k :
  Char.isdigit c = true -> (k <= Lexer.count_while Char.isdigit s)%nat ->
  literal_ok (String c (String.substring 0 k s)) = true.
Proof.
  intros Hc Hk. apply literal_ok_digits. simpl. rewrite Hc. apply all_digits_prefix, Hk.
Qed.

Lemma literal_of_fraction c s k d t :
  Char.isdigit c = true -> (k <= Lexer.count_while Char.isdigit s)%nat ->
  Lexer.drop k s = String "." (String d t) ->
  literal_ok
    (String c (String.substring 0 (k + S (Lexer.count_while Char.isdigit (String d t))) s))
  = true.
Proof.
  intros Hc Hk Hdrop.
  rewrite substring_split by (pose proof (count_while_le Char.isdigit s); lia).
  rewrite Hdrop.
  change (String.substring 0 (S ?m) (String "." ?u)) with (String "." (String.substring 0 m u)).
  apply (literal_ok_fraction c).
  - simpl. rewrite Hc. apply all_digits_prefix, Hk.
  - apply all_digits_prefix. lia.
Qed.

Lemma num_match_from data i c s k j :
  Lexer.drop i data = String c s -> Char.isdigit c = true ->
  (k <= Lexer.count_while Char.isdigit s)%nat ->
  match String.get (i + 1 + k) data, String.get (i + 1 + k + 1) data with
  | Some dot, Some d =>
      if Ascii.eqb dot "." && Char.isdigit d
      then Some (i + 1 + k + 1 +
                 Lexer.count_while Char.isdigit (Lexer.drop (i + 1 + k + 1) data))%nat
      else Some (i + 1 + k)%nat
  | _, _ => Some (i + 1 + k)%nat
  end = Some j ->
  literal_ok (Lexer.slice data i j) = true.
Proof.
  intros Hsuf Hc Hk. unfold Lexer.slice. rewrite substring_drop, Hsuf.
  assert (Hplain : literal_ok (String.substring 0 (i + 1 + k - i) (String c s)) = true).
  { replace (i + 1 + k - i)%nat with (S k) by lia. apply literal_of_digits; assumption. }
  assert (Hs : forall n, Lexer.drop (i + 1 + k + n) data = Lexer.drop n (Lexer.drop k s)).
  { intros n. replace (i + 1 + k + n)%nat with (i + (1 + (k + n)))%nat by lia.
    rewrite drop_add, Hsuf. simpl. apply drop_add. }
  rewrite (get_drop data (i + 1 + k)), (get_drop data (i + 1 + k + 1)).
  rewrite Hs. replace (i + 1 + k)%nat with (i + 1 + k + 0)%nat at 1 by lia. rewrite Hs.
  destruct (Lexer.drop k s) as [|dot [|d t]] eqn:Hdrop; simpl;
    try (intros [= <-]; exact Hplain).
  destruct (Ascii.eqb_spec dot "."%char) as [->|]; simpl; [|intros [= <-]; exact Hplain].
  destruct (Char.isdigit d) eqn:Hd; [|intros [= <-]; exact Hplain].
  intros [= <-].
  replace (i + 1 + k + 1 + S (Lexer.count_while Char.isdigit t) - i)%nat
    with (S (k + S (S (Lexer.count_while Char.isdigit t)))) by lia.
  pose proof (literal_of_fraction c s k d t Hc Hk Hdrop) as H.
  simpl in H. rewrite Hd in H. exact H.
Qed.

(** The text of a number lexeme is a literal. *)
Lemma num_match_literal data i j :
  Lexer.num_match data i = Some j -> literal_ok (Lexer.slice data i j) = true.
Proof.
  unfold Lexer.num_match. rewrite (get_drop data i).
  destruct (Lexer.drop i data) as [|c s] eqn:Hsuf; [simpl; discriminate|].
  cbv beta iota. simpl String.get at 1. cbv beta iota.
  destruct (Char.isdigit c) eqn:Hc; [|discriminate].
  destruct (Ascii.eqb c "0").
  - replace (i + 1)%nat with (i + 1 + 0)%nat by lia.
    apply (num_match_from data i c s 0 j Hsuf Hc). lia.
  - apply (num_match_from data i c s _ j Hsuf Hc).
    rewrite drop_add, Hsuf. simpl. lia.
Qed.

Lemma token_ok_other name pos data : name <> "num" -> token_ok (mkLexeme name pos data).
Proof. intros Hne Hname. destruct (Hne Hname). Qed.

(** Every number among the lexemes of the lexer is a literal. *)
Lemma lex_from_tokens_ok data : forall fuel i toks,
  Lexer.lex_from fuel data i = Some toks -> Forall token_ok toks.
Proof.
  induction fuel as [|fuel IH]; intros i toks; simpl; [intros [= <-]; constructor|].
  assert (Hcons : forall lx j toks,
            token_ok lx -> cons lx <$> Lexer.lex_from fuel data j = Some toks ->
            Forall token_ok toks).
  { intros lx j toks' Hlx H. destruct (Lexer.lex_from fuel data j) as [l|] eqn:Hl; [|discriminate].
    injection H as <-. constructor; [exact Hlx | apply (IH _ _ Hl)]. }
  destruct (String.get i data) as [c|].
  - destruct (Char.isspace c); [apply IH|].
    destruct (Char.isalpha c); [apply Hcons, token_ok_other; discriminate|].
    destruct (Char.isdigit c).
    + unfold Lexer.lexnum. destruct (Lexer.num_match data i) as [j|] eqn:Hj; [|discriminate].
      apply Hcons. intros _. apply num_match_literal, Hj.
    + destruct (String.eqb _ "//"); apply Hcons, token_ok_other; discriminate.
  - intros [= <-]. repeat constructor. apply token_ok_other. discriminate.
Qed.

Lemma yields_bind {A B} (Q : A -> Prop) (P : B -> Prop)
    (m : Parser2.parser A) (k : A -> Parser2.parser B) st :
  yields Q (m st) ->
  (forall a st', state_ok st' -> Q a -> yields P (k a st')) ->
  yields P (Parser2.bind m k st).
Proof.
  unfold Parser2.bind. destruct (m st) as [a st'| | |]; simpl; try tauto.
  intros [Hst Ha] Hk. apply Hk; assumption.
Qed.

Lemma yields_next st : state_ok st -> yields (fun _ => True) (Parser2.next st).
Proof.
  intros [_ Hrest]. unfold Parser2.next. destruct (String.eqb _ "$"); [exact I|].
  destruct Hrest as [|t r Ht Hr]; simpl.
  - split; [split; [intros H; discriminate H | constructor] | exact I].
  - split; [split; assumption | exact I].
Qed.

Lemma yields_after_next {B} (P : B -> Prop) (k : unit -> Parser2.parser B) st :
  state_ok st ->
  (forall st', state_ok st' -> yields P (k tt st')) ->
  yields P (Parser2.bind Parser2.next k st).
Proof.
  intros Hst Hk. eapply yields_bind; [apply yields_next, Hst|].
  intros [] st' Hst' _. apply Hk, Hst'.
Qed.

Lemma yields_ret {A} (P : A -> Prop) a st : state_ok st -> P a -> yields P (Parser2.ret a st).
Proof. intros Hst Ha. split; assumption. Qed.

Lemma yields_error {A} (P : A -> Prop) st : yields P (@Parser2.error A st).
Proof. exact I. Qed.

Lemma existsb_eqb_In s names :
  existsb (String.eqb s) names = true -> In s names.
Proof.
  intros H. apply existsb_exists in H as (x & Hx & Heq).
  apply String.eqb_eq in Heq as ->. exact Hx.
Qed.

Lemma tree_op2 op a b :
  arity_ok op 2 = true -> tree a -> tree b -> tree (EOp op [a; b]).
Proof.
  unfold tree. intros Hop Ha Hb. simpl. rewrite Hop, Ha, Hb. reflexivity.
Qed.

Lemma tree_op1 op a :
  arity_ok op 1 = true -> tree a -> tree (EOp op [a]).
Proof.
  unfold tree. intros Hop Ha. simpl. rewrite Hop, Ha. reflexivity.
Qed.

Lemma tree_apply fn args : trees args -> tree (EApply fn args).
Proof.
  unfold trees, tree. intros [Hne Hargs]. simpl.
  destruct args as [|a args]; [destruct (Hne eq_refl)|].
  change (forallb well_formed (a :: args) = true).
  apply forallb_forall. intros x Hx. rewrite Forall_forall in Hargs.
  apply Hargs, list_elem_of_In, Hx.
Qed.

Lemma fold_left_ops_tree lst : forall expr,
  tree expr -> operands lst -> tree (Parser2.fold_left_ops expr lst).
Proof.
  induction lst as [|[op e] lst IH]; intros expr Hexpr Hlst; simpl; [exact Hexpr|].
  apply Forall_cons in Hlst as [[Hop He] Hlst].
  apply IH; [apply tree_op2; assumption | exact Hlst].
Qed.

Lemma fold_right_ops_tree lst : forall lhs,
  tree lhs -> operands lst -> tree (Parser2.fold_right_ops lhs lst).
Proof.
  induction lst as [|[op e] lst IH]; intros lhs Hlhs Hlst; simpl; [exact Hlhs|].
  apply Forall_cons in Hlst as [[Hop He] Hlst].
  apply tree_op2; [exact Hop | exact Hlhs | apply IH; assumption].
Qed.

Lemma parseE5__yields : forall k st,
  state_ok st -> yields (fun _ => True) (Parser2.parseE5_ k st).
Proof.
  induction k as [|k IH]; intros st Hst; [exact I|].
  rewrite parseE5__eq, bind_lxin. destruct (existsb _ ["!"]).
  - apply yields_after_next; [exact Hst|]. intros st1 Hst1.
    eapply yields_bind; [apply IH, Hst1|]. intros r st2 Hst2 _.
    destruct r; apply yields_ret; trivial.
  - rewrite bind_lxin. destruct (existsb _ follow_E5);
      [apply yields_ret; trivial | apply yields_error].
Qed.

Lemma parseEx__yields names skips (f1 : Parser2.parser Expr) :
  produces tree f1 ->
  (forall op, In op names -> arity_ok op 2 = true) ->
  forall k, produces operands (Parser2.parseEx_ k names skips f1).
Proof.
  intros Hf1 Hnames. induction k as [|k IH]; intros st Hst; [exact I|].
  rewrite parseEx__eq, bind_lxin.
  destruct (existsb _ names) eqn:Hin.
  - rewrite bind_get_cur. apply yields_after_next; [exact Hst|]. intros st1 Hst1.
    eapply yields_bind; [apply Hf1, Hst1|]. intros lhs st2 Hst2 Hlhs.
    eapply yields_bind; [apply IH, Hst2|]. intros lst st3 Hst3 Hlst.
    apply yields_ret; [exact Hst3|]. constructor; [|exact Hlst].
    split; [apply Hnames, existsb_eqb_In, Hin | exact Hlhs].
  - rewrite bind_lxin. destruct (existsb _ skips);
      [apply yields_ret; [exact Hst | constructor] | apply yields_error].
Qed.

Lemma parseEx_yields names (f1 : Parser2.parser Expr) f2 right :
  produces tree f1 -> produces operands f2 ->
  produces tree (Parser2.parseEx names f1 f2 right).
Proof.
  intros H1 H2 st Hst. unfold Parser2.parseEx. rewrite bind_lxin.
  destruct (negb _); [apply yields_error|].
  eapply yields_bind; [apply H1, Hst|]. intros lhs st1 Hst1 Hlhs.
  eapply yields_bind; [apply H2, Hst1|]. intros lst st2 Hst2 Hlst.
  destruct lst as [|p lst]; [apply yields_ret; assumption|].
  destruct right; apply yields_ret; try exact Hst2.
  - apply fold_right_ops_tree; assumption.
  - apply fold_left_ops_tree; assumption.
Qed.

Lemma arity_ok_names names op :
  forallb (fun op => arity_ok op 2) names = true -> In op names -> arity_ok op 2 = true.
Proof. intros H Hin. rewrite forallb_forall in H. apply H, Hin. Qed.

Lemma all_trees_step n : all_trees n -> all_trees (S n).
Proof.
  intros [HE1 HE2 HE3 HE4 HE5 HE6 HA HL HL_ HE1_ HE2_ HE4_].
  split.
  - apply parseEx_yields; assumption.
  - apply parseEx_yields; assumption.
  - intros st Hst. rewrite parseE3_eq, bind_lxin. destruct (existsb _ ["-"]).
    + apply yields_after_next; [exact Hst|]. intros st1 Hst1.
      eapply yields_bind; [apply HE3, Hst1|]. intros e st2 Hst2 He.
      apply yields_ret; [exact Hst2 | apply tree_op1; [reflexivity | exact He]].
    + rewrite bind_lxin. destruct (existsb _ Parser2.first_E4);
        [apply HE4, Hst | apply yields_error].
  - apply parseEx_yields; assumption.
  - intros st Hst. rewrite parseE5_eq, bind_lxin.
    destruct (existsb _ Parser2.first_E4); [|apply yields_error].
    eapply yields_bind; [apply HE6, Hst|]. intros e st1 Hst1 He.
    eapply yields_bind; [apply parseE5__yields, Hst1|]. intros r st2 Hst2 _.
    destruct r; apply yields_ret; try assumption.
    apply tree_op1; [reflexivity | exact He].
  - intros st Hst. rewrite parseE6_eq, bind_get_cur.
    destruct (String.eqb_spec (lx_name (Parser2.cur st)) "num") as [Hnum|_].
    { apply yields_after_next; [exact Hst|]. intros st1 Hst1.
      apply yields_ret; [exact Hst1|]. destruct Hst as [Hcur _]. apply Hcur, Hnum. }
    destruct (String.eqb (lx_name (Parser2.cur st)) "id").
    { apply yields_after_next; [exact Hst|]. intros st1 Hst1.
      eapply yields_bind; [apply HA, Hst1|]. intros a st2 Hst2 Ha.
      destruct a as [l|]; apply yields_ret; try exact Hst2;
        [apply tree_apply, Ha; reflexivity | reflexivity]. }
    destruct (String.eqb (lx_name (Parser2.cur st)) "(").
    { apply yields_after_next; [exact Hst|]. intros st1 Hst1.
      eapply yields_bind; [apply HE1, Hst1|]. intros e1 st2 Hst2 He1.
      rewrite bind_lxin. destruct (existsb _ [")"]); [|apply yields_error].
      apply yields_after_next; [exact Hst2|]. intros st3 Hst3.
      apply yields_ret; assumption. }
    destruct (String.eqb (lx_name (Parser2.cur st)) "|"); [|exact I].
    apply yields_after_next; [exact Hst|]. intros st1 Hst1.
    eapply yields_bind; [apply HE1, Hst1|]. intros e1 st2 Hst2 He1.
    rewrite bind_lxin. destruct (existsb _ ["|"]); [|apply yields_error].
    apply yields_after_next; [exact Hst2|]. intros st3 Hst3.
    apply yields_ret; [exact Hst3 | apply tree_op1; [reflexivity | exact He1]].
  - intros st Hst. rewrite parseA_eq, bind_lxin. destruct (existsb _ ["("]).
    + apply yields_after_next; [exact Hst|]. intros st1 Hst1.
      eapply yields_bind; [apply HL, Hst1|]. intros ll st2 Hst2 Hll.
      rewrite bind_lxin. destruct (existsb _ [")"]); [|apply yields_error].
      apply yields_after_next; [exact Hst2|]. intros st3 Hst3.
      apply yields_ret; [exact Hst3|]. intros l [= <-]. exact Hll.
    + rewrite bind_lxin. destruct (existsb _ _); [|apply yields_error].
      apply yields_ret; [exact Hst|]. intros l H. discriminate H.
  - intros st Hst. rewrite parseL_eq, bind_lxin.
    destruct (existsb _ Parser2.first_E1); [|apply yields_error].
    eapply yields_bind; [apply HE1, Hst|]. intros e1 st1 Hst1 He1.
    eapply yields_bind; [apply HL_, Hst1|]. intros l_ st2 Hst2 Hl_.
    destruct l_ as [l|]; apply yields_ret; try exact Hst2.
    + destruct (Hl_ l eq_refl) as [_ Hl]. split; [discriminate|].
      constructor; assumption.
    + split; [discriminate | repeat constructor; exact He1].
  - intros st Hst. rewrite parseL__eq, bind_lxin. destruct (existsb _ [","]).
    + apply yields_after_next; [exact Hst|]. intros st1 Hst1.
      eapply yields_bind; [apply HE1, Hst1|]. intros e1 st2 Hst2 He1.
      eapply yields_bind; [apply HL_, Hst2|]. intros l_ st3 Hst3 Hl_.
      destruct l_ as [l|]; apply yields_ret; try exact Hst3; intros l' [= <-].
      * destruct (Hl_ l eq_refl) as [_ Hl]. split; [discriminate|].
        constructor; assumption.
      * split; [discriminate | repeat constructor; exact He1].
    + rewrite bind_lxin. destruct (existsb _ [")"]); [|apply yields_error].
      apply yields_ret; [exact Hst|]. intros l H. discriminate H.
  - destruct n as [|n]; [intros st _; exact I|].
    apply parseEx__yields; [exact HE2 | intros op; apply arity_ok_names; reflexivity].
  - destruct n as [|n]; [intros st _; exact I|].
    apply parseEx__yields; [exact HE3 | intros op; apply arity_ok_names; reflexivity].
  - destruct n as [|n]; [intros st _; exact I|].
    apply parseEx__yields; [exact HE5 | intros op; apply arity_ok_names; reflexivity].
Qed.

Lemma all_trees_always n : all_trees n.
Proof.
  induction n as [|n IH]; [|apply all_trees_step, IH].
  split; intros st _; exact I.
Qed.

(** What [parse] returns is a tree of the grammar: its numbers are
    literals, its operators have their operands and its applications have
    an argument. *)
Lemma parse_well_formed data e :
  Parser2.parse data = Some e -> well_formed e = true.
Proof.
  unfold Parser2.parse, Parser2.parse_state.
  destruct (Lexer.lex data) as [[|t r]|] eqn:Hlex; try discriminate.
  apply lex_from_tokens_ok in Hlex. apply Forall_cons in Hlex as [Ht Hr].
  assert (H : yields tree (Parser2.parseP (Parser2.budget (t :: r)) (Parser2.mkState t r))).
  { unfold Parser2.parseP. rewrite bind_lxin. destruct (negb _); [apply yields_error|].
    apply (trees_E1 _ (all_trees_always _)). split; assumption. }
  destruct (Parser2.parseP _ _) as [e' st| | |]; try discriminate.
  intros [= <-]. exact (proj2 H).
Qed.

(** So whatever parses either compiles or is refused for its first
    unknown function: [gen] raises nothing else on the parser's trees. *)
Lemma parsed_compiles_or_undefined data e :
  Parser2.parse data = Some e ->
  match first_undefined e with
  | Some fn => Code.gen e = Err (NotDefined fn)
  | None => exists c, Code.gen e = Ok c
  end.
Proof. intros H. apply undefined_complete, (parse_well_formed _ _ H). Qed.

(** ** Unary minus and the power operator *)

(** *** The budget does not matter

    A method that returns or raises within a budget does the same within
    a larger one. *)
Lemma extends_refl {A} (p : Parser2.parser A) : extends p p.
Proof. intros st _. reflexivity. Qed.

Lemma extends_trans {A} (p q r : Parser2.parser A) :
  extends p q -> extends q r -> extends p r.
Proof.
  intros Hpq Hqr st H. rewrite <- (Hpq st H). apply Hqr. rewrite (Hpq st H). exact H.
Qed.

Lemma extends_fuel {A} (q : Parser2.parser A) : extends (fun _ => Parser2.PFuel) q.
Proof. intros st H. destruct H. reflexivity. Qed.

Lemma extends_bind {A B} (p p' : Parser2.parser A) (k k' : A -> Parser2.parser B) :
  extends p p' -> (forall a, extends (k a) (k' a)) ->
  extends (Parser2.bind p k) (Parser2.bind p' k').
Proof.
  intros Hp Hk st H. unfold Parser2.bind in *.
  destruct (p st) as [a st1| | |] eqn:E.
  - rewrite (Hp st), E; [|rewrite E; discriminate]. apply Hk, H.
  - rewrite (Hp st), E; [reflexivity | rewrite E; discriminate].
  - rewrite (Hp st), E; [reflexivity | rewrite E; discriminate].
  - destruct H. reflexivity.
Qed.

Ltac extend :=
  repeat first
    [ assumption
    | apply extends_refl
    | apply extends_fuel
    | apply extends_bind; [|intros ?]
    | match goal with
      | |- extends (if ?b then _ else _) _ => destruct b
      | |- extends (match ?x with _ => _ end) _ => destruct x
      end ].

Lemma extends_parseEx names (f1 f1' : Parser2.parser Expr) f2 f2' right :
  extends f1 f1' -> extends f2 f2' ->
  extends (Parser2.parseEx names f1 f2 right) (Parser2.parseEx names f1' f2' right).
Proof. intros H1 H2. unfold Parser2.parseEx. extend. Qed.

Lemma extends_parseEx_ k names skips (f1 f1' : Parser2.parser Expr) :
  extends f1 f1' ->
  extends (Parser2.parseEx_ k names skips f1) (Parser2.parseEx_ (S k) names skips f1').
Proof.
  intros Hf. induction k as [|k IH].
  - apply extends_fuel.
  - cbn [Parser2.parseEx_] in *. extend.
Qed.

Lemma extends_parseE5_ k : extends (Parser2.parseE5_ k) (Parser2.parseE5_ (S k)).
Proof.
  induction k as [|k IH].
  - apply extends_fuel.
  - cbn [Parser2.parseE5_] in *. extend.
Qed.

Lemma all_extend_step n : all_extend n -> all_extend (S n).
Proof.
  intros [].
  pose proof (extends_parseE5_ n).
  split;
    cbn [Parser2.parseE1 Parser2.parseE2 Parser2.parseE3 Parser2.parseE4
         Parser2.parseE5 Parser2.parseE6 Parser2.parseA Parser2.parseL
         Parser2.parseL_ Parser2.parseE1_ Parser2.parseE2_ Parser2.parseE4_];
    try (apply extends_parseEx; assumption);
    try (apply extends_parseEx_; assumption);
    extend.
Qed.

Lemma all_extend_always n : all_extend n.
Proof.
  induction n as [|n IH]; [|apply all_extend_step, IH].
  split; apply extends_fuel.
Qed.

Lemma extends_le {A} (p : nat -> Parser2.parser A) :
  (forall n, extends (p n) (p (S n))) ->
  forall n m, (n <= m)%nat -> extends (p n) (p m).
Proof.
  intros Hp n m Hle. induction Hle as [|m _ IH]; [apply extends_refl|].
  eapply extends_trans; [exact IH | apply Hp].
Qed.

Lemma derives_fuel {A} (p : nat -> Parser2.parser A) n m st a st' :
  (forall n, extends (p n) (p (S n))) -> (n <= m)%nat ->
  p n st = Parser2.POk a st' -> p m st = Parser2.POk a st'.
Proof.
  intros Hp Hle H. rewrite (extends_le p Hp n m Hle st); [exact H|].
  rewrite H. discriminate.
Qed.

Lemma extends_parseEx__le names skips (f1 f1' : Parser2.parser Expr) :
  extends f1 f1' ->
  forall k k', (k <= k')%nat ->
  extends (Parser2.parseEx_ k names skips f1) (Parser2.parseEx_ k' names skips f1').
Proof.
  intros Hf. induction k as [|k IH]; intros k' Hle; [apply extends_fuel|].
  destruct k' as [|k']; [lia|]. cbn [Parser2.parseEx_].
  assert (Hk := IH k' ltac:(lia)). extend.
Qed.

Lemma parseE3_extends n : extends (Parser2.parseE3 n) (Parser2.parseE3 (S n)).
Proof. apply (extend_E3 _ (all_extend_always n)). Qed.

Lemma parseE4_extends n : extends (Parser2.parseE4 n) (Parser2.parseE4 (S n)).
Proof. apply (extend_E4 _ (all_extend_always n)). Qed.

Lemma parseE5_extends n : extends (Parser2.parseE5 n) (Parser2.parseE5 (S n)).
Proof. apply (extend_E5 _ (all_extend_always n)). Qed.

Lemma parseE4__extends n : extends (Parser2.parseE4_ n) (Parser2.parseE4_ (S n)).
Proof. apply (extend_E4_ _ (all_extend_always n)). Qed.

Lemma parseP_extends n : extends (Parser2.parseP n) (Parser2.parseP (S n)).
Proof.
  pose proof (extend_E1 _ (all_extend_always n)). unfold Parser2.parseP. extend.
Qed.

Lemma In_existsb_eqb s names : In s names -> existsb (String.eqb s) names = true.
Proof.
  intros H. apply existsb_exists. exists s. split; [exact H | apply String.eqb_refl].
Qed.

(** *** The productions of [E3] and [E4] *)

(** The first lexeme of what [parseE5] accepts. *)
Lemma parseE5_first n st e st' :
  Parser2.parseE5 n st = Parser2.POk e st' ->
  existsb (String.eqb (lx_name (Parser2.cur st))) Parser2.first_E4 = true.
Proof.
  destruct n as [|n]; [discriminate|]. rewrite parseE5_eq, bind_lxin.
  destruct (existsb _ _); [reflexivity | discriminate].
Qed.

Lemma derives_E3 st e st' :
  derives Parser2.parseE3 st e st' <->
  (lx_name (Parser2.cur st) = "-" /\
   exists st1 e1, Parser2.next st = Parser2.POk tt st1 /\
     derives Parser2.parseE3 st1 e1 st' /\ e = EOp "-" [e1]) \/
  (In (lx_name (Parser2.cur st)) Parser2.first_E4 /\ derives Parser2.parseE4 st e st').
Proof.
  split.
  - intros [n H]. destruct n as [|n]; [discriminate H|].
    rewrite parseE3_eq, bind_lxin in H.
    destruct (existsb _ ["-"]) eqn:Hminus.
    + apply existsb_eqb_In in Hminus as [Hminus|[]].
      unfold Parser2.bind in H.
      destruct (Parser2.next st) as [[] st1| | |] eqn:Hnext; try discriminate H.
      destruct (Parser2.parseE3 n st1) as [e1 st2| | |] eqn:H3; try discriminate H.
      injection H as <- <-. left. split; [symmetry; exact Hminus|].
      exists st1, e1. split; [reflexivity|]. split; [exists n; exact H3 | reflexivity].
    + rewrite bind_lxin in H. destruct (existsb _ Parser2.first_E4) eqn:Hatom;
        [|discriminate H].
      right. split; [apply existsb_eqb_In, Hatom | exists n; exact H].
  - intros [(Hminus & st1 & e1 & Hnext & [n H3] & ->) | (Hin & [n H4])].
    + exists (S n). apply (parseE3_minus n st st1 e1 st' Hminus Hnext H3).
    + exists (S n). rewrite parseE3_eq, bind_lxin.
      assert (Hminus : existsb (String.eqb (lx_name (Parser2.cur st))) ["-"] = false).
      { destruct Hin as [<-|[<-|[<-|[<-|[]]]]]; reflexivity. }
      rewrite Hminus, bind_lxin, (In_existsb_eqb _ _ Hin). exact H4.
Qed.

Lemma derives_E4_ st lst st' :
  derives Parser2.parseE4_ st lst st' <->
  (lx_name (Parser2.cur st) = "^" /\
   exists st1 e1 st2 lst1, Parser2.next st = Parser2.POk tt st1 /\
     derives Parser2.parseE5 st1 e1 st2 /\
     derives Parser2.parseE4_ st2 lst1 st' /\ lst = ("^", e1) :: lst1) \/
  (In (lx_name (Parser2.cur st)) follow_E4 /\ lst = [] /\ st' = st).
Proof.
  split.
  - intros [n H]. destruct n as [|[|k]]; try discriminate H.
    cbn [Parser2.parseE4_] in H. rewrite parseEx__eq, bind_lxin in H.
    destruct (existsb _ ["^"]) eqn:Hpow.
    + apply existsb_eqb_In in Hpow as [Hpow|[]].
      rewrite bind_get_cur in H. unfold Parser2.bind in H.
      destruct (Parser2.next st) as [[] st1| | |] eqn:Hnext; try discriminate H.
      destruct (Parser2.parseE5 (S k) st1) as [e1 st2| | |] eqn:H5; try discriminate H.
      destruct (Parser2.parseEx_ k _ _ _ st2) as [lst1 st3| | |] eqn:Htail;
        try discriminate H.
      injection H as <- <-. left. split; [symmetry; exact Hpow|].
      exists st1, e1, st2, lst1. split; [reflexivity|]. split; [exists (S k); exact H5|].
      split; [|rewrite <- Hpow; reflexivity].
      exists (S (S k)). cbn [Parser2.parseE4_].
      rewrite (extends_parseEx_ k _ _ _ _ (extends_refl _) st2); [exact Htail|].
      rewrite Htail. discriminate.
    + rewrite bind_lxin in H.
      destruct (existsb _ _) eqn:Hskip in H; [|discriminate H].
      injection H as <- <-. right. split; [apply existsb_eqb_In, Hskip|].
      split; reflexivity.
  - intros [(Hpow & st1 & e1 & st2 & lst1 & Hnext & [n1 H5] & [n2 H4] & ->)
           | (Hin & -> & ->)].
    + destruct n2 as [|j]; [discriminate H4|]. cbn [Parser2.parseE4_] in H4.
      set (K := Nat.max n1 j).
      exists (S (S K)). cbn [Parser2.parseE4_]. rewrite parseEx__eq, bind_lxin.
      assert (Hyes : existsb (String.eqb (lx_name (Parser2.cur st))) ["^"] = true)
        by (rewrite Hpow; reflexivity).
      rewrite Hyes, bind_get_cur. unfold Parser2.bind. rewrite Hnext.
      rewrite (derives_fuel Parser2.parseE5 n1 (S K) st1 e1 st2 parseE5_extends
                 ltac:(lia) H5).
      rewrite (extends_parseEx__le _ _ (Parser2.parseE5 j) (Parser2.parseE5 (S K))
                 (extends_le Parser2.parseE5 parseE5_extends j (S K) ltac:(lia))
                 j K ltac:(lia) st2); [|rewrite H4; discriminate].
      rewrite H4, Hpow. reflexivity.
    + exists 2%nat. cbn [Parser2.parseE4_]. rewrite parseEx__eq, bind_lxin.
      assert (Hpow : existsb (String.eqb (lx_name (Parser2.cur st))) ["^"] = false).
      { destruct Hin as [<-|[<-|[<-|[<-|[<-|[<-|[<-|[<-|[<-|[<-|[]]]]]]]]]]]; reflexivity. }
      change follow_E4 with ["*"; "/"; "//"; "%"; "$"; "+"; "-"; ")"; "|"; ","] in Hin.
      rewrite Hpow, bind_lxin, (In_existsb_eqb _ _ Hin). reflexivity.
Qed.

Lemma derives_E4_fold st e st' :
  derives Parser2.parseE4 st e st' <->
  exists e1 st1 lst,
    derives Parser2.parseE5 st e1 st1 /\ derives Parser2.parseE4_ st1 lst st' /\
    e = Parser2.fold_right_ops e1 lst.
Proof.
  split.
  - intros [n H]. destruct n as [|n]; [discriminate H|].
    cbn [Parser2.parseE4] in H. unfold Parser2.parseEx in H. rewrite bind_lxin in H.
    destruct (negb _); [discriminate H|]. unfold Parser2.bind in H.
    destruct (Parser2.parseE5 n st) as [e1 st1| | |] eqn:H5; try discriminate H.
    destruct (Parser2.parseE4_ n st1) as [lst st2| | |] eqn:H4; try discriminate H.
    exists e1, st1, lst. split; [exists n; exact H5|].
    destruct lst; injection H as <- <-; (split; [exists n; exact H4 | reflexivity]).
  - intros (e1 & st1 & lst & [n1 H5] & [n2 H4] & ->).
    set (N := Nat.max n1 n2). exists (S N).
    cbn [Parser2.parseE4]. unfold Parser2.parseEx. rewrite bind_lxin.
    rewrite (parseE5_first _ _ _ _ H5). cbn [negb]. unfold Parser2.bind.
    rewrite (derives_fuel Parser2.parseE5 n1 N st e1 st1 parseE5_extends ltac:(lia) H5).
    rewrite (derives_fuel Parser2.parseE4_ n2 N st1 lst st' parseE4__extends
               ltac:(lia) H4).
    destruct lst; reflexivity.
Qed.

Lemma derives_E4 st e st' :
  derives Parser2.parseE4 st e st' <->
  exists e1 st1, derives Parser2.parseE5 st e1 st1 /\
    ((lx_name (Parser2.cur st1) = "^" /\
      exists st2 e2, Parser2.next st1 = Parser2.POk tt st2 /\
        derives Parser2.parseE4 st2 e2 st' /\ e = EOp "^" [e1; e2]) \/
     (In (lx_name (Parser2.cur st1)) follow_E4 /\ e = e1 /\ st' = st1)).
Proof.
  rewrite derives_E4_fold. split.
  - intros (e1 & st1 & lst & H5 & H4 & ->). exists e1, st1. split; [exact H5|].
    apply derives_E4_ in H4
      as [(Hpow & st2 & e2 & st3 & lst1 & Hnext & H5' & H4' & ->) | (Hin & -> & ->)].
    + left. split; [exact Hpow|]. exists st2, (Parser2.fold_right_ops e2 lst1).
      split; [exact Hnext|]. split; [|reflexivity].
      apply derives_E4_fold. exists e2, st3, lst1. auto.
    + right. auto.
  - intros (e1 & st1 & H5 & [(Hpow & st2 & e2 & Hnext & H4 & ->) | (Hin & -> & ->)]).
    + apply derives_E4_fold in H4 as (e2' & st3 & lst1 & H5' & H4' & ->).
      exists e1, st1, (("^", e2') :: lst1). split; [exact H5|]. split; [|reflexivity].
      apply derives_E4_. left. split; [exact Hpow|].
      exists st2, e2', st3, lst1. auto.
    + exists e1, st1, []. split; [exact H5|]. split; [|reflexivity].
      apply derives_E4_. right. auto.
Qed.

(** *** From the methods to [parse] *)

Lemma parse_derives data t r e st' :
  Lexer.lex data = Some (t :: r) ->
  Parser2.parse_state data = Parser2.Parsed e st' <->
  derives Parser2.parseP (Parser2.mkState t r) e st'.
Proof.
  intros Hlex. pose proof (parse_total data) as Htotal.
  unfold Parser2.parse_state in *. rewrite Hlex in *. split.
  - intros H. exists (Parser2.budget (t :: r)).
    destruct (Parser2.parseP _ _); try discriminate H. injection H as -> ->. reflexivity.
  - intros [n H]. destruct (Nat.le_ge_cases n (Parser2.budget (t :: r))) as [Hle|Hge].
    + rewrite (derives_fuel Parser2.parseP n _ _ _ _ parseP_extends Hle H). reflexivity.
    + assert (Hfuel : Parser2.parseP (Parser2.budget (t :: r)) (Parser2.mkState t r)
                      <> Parser2.PFuel)
        by (intros E; rewrite E in Htotal; exact Htotal).
      rewrite (extends_le Parser2.parseP parseP_extends _ n Hge _ Hfuel) in H.
      rewrite H. reflexivity.
Qed.

Lemma parseE2__stops k st :
  In (lx_name (Parser2.cur st)) follow_E1 ->
  Parser2.parseE2_ (S (S k)) st = Parser2.POk [] st.
Proof.
  intros Hin. cbn [Parser2.parseE2_]. rewrite parseEx__eq, bind_lxin.
  assert (Hop : existsb (String.eqb (lx_name (Parser2.cur st))) ["*"; "/"; "//"; "%"] = false)
    by (destruct Hin as [<-|[<-|[<-|[<-|[]]]]]; reflexivity).
  rewrite Hop, bind_lxin.
  assert (Hskip : existsb (String.eqb (lx_name (Parser2.cur st))) ["+"; "-"; "$"; ")"; "|"; ","] = true)
    by (destruct Hin as [<-|[<-|[<-|[<-|[]]]]]; reflexivity).
  rewrite Hskip. reflexivity.
Qed.

Lemma parseE1__stops k st :
  In (lx_name (Parser2.cur st)) follow_E1 ->
  Parser2.parseE1_ (S (S k)) st = Parser2.POk [] st.
Proof.
  intros Hin. cbn [Parser2.parseE1_]. rewrite parseEx__eq, bind_lxin.
  assert (Hop : existsb (String.eqb (lx_name (Parser2.cur st))) ["+"; "-"] = false)
    by (destruct Hin as [<-|[<-|[<-|[<-|[]]]]]; reflexivity).
  rewrite Hop, bind_lxin.
  assert (Hskip : existsb (String.eqb (lx_name (Parser2.cur st))) [")"; "|"; ","; "$"] = true)
    by (destruct Hin as [<-|[<-|[<-|[<-|[]]]]]; reflexivity).
  rewrite Hskip. reflexivity.
Qed.

Lemma derives_P_E3 st e st' :
  derives Parser2.parseE3 st e st' ->
  In (lx_name (Parser2.cur st')) follow_E1 ->
  derives Parser2.parseP st e st'.
Proof.
  intros H3 Hin.
  assert (Hfirst : existsb (String.eqb (lx_name (Parser2.cur st))) Parser2.first_E1 = true).
  { apply derives_E3 in H3 as [(Hminus & _) | (Hatom & _)].
    - rewrite Hminus. reflexivity.
    - destruct Hatom as [<-|[<-|[<-|[<-|[]]]]]; reflexivity. }
  destruct H3 as [n H3].
  assert (H3m : Parser2.parseE3 (S (S n)) st = Parser2.POk e st')
    by (apply (derives_fuel Parser2.parseE3 n _ _ _ _ parseE3_extends); [lia | exact H3]).
  assert (H2 : Parser2.parseE2 (S (S (S n))) st = Parser2.POk e st').
  { cbn [Parser2.parseE2]. unfold Parser2.parseEx. rewrite bind_lxin, Hfirst.
    cbn [negb]. unfold Parser2.bind. rewrite H3m, (parseE2__stops n st' Hin). reflexivity. }
  exists (S (S (S (S n)))). unfold Parser2.parseP. rewrite bind_lxin, Hfirst. cbn [negb].
  cbn [Parser2.parseE1]. unfold Parser2.parseEx. rewrite bind_lxin, Hfirst.
  cbn [negb]. unfold Parser2.bind. rewrite H2, (parseE1__stops (S n) st' Hin). reflexivity.
Qed.

(** C8: unary minus takes a power-level operand and [^] associates to the
    right.  At a minus sign [parseE3] returns the negation of what
    [parseE3] returns for the rest, and elsewhere what [parseE4] returns:
    a whole power expression.  [parseE4] returns what [parseE5] returns
    when no [^] follows, and otherwise the power of it to what [parseE4]
    returns for everything after the [^].  The tree that [parse] returns
    is the one [parseP] returns from the lexemes of the input, and it is
    the one [parseE3] returns from them when [parseE3] stops at a closing
    lexeme; what a method returns does not depend on the budget.  So
    [-2^2] parses as the negation of [2^2] and evaluates to -4, and
    [2^3^2] parses as [2^(3^2)] and evaluates to 512. *)
Theorem minus_and_power_binding :
  Parser2.parse "-2^2" = Some (EOp "-" [EOp "^" [ENum "2"; ENum "2"]]) /\
  calc "-2^2" ∅ = Ran (Ret (VInt (-4))) /\
  Parser2.parse "2^3^2" =
    Some (EOp "^" [ENum "2"; EOp "^" [ENum "3"; ENum "2"]]) /\
  calc "2^3^2" ∅ = Ran (Ret (VInt 512)) /\
  (forall lhs op e lst,
     Parser2.fold_right_ops lhs ((op, e) :: lst) =
     EOp op [lhs; Parser2.fold_right_ops e lst]) /\
  (forall st e st',
     derives Parser2.parseE3 st e st' <->
     (lx_name (Parser2.cur st) = "-" /\
      exists st1 e1, Parser2.next st = Parser2.POk tt st1 /\
        derives Parser2.parseE3 st1 e1 st' /\ e = EOp "-" [e1]) \/
     (In (lx_name (Parser2.cur st)) Parser2.first_E4 /\
      derives Parser2.parseE4 st e st')) /\
  (forall st e st',
     derives Parser2.parseE4 st e st' <->
     exists e1 st1, derives Parser2.parseE5 st e1 st1 /\
       ((lx_name (Parser2.cur st1) = "^" /\
         exists st2 e2, Parser2.next st1 = Parser2.POk tt st2 /\
           derives Parser2.parseE4 st2 e2 st' /\ e = EOp "^" [e1; e2]) \/
        (In (lx_name (Parser2.cur st1)) follow_E4 /\ e = e1 /\ st' = st1))) /\
  (forall data t r e st,
     Lexer.lex data = Some (t :: r) ->
     Parser2.parse_state data = Parser2.Parsed e st ->
     derives Parser2.parseP (Parser2.mkState t r) e st /\
     forall e' st',
       derives Parser2.parseE3 (Parser2.mkState t r) e' st' ->
       In (lx_name (Parser2.cur st')) follow_E1 ->
       e = e' /\ st = st') /\
  (forall (n m : nat) st e st',
     (n <= m)%nat ->
     (Parser2.parseE3 n st = Parser2.POk e st' -> Parser2.parseE3 m st = Parser2.POk e st') /\
     (Parser2.parseE4 n st = Parser2.POk e st' -> Parser2.parseE4 m st = Parser2.POk e st') /\
     (Parser2.parseE5 n st = Parser2.POk e st' -> Parser2.parseE5 m st = Parser2.POk e st') /\
     (Parser2.parseP n st = Parser2.POk e st' -> Parser2.parseP m st = Parser2.POk e st')).
Proof.
  split; [vm_compute; reflexivity|]. split; [vm_compute; reflexivity|].
  split; [vm_compute; reflexivity|]. split; [vm_compute; reflexivity|].
  split; [reflexivity|]. split; [exact derives_E3|]. split; [exact derives_E4|]. split.
  - intros data t r e st Hlex Hparse.
    split; [apply (parse_derives data t r e st Hlex), Hparse|].
    intros e' st' H3 Hin.
    apply (derives_P_E3 _ _ _ H3), (parse_derives data t r e' st' Hlex) in Hin.
    rewrite Hparse in Hin. injection Hin as -> ->. split; reflexivity.
  - intros n m st e st' Hle. repeat split; apply derives_fuel; auto using
      parseE3_extends, parseE4_extends, parseE5_extends, parseP_extends.
Qed.

(** * Further properties of the code *)

(** ** Where a successful parse stops *)

Lemma parseEx__stops names skips (f1 : Parser2.parser Expr) : forall k st lst st',
  Parser2.parseEx_ k names skips f1 st = Parser2.POk lst st' ->
  existsb (String.eqb (lx_name (Parser2.cur st'))) skips = true.
Proof.
  induction k as [|k IH]; intros st lst st' H; [discriminate H|].
  rewrite parseEx__eq, bind_lxin in H. destruct (existsb _ names).
  - rewrite bind_get_cur in H. unfold Parser2.bind in H.
    destruct (Parser2.next st) as [[] st1| | |]; try discriminate H.
    destruct (f1 st1) as [lhs st2| | |]; try discriminate H.
    destruct (Parser2.parseEx_ k names skips f1 st2) as [lst' st3| | |] eqn:Hk;
      try discriminate H.
    injection H as _ <-. apply (IH _ _ _ Hk).
  - rewrite bind_lxin in H. destruct (existsb _ skips) eqn:Hskip; [|discriminate H].
    injection H as _ <-. exact Hskip.
Qed.

(** When [parse] returns, the lookahead it leaves is one of [)], [|], [,]
    and the end marker: the tail of [E1] returns at these four only.  So
    the lexemes that [parse] can leave unread start with one of them. *)
Theorem parse_stops_at_follower data e st :
  Parser2.parse_state data = Parser2.Parsed e st ->
  In (lx_name (Parser2.cur st)) [")"; "|"; ","; "$"].
Proof.
  unfold Parser2.parse_state.
  destruct (Lexer.lex data) as [[|t r]|]; try discriminate.
  unfold Parser2.budget. set (n := (16 * length (t :: r) + 15)%nat).
  replace (16 * length (t :: r) + 16)%nat with (S n) by lia.
  unfold Parser2.parseP. rewrite bind_lxin. destruct (negb _); [discriminate|].
  change (Parser2.parseE1 (S n)) with
    (Parser2.parseEx Parser2.first_E1 (Parser2.parseE2 n) (Parser2.parseE1_ n) false).
  unfold Parser2.parseEx. rewrite bind_lxin. destruct (negb _); [discriminate|].
  unfold Parser2.bind.
  destruct (Parser2.parseE2 n _) as [lhs st1| | |]; try discriminate.
  destruct (Parser2.parseE1_ n st1) as [lst st2| | |] eqn:Htail; try discriminate.
  assert (Hstop : existsb (String.eqb (lx_name (Parser2.cur st2))) [")"; "|"; ","; "$"] = true).
  { destruct n as [|m]; [discriminate Htail|]. exact (parseEx__stops _ _ _ _ _ _ _ Htail). }
  intros H. apply existsb_eqb_In.
  destruct lst; injection H as _ <-; exact Hstop.
Qed.

Lemma parse_stops_at_follower_witness :
  In (lx_name (mkLexeme "," 3 (Some ","))) [")"; "|"; ","; "$"].
Proof.
  exact (parse_stops_at_follower "x+1,y" (EOp "+" [EId "x"; ENum "1"])
           (Parser2.mkState (mkLexeme "," 3 (Some ","))
              [mkLexeme "id" 4 (Some "y"); mkLexeme "$" 5 None])
           eq_refl).
Defined.

(** ** What the parser returns, and what [gen] does with it *)

(** The parser keeps the arity of every node: in the tree that [parse]
    returns, ['!'], ['abs'] and the unary minus have one operand, the
    binary operators two, an application at least one argument, and the
    text of a number is one that [int] or [float] converts. *)
Theorem parser_returns_trees data e st :
  Parser2.parse_state data = Parser2.Parsed e st -> well_formed e = true.
Proof.
  intros H. apply (parse_well_formed data).
  unfold Parser2.parse. rewrite H. reflexivity.
Qed.

Lemma parser_returns_trees_witness :
  well_formed (EOp "-" [EOp "!" [EApply "max" [EId "x"; EOp "abs" [ENum "2.5"]]]]) = true.
Proof.
  exact (parser_returns_trees "-max(x,|2.5|)!"
           (EOp "-" [EOp "!" [EApply "max" [EId "x"; EOp "abs" [ENum "2.5"]]]])
           (Parser2.mkState (mkLexeme "$" 14 None) [])
           eq_refl).
Defined.

(** On a tree that [parse] returned, [gen] either succeeds or raises the
    error of a function that is not a builtin and is applied in the tree:
    it raises no [IndexError], no ["can't handle"] and no error of a
    literal. *)
Theorem parsed_input_compiles data e :
  Parser2.parse data = Some e ->
  (exists c, Code.gen e = Ok c) \/
  (exists fn, Code.gen e = Err (NotDefined fn) /\ ~ In fn builtins /\ In fn (applied e)).
Proof.
  intros H. pose proof (parsed_compiles_or_undefined data e H) as Hgen.
  destruct (first_undefined e) as [fn|].
  - right. exists fn. split; [exact Hgen | apply not_defined_sound, Hgen].
  - left. exact Hgen.
Qed.

Lemma parsed_input_compiles_witness :
  (exists c, Code.gen (EApply "f" [EId "x"]) = Ok c) \/
  (exists fn, Code.gen (EApply "f" [EId "x"]) = Err (NotDefined fn) /\
     ~ In fn builtins /\ In fn (applied (EApply "f" [EId "x"]))).
Proof.
  exact (parsed_input_compiles "f(x)" (EApply "f" [EId "x"]) eq_refl).
Defined.

(** ** The free names and the environment *)

(** The list of free names is what evaluation needs of the environment:
    two environments that agree on the free names give the same
    evaluation, and when every free name is bound no lookup error is
    raised. *)
Theorem evaluation_reads_free_names e c :
  Code.gen e = Ok c ->
  (forall kw1 kw2 : env,
     (forall s, In s (names c) -> kw1 !! s = kw2 !! s) ->
     Code.run c kw1 = Code.run c kw2) /\
  (forall kw : env,
     (forall s, In s (names c) -> is_Some (kw !! s)) ->
     forall key, ~ raises (Code.run c kw) (KeyError key)).
Proof.
  intros H. apply gen_generated in H. split.
  - apply generated_run_agree, H.
  - intros kw Hbound key Hraise.
    destruct (generated_lookup_sound c H kw) as [Hkey _].
    destruct (Hkey key Hraise) as [Hin Hnone].
    destruct (Hbound key Hin) as [v Hv]. congruence.
Qed.

Lemma evaluation_reads_free_names_witness :
  (forall kw1 kw2 : env,
     (forall s, In s ["x"] -> kw1 !! s = kw2 !! s) ->
     Code.run (Code.binary py_add (Code.variable "x") (Code.constant (VInt 1))) kw1 =
     Code.run (Code.binary py_add (Code.variable "x") (Code.constant (VInt 1))) kw2) /\
  (forall kw : env,
     (forall s, In s ["x"] -> is_Some (kw !! s)) ->
     forall key, ~ raises
       (Code.run (Code.binary py_add (Code.variable "x") (Code.constant (VInt 1))) kw)
       (KeyError key)).
Proof.
  exact (evaluation_reads_free_names (EOp "+" [EId "x"; ENum "1"])
           (Code.binary py_add (Code.variable "x") (Code.constant (VInt 1))) eq_refl).
Defined.

(** ** [min] on integers *)

Lemma fold_min_spec ns : forall b,
  (fold_left Z.min ns b = b \/ In (fold_left Z.min ns b) ns) /\
  fold_left Z.min ns b <= b /\
  Forall (fun n => fold_left Z.min ns b <= n) ns.
Proof.
  induction ns as [|n ns IH]; intros b; simpl.
  - split; [left; reflexivity | split; [lia | constructor]].
  - destruct (IH (Z.min b n)) as (Hin & Hle & Hall). split; [|split].
    + destruct Hin as [Heq|Hin]; [|right; right; exact Hin].
      rewrite Heq. destruct (Z.min_spec b n) as [[_ ->]|[_ ->]]; [left | right; left]; reflexivity.
    + lia.
    + constructor; [lia | exact Hall].
Qed.

Lemma run_all_integers cs (kw : env) ns :
  Forall2 (fun c n => Code.run c kw = Ret (VInt n)) cs ns ->
  Code.run_all cs kw = Ret (VInt <$> ns).
Proof.
  induction 1 as [|c n cs ns Hc _ IH]; simpl; [reflexivity|].
  rewrite Hc. simpl. rewrite IH. reflexivity.
Qed.

(** [min] of arguments that evaluate to integers returns one of these
    integers, and none of them is less: it is their minimum. *)
Theorem min_of_integers args cs (kw : env) ns :
  Code.gen_all args = Ok cs ->
  Forall2 (fun c n => Code.run c kw = Ret (VInt n)) cs ns ->
  ns <> [] ->
  exists c r,
    Code.gen (EApply "min" args) = Ok c /\
    Code.run c kw = Ret (VInt r) /\
    In r ns /\ Forall (fun n => r <= n) ns.
Proof.
  intros Hcs Hns Hne. destruct ns as [|n ns]; [destruct (Hne eq_refl)|].
  exists (Code.nary py_min cs), (fold_left Z.min ns n). split; [|split].
  - rewrite (gen_minmax "min" args eq_refl), Hcs. reflexivity.
  - unfold Code.run at 1. simpl. rewrite (run_all_integers _ _ _ Hns).
    apply (py_min_ints n ns).
  - destruct (fold_min_spec ns n) as (Hin & Hle & Hall). split.
    + destruct Hin as [->|Hin]; [left; reflexivity | right; exact Hin].
    + constructor; assumption.
Qed.

Lemma min_of_integers_witness :
  exists c r,
    Code.gen (EApply "min" [ENum "3"; EOp "-" [ENum "2"]; ENum "7"]) = Ok c /\
    Code.run c ∅ = Ret (VInt r) /\
    In r [3; -2; 7] /\ Forall (fun n => r <= n) [3; -2; 7].
Proof.
  refine (min_of_integers [ENum "3"; EOp "-" [ENum "2"]; ENum "7"]
            [Code.constant (VInt 3); Code.unary py_neg (Code.constant (VInt 2));
             Code.constant (VInt 7)]
            ∅ [3; -2; 7] eq_refl _ _).
  - repeat constructor.
  - discriminate.
Defined.

(** ** What the lexer yields *)

Lemma length_drop s : forall i, String.length (Lexer.drop i s) = (String.length s - i)%nat.
Proof.
  induction s as [|c s IH]; intros [|i]; simpl; try reflexivity. apply IH.
Qed.

Lemma drop_get s : forall i c,
  String.get i s = Some c -> Lexer.drop i s = String c (Lexer.drop (i + 1) s).
Proof.
  induction s as [|d s IH]; intros [|i] c H; simpl in *; try discriminate.
  - injection H as ->. reflexivity.
  - apply IH, H.
Qed.

Lemma append_String c a b : String c a ++ b = String c (a ++ b).
Proof. reflexivity. Qed.

Lemma drop_split s : forall i n,
  (i + n <= String.length s)%nat ->
  Lexer.drop i s = String.substring i n s ++ Lexer.drop (i + n) s.
Proof.
  induction s as [|c s IH]; intros [|i] n H; simpl in *.
  - destruct n; [reflexivity | lia].
  - lia.
  - destruct n as [|n]; [reflexivity|]. simpl. rewrite append_String. f_equal.
    apply (IH 0%nat n). lia.
  - apply IH. lia.
Qed.

Lemma length_substring s : forall i n,
  (i + n <= String.length s)%nat -> String.length (String.substring i n s) = n.
Proof.
  induction s as [|c s IH]; intros [|i] n H; simpl in *.
  - destruct n; [reflexivity | lia].
  - lia.
  - destruct n as [|n]; [reflexivity|]. simpl. f_equal. apply IH. lia.
  - apply IH. lia.
Qed.

Lemma all_chars_prefix p s : forall k,
  (k <= Lexer.count_while p s)%nat -> all_chars p (String.substring 0 k s) = true.
Proof.
  induction s as [|c s IH]; intros [|k] H; simpl in *; try reflexivity; try lia.
  destruct (p c); simpl in *; [apply IH; lia | lia].
Qed.

Lemma all_chars_impl (p q : ascii -> bool) s :
  (forall c, p c = true -> q c = true) -> all_chars p s = true -> all_chars q s = true.
Proof.
  intros Hpq. induction s as [|c s IH]; simpl; [reflexivity|]. intros H.
  apply andb_true_iff in H as [Hc H]. rewrite (Hpq c Hc), (IH H). reflexivity.
Qed.

Lemma all_chars_app p s t :
  all_chars p (s ++ t) = all_chars p s && all_chars p t.
Proof.
  induction s as [|c s IH]; simpl; [reflexivity|]. rewrite IH. apply andb_assoc.
Qed.

Lemma isalnum_nospace c : Char.isalnum c = true -> nospace c = true.
Proof.
  unfold Char.isalnum, Char.isalpha, Char.isdigit, nospace, Char.isspace.
  generalize (Char.code c). intros n H.
  repeat match goal with
         | |- context [(?a <=? ?b)%nat] => destruct (Nat.leb_spec a b)
         | |- context [(?a =? ?b)%nat] => destruct (Nat.eqb_spec a b)
         | H : context [(?a <=? ?b)%nat] |- _ => destruct (Nat.leb_spec a b)
         end; simpl in *; try reflexivity; try discriminate; lia.
Qed.

Lemma isdigit_isalnum c : Char.isdigit c = true -> Char.isalnum c = true.
Proof. unfold Char.isalnum. intros ->. apply orb_true_r. Qed.

Lemma isalpha_isalnum c : Char.isalpha c = true -> Char.isalnum c = true.
Proof. unfold Char.isalnum. intros ->. reflexivity. Qed.

Lemma get_None_ge s : forall i, String.get i s = None -> (String.length s <= i)%nat.
Proof.
  induction s as [|c s IH]; intros [|i] H; simpl in *; try discriminate; try lia.
  apply IH in H. lia.
Qed.

Lemma length_substring_le s : forall i n,
  (String.length (String.substring i n s) <= String.length s - i)%nat.
Proof.
  induction s as [|c s IH]; intros [|i] [|n]; simpl; try lia.
  - specialize (IH 0%nat n). lia.
  - apply IH.
  - apply IH.
Qed.

(** The slice that starts at a character of the input: the character,
    then the slice of what follows. *)
Lemma slice_from data i c n :
  String.get i data = Some c ->
  Lexer.slice data i (i + S n) =
  String c (String.substring 0 n (Lexer.drop (i + 1) data)).
Proof.
  intros Hget. unfold Lexer.slice. replace (i + S n - i)%nat with (S n) by lia.
  rewrite substring_drop, (drop_get _ _ _ Hget). reflexivity.
Qed.

Lemma lexid_span data i c :
  String.get i data = Some c -> Char.isalpha c = true ->
  exists j text,
    Lexer.lexid data i = (mkLexeme "id" (Z.of_nat i) (Some text), j) /\
    (i < j <= String.length data)%nat /\
    Lexer.slice data i j = text /\
    all_chars Char.isalnum text = true /\
    exists rest, text = String c rest.
Proof.
  intros Hget Hc. pose proof (get_Some_lt _ _ _ Hget) as Hlt.
  set (k := Lexer.count_while Char.isalnum (Lexer.drop (i + 1) data)).
  assert (Hk : (k <= String.length data - (i + 1))%nat).
  { subst k. rewrite <- length_drop. apply count_while_le. }
  exists (i + 1 + k)%nat, (Lexer.slice data i (i + 1 + k)).
  split; [reflexivity|]. split; [lia|]. split; [reflexivity|].
  replace (i + 1 + k)%nat with (i + S k)%nat by lia.
  rewrite (slice_from _ _ _ _ Hget). split; [|eexists; reflexivity].
  simpl. rewrite (isalpha_isalnum _ Hc). apply all_chars_prefix. subst k. lia.
Qed.

Lemma all_digits_nospace s : all_digits s = true -> all_chars nospace s = true.
Proof.
  induction s as [|c s IH]; simpl; [reflexivity|]. intros H.
  apply andb_true_iff in H as [Hc H].
  rewrite (isalnum_nospace _ (isdigit_isalnum _ Hc)), (IH H). reflexivity.
Qed.

(** The span of a match of the number pattern after its first digit [c]:
    [k] more digits, and maybe a dot and digits. *)
Lemma num_match_span_from data i c k j :
  String.get i data = Some c -> Char.isdigit c = true ->
  (k <= Lexer.count_while Char.isdigit (Lexer.drop (i + 1) data))%nat ->
  match String.get (i + 1 + k) data, String.get (i + 1 + k + 1) data with
  | Some dot, Some d =>
      if Ascii.eqb dot "." && Char.isdigit d
      then Some (i + 1 + k + 1 +
                 Lexer.count_while Char.isdigit (Lexer.drop (i + 1 + k + 1) data))%nat
      else Some (i + 1 + k)%nat
  | _, _ => Some (i + 1 + k)%nat
  end = Some j ->
  (i < j <= String.length data)%nat /\
  all_chars nospace (Lexer.slice data i j) = true.
Proof.
  intros Hget Hc Hk. pose proof (get_Some_lt _ _ _ Hget) as Hlt.
  set (s := Lexer.drop (i + 1) data) in *.
  assert (Hlen : String.length s = (String.length data - (i + 1))%nat)
    by (subst s; apply length_drop).
  pose proof (count_while_le Char.isdigit s) as Hcount.
  assert (Hplain : (i < i + 1 + k <= String.length data)%nat /\
                   all_chars nospace (Lexer.slice data i (i + 1 + k)) = true).
  { split; [lia|]. replace (i + 1 + k)%nat with (i + S k)%nat by lia.
    rewrite (slice_from _ _ _ _ Hget). simpl.
    rewrite (isalnum_nospace _ (isdigit_isalnum _ Hc)).
    apply all_digits_nospace, all_digits_prefix, Hk. }
  assert (Hs : forall n, Lexer.drop (i + 1 + k + n) data = Lexer.drop n (Lexer.drop k s)).
  { intros n. subst s. rewrite <- !drop_add. f_equal. lia. }
  rewrite (get_drop data (i + 1 + k)), (get_drop data (i + 1 + k + 1)).
  rewrite Hs. replace (i + 1 + k)%nat with (i + 1 + k + 0)%nat at 1 by lia. rewrite Hs.
  pose proof (length_drop s k) as Hdk.
  destruct (Lexer.drop k s) as [|dot [|d t]] eqn:Hdrop; simpl;
    try (intros [= <-]; exact Hplain).
  destruct (Ascii.eqb_spec dot "."%char) as [->|]; simpl; [|intros [= <-]; exact Hplain].
  destruct (Char.isdigit d) eqn:Hd; [|intros [= <-]; exact Hplain].
  intros [= <-].
  pose proof (count_while_le Char.isdigit t) as Ht. simpl in Hdk.
  split; [lia|].
  replace (i + 1 + k + 1 + S (Lexer.count_while Char.isdigit t))%nat
    with (i + S (k + S (S (Lexer.count_while Char.isdigit t))))%nat by lia.
  rewrite (slice_from _ _ _ _ Hget). fold s.
  rewrite substring_split by lia. rewrite Hdrop.
  change (String.substring 0 (S (S ?m)) (String "." (String d t)))
    with (String "." (String d (String.substring 0 m t))).
  simpl. rewrite (isalnum_nospace _ (isdigit_isalnum _ Hc)). simpl.
  rewrite all_chars_app. apply andb_true_iff. split.
  - apply all_digits_nospace, all_digits_prefix, Hk.
  - simpl. rewrite (isalnum_nospace _ (isdigit_isalnum _ Hd)).
    apply all_digits_nospace, all_digits_prefix. lia.
Qed.

Lemma num_match_span data i j :
  Lexer.num_match data i = Some j ->
  (i < j <= String.length data)%nat /\
  all_chars nospace (Lexer.slice data i j) = true.
Proof.
  unfold Lexer.num_match.
  destruct (String.get i data) as [c|] eqn:Hget; [|discriminate].
  destruct (Char.isdigit c) eqn:Hc; [|discriminate].
  destruct (Ascii.eqb c "0").
  - replace (i + 1)%nat with (i + 1 + 0)%nat by lia.
    apply (num_match_span_from data i c 0 j Hget Hc). lia.
  - apply (num_match_span_from data i c _ j Hget Hc). lia.
Qed.

Lemma lex_from_lexes data : forall fuel i toks,
  (i <= String.length data)%nat -> (String.length data - i < fuel)%nat ->
  Lexer.lex_from fuel data i = Some toks -> lexes data i toks.
Proof.
  induction fuel as [|fuel IH]; intros i toks Hi Hfuel; [lia|].
  cbn [Lexer.lex_from].
  destruct (String.get i data) as [c|] eqn:Hget.
  - pose proof (get_Some_lt _ _ _ Hget) as Hlt.
    assert (Hcons : forall j name text toks,
              (i < j <= String.length data)%nat ->
              Lexer.slice data i j = text ->
              all_chars nospace text = true ->
              lexeme_shape (mkLexeme name (Z.of_nat i) (Some text)) ->
              cons (mkLexeme name (Z.of_nat i) (Some text)) <$> Lexer.lex_from fuel data j
                = Some toks ->
              lexes data i toks).
    { intros j name text toks' Hj Hslice Hns Hshape H.
      destruct (Lexer.lex_from fuel data j) as [l|] eqn:Hl; [|discriminate].
      injection H as <-. eapply lexes_token; try eassumption.
      apply (IH j l); [lia | lia | exact Hl]. }
    destruct (Char.isspace c) eqn:Hspace.
    { intros H. eapply lexes_space; [exact Hget | exact Hspace |].
      apply IH; [lia | lia | exact H]. }
    destruct (Char.isalpha c) eqn:Halpha.
    { destruct (lexid_span data i c Hget Halpha)
        as (j & text & -> & Hj & Hslice & Halnum & rest & Hrest).
      cbv beta iota. apply (Hcons j); try assumption.
      - apply (all_chars_impl Char.isalnum); [apply isalnum_nospace | exact Halnum].
      - left. split; [reflexivity|]. split; [exact Halnum|].
        exists c, rest. split; assumption. }
    destruct (Char.isdigit c) eqn:Hdigit.
    { unfold Lexer.lexnum.
      destruct (Lexer.num_match data i) as [j|] eqn:Hj; [|discriminate].
      destruct (num_match_span _ _ _ Hj) as [Hij Hns].
      apply (Hcons j); try assumption; [reflexivity|].
      right. left. split; [reflexivity | apply num_match_literal, Hj]. }
    destruct (String.eqb_spec (Lexer.slice data i (i + 2)) "//") as [Hss|_].
    { apply (Hcons (i + 2)%nat); try assumption.
      - pose proof (length_substring_le data i (i + 2 - i)) as Hle.
        unfold Lexer.slice in Hss. rewrite Hss in Hle. simpl in Hle. lia.
      - reflexivity.
      - right. right. left. split; reflexivity. }
    assert (Hone : Lexer.slice data i (i + 1) = String c EmptyString).
    { rewrite (slice_from data i c 0 Hget).
      destruct (Lexer.drop (i + 1) data); reflexivity. }
    apply (Hcons (i + 1)%nat); try assumption.
    + lia.
    + simpl. unfold nospace. rewrite Hspace. reflexivity.
    + right. right. right. exists c. repeat split; assumption.
  - intros [= <-]. apply get_None_ge in Hget.
    replace i with (String.length data) by lia. constructor.
Qed.

Lemma lex_lexes data toks : Lexer.lex data = Some toks -> lexes data 0 toks.
Proof. apply lex_from_lexes; lia. Qed.

Lemma drop_all s : Lexer.drop (String.length s) s = EmptyString.
Proof. induction s as [|c s IH]; simpl; [reflexivity | exact IH]. Qed.

Lemma remove_spaces_app text s :
  all_chars nospace text = true ->
  remove_spaces (text ++ s) = text ++ remove_spaces s.
Proof.
  induction text as [|c text IH]; simpl; [reflexivity|]. intros H.
  apply andb_true_iff in H as [Hc H]. unfold nospace in Hc.
  destruct (Char.isspace c); [discriminate Hc|]. rewrite (IH H). reflexivity.
Qed.

(** What a lexeme of the input tells of the input from its position on. *)
Lemma token_splits data i j :
  (i < j <= String.length data)%nat ->
  Lexer.drop i data = Lexer.slice data i j ++ Lexer.drop j data /\
  String.length (Lexer.slice data i j) = (j - i)%nat.
Proof.
  intros Hj. unfold Lexer.slice. split.
  - rewrite (drop_split data i (j - i)) by lia. do 2 f_equal. lia.
  - apply length_substring. lia.
Qed.

Lemma lexes_end_marker data i toks :
  lexes data i toks ->
  exists front,
    toks = (front ++ [mkLexeme "$" (Z.of_nat (String.length data)) None])%list /\
    Forall (fun t => lx_data t <> None) front.
Proof.
  induction 1 as [|i c toks _ _ _ IH|i j name text toks _ _ _ _ _ IH].
  - exists []. split; [reflexivity | constructor].
  - exact IH.
  - destruct IH as (front & -> & Hfront).
    exists (mkLexeme name (Z.of_nat i) (Some text) :: front).
    split; [reflexivity | constructor; [discriminate | exact Hfront]].
Qed.

Lemma lexes_texts data i toks :
  lexes data i toks -> texts toks = remove_spaces (Lexer.drop i data).
Proof.
  induction 1 as [|i c toks Hget Hspace _ IH|i j name text toks Hj Hslice Hns _ _ IH].
  - rewrite drop_all. reflexivity.
  - rewrite (drop_get _ _ _ Hget). simpl. rewrite Hspace. exact IH.
  - destruct (token_splits data i j Hj) as [-> _]. rewrite Hslice.
    rewrite (remove_spaces_app _ _ Hns), <- IH. reflexivity.
Qed.

Lemma lexes_shapes data i toks : lexes data i toks -> Forall lexeme_shape toks.
Proof.
  induction 1 as [|i c toks _ _ _ IH|i j name text toks _ _ _ Hshape _ IH].
  - repeat constructor.
  - exact IH.
  - constructor; assumption.
Qed.

Lemma lexes_located data i toks :
  lexes data i toks -> forall from, (from <= i)%nat -> located data from toks.
Proof.
  induction 1 as [|i c toks _ _ _ IH|i j name text toks Hj Hslice _ _ _ IH];
    intros from Hfrom.
  - exists (String.length data). simpl. repeat split; exact Hfrom.
  - apply IH. lia.
  - destruct (token_splits data i j Hj) as [_ Hlen]. rewrite Hslice in Hlen.
    exists i. simpl. split; [reflexivity|]. split; [exact Hfrom|].
    replace (i + String.length text)%nat with j by lia. split; [|split].
    + intros ->. simpl in Hlen. lia.
    + exact Hslice.
    + apply IH. lia.
Qed.

Lemma all_chars_drop p s : forall i,
  all_chars p s = true -> all_chars p (Lexer.drop i s) = true.
Proof.
  induction s as [|c s IH]; intros [|i] H; simpl in *; try reflexivity; try exact H.
  apply andb_true_iff in H as [_ H]. apply IH, H.
Qed.

Lemma lexes_blank data i toks :
  lexes data i toks ->
  all_chars Char.isspace (Lexer.drop i data) = true ->
  toks = [mkLexeme "$" (Z.of_nat (String.length data)) None].
Proof.
  induction 1 as [|i c toks Hget _ _ IH|i j name text toks Hj Hslice Hns _ _ _];
    intros Hblank.
  - reflexivity.
  - apply IH. rewrite (drop_get _ _ _ Hget) in Hblank. simpl in Hblank.
    apply andb_true_iff in Hblank as [_ Hblank]. exact Hblank.
  - destruct (token_splits data i j Hj) as [Hsplit Hlen].
    rewrite Hslice in Hsplit, Hlen. rewrite Hsplit in Hblank.
    destruct text as [|c text]; [simpl in Hlen; lia|].
    simpl in Hblank, Hns. unfold nospace in Hns.
    destruct (Char.isspace c); discriminate.
Qed.

(** The lexer never raises its ["num error"]; what it yields ends with the
    end marker, at the position that is the length of the input, and every
    lexeme before it has a text. *)
Theorem lexer_ends_with_marker data :
  exists front,
    Lexer.lex data =
      Some (front ++ [mkLexeme "$" (Z.of_nat (String.length data)) None])%list /\
    Forall (fun t => lx_data t <> None) front.
Proof.
  destruct (lex_total data) as (toks & Hlex & _).
  destruct (lexes_end_marker data 0 toks (lex_lexes _ _ Hlex)) as (front & -> & Hfront).
  exists front. split; assumption.
Qed.

(** The lexer loses nothing but blanks: the texts of the lexemes, put
    together, are the input without its whitespace. *)
Theorem lexer_keeps_the_text data toks :
  Lexer.lex data = Some toks -> texts toks = remove_spaces data.
Proof.
  intros Hlex. rewrite (lexes_texts data 0 toks (lex_lexes _ _ Hlex)). reflexivity.
Qed.

Lemma lexer_keeps_the_text_witness :
  texts
    [mkLexeme "num" 0 (Some "2.5"); mkLexeme "//" 4 (Some "//");
     mkLexeme "id" 8 (Some "x1"); mkLexeme "$" 10 None]
  = remove_spaces "2.5 //  x1".
Proof.
  exact (lexer_keeps_the_text "2.5 //  x1"
           [mkLexeme "num" 0 (Some "2.5"); mkLexeme "//" 4 (Some "//");
            mkLexeme "id" 8 (Some "x1"); mkLexeme "$" 10 None] eq_refl).
Defined.

(** Every lexeme is of one of the five kinds: an identifier, a number
    whose text is a literal, the floor division sign, a single character
    that is its own name, or the end marker. *)
Theorem lexemes_have_shapes data toks :
  Lexer.lex data = Some toks -> Forall lexeme_shape toks.
Proof.
  intros Hlex. exact (lexes_shapes data 0 toks (lex_lexes _ _ Hlex)).
Qed.

Lemma lexemes_have_shapes_witness :
  Forall lexeme_shape
    [mkLexeme "id" 0 (Some "a1"); mkLexeme "^" 2 (Some "^");
     mkLexeme "num" 3 (Some "0.5"); mkLexeme "$" 6 None].
Proof.
  exact (lexemes_have_shapes "a1^0.5"
           [mkLexeme "id" 0 (Some "a1"); mkLexeme "^" 2 (Some "^");
            mkLexeme "num" 3 (Some "0.5"); mkLexeme "$" 6 None] eq_refl).
Defined.

(** The position of a lexeme is where its text is in the input: the text
    is the slice of the input at the position, the lexemes follow each
    other without overlap, and the end marker is at the end. *)
Theorem lexemes_are_located data toks :
  Lexer.lex data = Some toks -> located data 0 toks.
Proof.
  intros Hlex. apply (lexes_located data 0 toks (lex_lexes _ _ Hlex)). lia.
Qed.

Lemma lexemes_are_located_witness :
  located "ab + 12" 0
    [mkLexeme "id" 0 (Some "ab"); mkLexeme "+" 3 (Some "+");
     mkLexeme "num" 5 (Some "12"); mkLexeme "$" 7 None].
Proof.
  exact (lexemes_are_located "ab + 12"
           [mkLexeme "id" 0 (Some "ab"); mkLexeme "+" 3 (Some "+");
            mkLexeme "num" 5 (Some "12"); mkLexeme "$" 7 None] eq_refl).
Defined.

(** An empty or blank input is refused: the parse error is at the end
    marker, whose position is the length of the input. *)
Theorem blank_input_is_rejected data :
  all_chars Char.isspace data = true ->
  Parser2.parse_state data =
  Parser2.ParseError (mkLexeme "$" (Z.of_nat (String.length data)) None).
Proof.
  intros Hblank. destruct (lex_total data) as (toks & Hlex & _).
  pose proof (lexes_blank data 0 toks (lex_lexes _ _ Hlex) Hblank) as ->.
  unfold Parser2.parse_state. rewrite Hlex. reflexivity.
Qed.

Lemma blank_input_is_rejected_witness :
  Parser2.parse_state "  " = Parser2.ParseError (mkLexeme "$" 2 None).
Proof. exact (blank_input_is_rejected "  " eq_refl). Defined.

(** ** Where the parser reads and where it fails *)

Section Inside.

Variable toks : list Lexeme.
Hypothesis toks_end : ends_with_marker toks.

Lemma inside_cur st : inside toks st -> In (Parser2.cur st) toks.
Proof. intros [pre ->]. apply in_app_iff. right. left. reflexivity. Qed.

Lemma reports_bind {A B} (m : Parser2.parser A) (k : A -> Parser2.parser B) st :
  reports toks (m st) ->
  (forall a st', inside toks st' -> reports toks (k a st')) ->
  reports toks (Parser2.bind m k st).
Proof.
  unfold Parser2.bind. destruct (m st) as [a st'| | |]; simpl; try tauto.
  intros Hst Hk. apply Hk, Hst.
Qed.

(** [next] never runs out of lexemes: the one it makes up when the
    generator is exhausted is never made. *)
Lemma reports_next st : inside toks st -> reports toks (Parser2.next st).
Proof.
  intros Hst. unfold Parser2.next.
  destruct (String.eqb_spec (lx_name (Parser2.cur st)) "$") as [|Hname];
    [apply inside_cur, Hst|].
  destruct Hst as [pre Hpre]. destruct (Parser2.rest st) as [|t r]; simpl.
  - destruct toks_end as (front & eof & Htoks & Heof & _).
    rewrite Hpre in Htoks. apply app_inj_tail in Htoks as [_ Hcur].
    rewrite Hcur in Hname. destruct (Hname Heof).
  - exists (pre ++ [Parser2.cur st])%list. rewrite <- app_assoc. exact Hpre.
Qed.

Lemma reports_after_next {B} (k : unit -> Parser2.parser B) st :
  inside toks st ->
  (forall st', inside toks st' -> reports toks (k tt st')) ->
  reports toks (Parser2.bind Parser2.next k st).
Proof.
  intros Hst Hk. apply reports_bind; [apply reports_next, Hst|].
  intros [] st' Hst'. apply Hk, Hst'.
Qed.

Lemma reports_ret {A} (a : A) st : inside toks st -> reports toks (Parser2.ret a st).
Proof. intros Hst. exact Hst. Qed.

Lemma reports_error {A} st : inside toks st -> reports toks (@Parser2.error A st).
Proof. apply inside_cur. Qed.

Lemma parseE5__inside : forall k, stays_inside toks (Parser2.parseE5_ k).
Proof.
  induction k as [|k IH]; intros st Hst; [exact I|].
  rewrite parseE5__eq, bind_lxin. destruct (existsb _ ["!"]).
  - apply reports_after_next; [exact Hst|]. intros st1 Hst1.
    apply reports_bind; [apply IH, Hst1|]. intros r st2 Hst2.
    destruct r; apply reports_ret, Hst2.
  - rewrite bind_lxin. destruct (existsb _ follow_E5);
      [apply reports_ret, Hst | apply reports_error, Hst].
Qed.

Lemma parseEx__inside names skips (f1 : Parser2.parser Expr) :
  stays_inside toks f1 ->
  forall k, stays_inside toks (Parser2.parseEx_ k names skips f1).
Proof.
  intros Hf1. induction k as [|k IH]; intros st Hst; [exact I|].
  rewrite parseEx__eq, bind_lxin. destruct (existsb _ names).
  - rewrite bind_get_cur. apply reports_after_next; [exact Hst|]. intros st1 Hst1.
    apply reports_bind; [apply Hf1, Hst1|]. intros lhs st2 Hst2.
    apply reports_bind; [apply IH, Hst2|]. intros lst st3 Hst3.
    apply reports_ret, Hst3.
  - rewrite bind_lxin. destruct (existsb _ skips);
      [apply reports_ret, Hst | apply reports_error, Hst].
Qed.

Lemma parseEx_inside names (f1 : Parser2.parser Expr) f2 right :
  stays_inside toks f1 -> stays_inside toks f2 ->
  stays_inside toks (Parser2.parseEx names f1 f2 right).
Proof.
  intros H1 H2 st Hst. unfold Parser2.parseEx. rewrite bind_lxin.
  destruct (negb _); [apply reports_error, Hst|].
  apply reports_bind; [apply H1, Hst|]. intros lhs st1 Hst1.
  apply reports_bind; [apply H2, Hst1|]. intros lst st2 Hst2.
  destruct lst; [|destruct right]; apply reports_ret, Hst2.
Qed.

Lemma all_inside_step n : all_inside toks n -> all_inside toks (S n).
Proof.
  intros [HE1 HE2 HE3 HE4 HE5 HE6 HA HL HL_ HE1_ HE2_ HE4_].
  split.
  - apply parseEx_inside; assumption.
  - apply parseEx_inside; assumption.
  - intros st Hst. rewrite parseE3_eq, bind_lxin. destruct (existsb _ ["-"]).
    + apply reports_after_next; [exact Hst|]. intros st1 Hst1.
      apply reports_bind; [apply HE3, Hst1|]. intros e st2 Hst2.
      apply reports_ret, Hst2.
    + rewrite bind_lxin. destruct (existsb _ Parser2.first_E4);
        [apply HE4, Hst | apply reports_error, Hst].
  - apply parseEx_inside; assumption.
  - intros st Hst. rewrite parseE5_eq, bind_lxin.
    destruct (existsb _ Parser2.first_E4); [|apply reports_error, Hst].
    apply reports_bind; [apply HE6, Hst|]. intros e st1 Hst1.
    apply reports_bind; [apply parseE5__inside, Hst1|]. intros r st2 Hst2.
    destruct r; apply reports_ret, Hst2.
  - intros st Hst. rewrite parseE6_eq, bind_get_cur.
    destruct (String.eqb (lx_name (Parser2.cur st)) "num").
    { apply reports_after_next; [exact Hst|]. intros st1 Hst1.
      apply reports_ret, Hst1. }
    destruct (String.eqb (lx_name (Parser2.cur st)) "id").
    { apply reports_after_next; [exact Hst|]. intros st1 Hst1.
      apply reports_bind; [apply HA, Hst1|]. intros a st2 Hst2.
      destruct a; apply reports_ret, Hst2. }
    destruct (String.eqb (lx_name (Parser2.cur st)) "(").
    { apply reports_after_next; [exact Hst|]. intros st1 Hst1.
      apply reports_bind; [apply HE1, Hst1|]. intros e1 st2 Hst2.
      rewrite bind_lxin. destruct (existsb _ [")"]); [|apply reports_error, Hst2].
      apply reports_after_next; [exact Hst2|]. intros st3 Hst3.
      apply reports_ret, Hst3. }
    destruct (String.eqb (lx_name (Parser2.cur st)) "|"); [|exact I].
    apply reports_after_next; [exact Hst|]. intros st1 Hst1.
    apply reports_bind; [apply HE1, Hst1|]. intros e1 st2 Hst2.
    rewrite bind_lxin. destruct (existsb _ ["|"]); [|apply reports_error, Hst2].
    apply reports_after_next; [exact Hst2|]. intros st3 Hst3.
    apply reports_ret, Hst3.
  - intros st Hst. rewrite parseA_eq, bind_lxin. destruct (existsb _ ["("]).
    + apply reports_after_next; [exact Hst|]. intros st1 Hst1.
      apply reports_bind; [apply HL, Hst1|]. intros ll st2 Hst2.
      rewrite bind_lxin. destruct (existsb _ [")"]); [|apply reports_error, Hst2].
      apply reports_after_next; [exact Hst2|]. intros st3 Hst3.
      apply reports_ret, Hst3.
    + rewrite bind_lxin. destruct (existsb _ _);
        [apply reports_ret, Hst | apply reports_error, Hst].
  - intros st Hst. rewrite parseL_eq, bind_lxin.
    destruct (existsb _ Parser2.first_E1); [|apply reports_error, Hst].
    apply reports_bind; [apply HE1, Hst|]. intros e1 st1 Hst1.
    apply reports_bind; [apply HL_, Hst1|]. intros l_ st2 Hst2.
    destruct l_; apply reports_ret, Hst2.
  - intros st Hst. rewrite parseL__eq, bind_lxin. destruct (existsb _ [","]).
    + apply reports_after_next; [exact Hst|]. intros st1 Hst1.
      apply reports_bind; [apply HE1, Hst1|]. intros e1 st2 Hst2.
      apply reports_bind; [apply HL_, Hst2|]. intros l_ st3 Hst3.
      destruct l_; apply reports_ret, Hst3.
    + rewrite bind_lxin. destruct (existsb _ [")"]);
        [apply reports_ret, Hst | apply reports_error, Hst].
  - destruct n as [|n]; [intros st _; exact I|]. apply parseEx__inside, HE2.
  - destruct n as [|n]; [intros st _; exact I|]. apply parseEx__inside, HE3.
  - destruct n as [|n]; [intros st _; exact I|]. apply parseEx__inside, HE5.
Qed.

Lemma all_inside_always n : all_inside toks n.
Proof.
  induction n as [|n IH]; [|apply all_inside_step, IH].
  split; intros st _; exact I.
Qed.

End Inside.

(** In the model, where the budget is never spent, the two cases are
    the only ones. *)
Lemma parse_state_inside data toks :
  Lexer.lex data = Some toks ->
  match Parser2.parse_state data with
  | Parser2.Parsed _ st =>
      exists pre, toks = (pre ++ Parser2.cur st :: Parser2.rest st)%list
  | Parser2.ParseError tok => In tok toks
  | _ => False
  end.
Proof.
  intros Hlex. pose proof (parse_total data) as Htotal.
  destruct (lex_total data) as (toks' & Hlex' & Hend).
  rewrite Hlex in Hlex'. injection Hlex' as <-.
  unfold Parser2.parse_state in *. rewrite Hlex in *.
  destruct toks as [|t r]; [exact Htotal|].
  assert (H : reports (t :: r)
                (Parser2.parseP (Parser2.budget (t :: r)) (Parser2.mkState t r))).
  { assert (Hst : inside (t :: r) (Parser2.mkState t r)) by (exists []; reflexivity).
    unfold Parser2.parseP. rewrite bind_lxin.
    destruct (negb _); [apply reports_error; assumption|].
    apply (inside_E1 _ _ (all_inside_always _ Hend _)), Hst. }
  destruct (Parser2.parseP _ _); try exact Htotal; exact H.
Qed.

(** When [parse] returns, it returns a tree, never [None] (the last case
    of [parseE6] is not reached), and what it has not read is the end of
    the lexemes of the input; when it raises a parse error, the error is
    at one of the lexemes of the input: the lexeme that [next] makes up
    at position -1 is never made. *)
Theorem parse_reads_the_lexemes data toks :
  Lexer.lex data = Some toks ->
  Parser2.parse_state data <> Parser2.NoValue /\
  (forall e st, Parser2.parse_state data = Parser2.Parsed e st ->
     exists pre, toks = (pre ++ Parser2.cur st :: Parser2.rest st)%list) /\
  (forall tok, Parser2.parse_state data = Parser2.ParseError tok -> In tok toks).
Proof.
  intros Hlex. pose proof (parse_state_inside data toks Hlex) as H.
  split; [|split].
  - intros E. rewrite E in H. exact H.
  - intros e st E. rewrite E in H. exact H.
  - intros tok E. rewrite E in H. exact H.
Qed.

Lemma parse_reads_the_lexemes_witness :
  Parser2.parse_state "2+*3" <> Parser2.NoValue /\
  (forall e st, Parser2.parse_state "2+*3" = Parser2.Parsed e st ->
     exists pre,
       [mkLexeme "num" 0 (Some "2"); mkLexeme "+" 1 (Some "+");
        mkLexeme "*" 2 (Some "*"); mkLexeme "num" 3 (Some "3"); mkLexeme "$" 4 None]
       = (pre ++ Parser2.cur st :: Parser2.rest st)%list) /\
  (forall tok, Parser2.parse_state "2+*3" = Parser2.ParseError tok ->
     In tok
       [mkLexeme "num" 0 (Some "2"); mkLexeme "+" 1 (Some "+");
        mkLexeme "*" 2 (Some "*"); mkLexeme "num" 3 (Some "3"); mkLexeme "$" 4 None]).
Proof.
  exact (parse_reads_the_lexemes "2+*3"
           [mkLexeme "num" 0 (Some "2"); mkLexeme "+" 1 (Some "+");
            mkLexeme "*" 2 (Some "*"); mkLexeme "num" 3 (Some "3"); mkLexeme "$" 4 None]
           eq_refl).
Defined.
